(** * nifi-automation: import / upgrade of a NiFi process group

    A shallow embedding of [action.py], [nifi_client.py] and
    [registry_client.py].

    - Values that come back from the servers are JSON documents, and the
      Python code handles them as dynamically typed values; they are
      modelled by the type [json] together with the few Python operations
      the code applies to them (subscript, truth value, [+], [==], [len],
      iteration, [max], [min]).
    - The two REST servers, the monotonic clock and [time.sleep] form the
      environment of a run: the class [Env].
    - A function of the program is a computation in the monad [M]: it
      threads the environment and a chronological log of everything the
      run did (HTTP requests with their responses, printed lines, clock
      readings, sleeps), and ends with a value, an exception or, for the two
      loops that are bounded by fuel, with [Diverge].

    Restrictions of the model: JSON numbers are integers; a text is a
    sequence of bytes (lengths and iteration of a text count bytes).
    [main] and the two [authenticate] methods, which run before
    [do_execute], are not embedded: a client is taken as [main] leaves it,
    with its token or without. *)

From Stdlib Require Import List String Ascii ZArith QArith Bool Arith Lia
  Permutation DecimalString.
From Stdlib Require Import Lqa.
Import ListNotations.

#[local] Set Warnings "-register-all".

Open Scope string_scope.
Open Scope Z_scope.
Open Scope list_scope.

Infix "+++" := String.append (at level 60, right associativity).

(* ------------------------------------------------------------------ *)
(** ** JSON values as Python sees them *)

Module Py.

Inductive json : Type :=
| JNull
| JBool (b : bool)
| JNum (n : Z)
| JStr (s : string)
| JArr (l : list json)
| JObj (d : list (string * json)).

Inductive pytype := TNone | TBool | TInt | TStr | TList | TDict.

Definition type_of (v : json) : pytype :=
  match v with
  | JNull => TNone
  | JBool _ => TBool
  | JNum _ => TInt
  | JStr _ => TStr
  | JArr _ => TList
  | JObj _ => TDict
  end.

(** The exceptions a run can end with.  [NifiError] is the program's own
    (module [common]); the others are raised by Python or [requests]. *)
Inductive exn : Type :=
| NifiError (msg : string)
| KeyError (key : string)
| IndexError
| TypeError (operation : string) (operand : pytype)
| JSONDecodeError
| RequestException
| Unmodelled (what : string).

Definition result (A : Type) : Type := (A + exn)%type.

Definition ok {A} (a : A) : result A := inl a.
Definition err {A} (e : exn) : result A := inr e.

Definition rbind {A B} (r : result A) (k : A -> result B) : result B :=
  match r with
  | inl a => k a
  | inr e => inr e
  end.

(** [bool(v)] *)
Definition truthy (v : json) : bool :=
  match v with
  | JNull => false
  | JBool b => b
  | JNum n => negb (n =? 0)
  | JStr s => negb (String.eqb s EmptyString)
  | JArr l => match l with [] => false | _ => true end
  | JObj d => match d with [] => false | _ => true end
  end.

(** Truth value of an [Optional[str]] command-line argument. *)
Definition truthy_arg (a : option string) : bool :=
  match a with
  | None => false
  | Some s => negb (String.eqb s EmptyString)
  end.

Definition arg_text (a : option string) : string :=
  match a with
  | None => "None"
  | Some s => s
  end.

Fixpoint dict_get (d : list (string * json)) (k : string) : option json :=
  match d with
  | [] => None
  | (k', v) :: d' => if String.eqb k' k then Some v else dict_get d' k
  end.

(** [d[k] = v] on a dict: an existing key keeps its place. *)
Fixpoint dict_set (d : list (string * json)) (k : string) (v : json)
  : list (string * json) :=
  match d with
  | [] => [(k, v)]
  | (k', v') :: d' =>
      if String.eqb k' k then (k', v) :: d' else (k', v') :: dict_set d' k v
  end.

(** [v[k]] for a text key [k]. *)
Definition getitem (v : json) (k : string) : result json :=
  match v with
  | JObj d =>
      match dict_get d k with
      | Some x => ok x
      | None => err (KeyError k)
      end
  | _ => err (TypeError "subscript with a str key" (type_of v))
  end.

(** [v[k1][k2]...] *)
Fixpoint getpath (v : json) (ks : list string) : result json :=
  match ks with
  | [] => ok v
  | k :: ks' => rbind (getitem v k) (fun x => getpath x ks')
  end.

(** [v[k] = x] for a text key [k]. *)
Definition setitem (v : json) (k : string) (x : json) : result json :=
  match v with
  | JObj d => ok (JObj (dict_set d k x))
  | _ => err (TypeError "item assignment with a str key" (type_of v))
  end.

Definition chars (s : string) : list json :=
  map (fun c => JStr (String c EmptyString)) (list_ascii_of_string s).

(** The elements a [for] loop (or [list +=]) sees. *)
Definition iter (v : json) : result (list json) :=
  match v with
  | JArr l => ok l
  | JObj d => ok (map (fun kv => JStr (fst kv)) d)
  | JStr s => ok (chars s)
  | _ => err (TypeError "iterate" (type_of v))
  end.

(** [len(v)] *)
Definition len (v : json) : result Z :=
  match v with
  | JArr l => ok (Z.of_nat (List.length l))
  | JObj d => ok (Z.of_nat (List.length d))
  | JStr s => ok (Z.of_nat (String.length s))
  | _ => err (TypeError "len" (type_of v))
  end.

(** [v[0]] *)
Definition getitem0 (v : json) : result json :=
  match v with
  | JArr l => match l with x :: _ => ok x | [] => err IndexError end
  | JStr s => match chars s with x :: _ => ok x | [] => err IndexError end
  | JObj _ => err (KeyError "0")
  | _ => err (TypeError "subscript with an int index" (type_of v))
  end.

(** [s + v] where [s] is a text: only a text can be appended. *)
Definition concat (s : string) (v : json) : result string :=
  match v with
  | JStr t => ok (s +++ t)
  | _ => err (TypeError "can only concatenate str to str" (type_of v))
  end.

(** [v == s] where [s] is a text. *)
Definition eq_str (v : json) (s : string) : bool :=
  match v with
  | JStr t => String.eqb t s
  | _ => false
  end.

Definition decimal (n : Z) : string := NilZero.string_of_int (Z.to_int n).

(** [str(v)], as an f-string formats a value inside a URL.  The [repr] of
    containers is outside the model. *)
Definition str (v : json) : result string :=
  match v with
  | JStr s => ok s
  | JNum n => ok (decimal n)
  | JBool true => ok "True"
  | JBool false => ok "False"
  | JNull => ok "None"
  | _ => err (Unmodelled "str of a container")
  end.

(** Integers, and booleans as the integers 0 and 1. *)
Definition as_int (v : json) : option Z :=
  match v with
  | JNum n => Some n
  | JBool b => Some (if b then 1 else 0)
  | _ => None
  end.

(** [a < b].  Python also orders lists; that case is outside the model. *)
Definition lt (a b : json) : result bool :=
  match as_int a, as_int b with
  | Some x, Some y => ok (x <? y)
  | _, _ =>
      match a, b with
      | JStr s, JStr t => ok (String.ltb s t)
      | JArr _, JArr _ => err (Unmodelled "ordering of lists")
      | _, _ => err (TypeError "order against" (type_of b))
      end
  end.

(** [max(x[k1]..[kn] for x in items)] and the same for [min], once the
    first item has been read: the running extremum is replaced by an item
    that is strictly greater (smaller); the items are read one at a time,
    as the generator expression produces them. *)
Fixpoint max_from (field : list string) (best : json) (items : list json)
  : result json :=
  match items with
  | [] => ok best
  | x :: rest =>
      rbind (getpath x field) (fun v =>
      rbind (lt best v) (fun b =>
        max_from field (if b then v else best) rest))
  end.

Fixpoint min_from (field : list string) (best : json) (items : list json)
  : result json :=
  match items with
  | [] => ok best
  | x :: rest =>
      rbind (getpath x field) (fun v =>
      rbind (lt v best) (fun b =>
        min_from field (if b then v else best) rest))
  end.

(** [v + n] for an integer literal [n]. *)
Definition add_int (v : json) (n : Z) : result json :=
  match as_int v with
  | Some x => ok (JNum (x + n))
  | None => err (TypeError "add an int to" (type_of v))
  end.

(** [[f(x) for x in items]], stopping at the first exception. *)
Fixpoint map_result {A B} (f : A -> result B) (items : list A)
  : result (list B) :=
  match items with
  | [] => ok []
  | x :: rest =>
      rbind (f x) (fun y => rbind (map_result f rest) (fun ys => ok (y :: ys)))
  end.

(** [next((x for x in items if x[k1]..[kn] == target), None)]; Python's
    [None] is [JNull]. *)
Fixpoint next_named (field : list string) (target : string)
  (items : list json) : result json :=
  match items with
  | [] => ok JNull
  | x :: rest =>
      rbind (getpath x field) (fun name =>
        if eq_str name target then ok x
        else next_named field target rest)
  end.

End Py.
Import Py.

(* ------------------------------------------------------------------ *)
(** ** The environment of a run and the monad of computations *)

Inductive method := GET | POST | PUT.

(** What [requests.get], [requests.post] and [requests.put] are given. *)
Record request : Type := {
  req_method : method;
  req_url : string;
  req_headers : list (string * string);
  req_json : option json;
  req_verify : bool
}.

(** What the code reads of a [requests.Response]: [.ok], [.text] and
    [.json()], which fails on a body that is not JSON. *)
Record response : Type := {
  resp_ok : bool;
  resp_text : string;
  resp_body : option json
}.

(** The servers answer a request (or the transport fails: [None]), the
    monotonic clock is read, [time.sleep] lets time pass. *)
Class Env : Type := {
  World : Type;
  http : request -> World -> option response * World;
  monotonic : World -> Q * World;
  sleep : Q -> World -> World
}.

(** One piece of an f-string: literal text or a formatted value. *)
Inductive piece := Lit (s : string) | Fmt (v : json).

Inductive event : Type :=
| EHttp (rq : request) (rs : option response)
| EPrint (args : list (list piece))
| EClock (t : Q)
| ESleep (d : Q).

Inductive outcome (A : Type) : Type :=
| Ok (a : A)
| Raise (e : exn)
| Diverge.
Arguments Ok {A} a.
Arguments Raise {A} e.
Arguments Diverge {A}.

Section Program.

Context {env : Env}.

Record state : Type := {
  world : World;
  log : list event
}.

Definition M (A : Type) : Type := state -> outcome A * state.

Definition ret {A} (a : A) : M A := fun st => (Ok a, st).

Definition bind {A B} (m : M A) (k : A -> M B) : M B :=
  fun st =>
    match m st with
    | (Ok a, st') => k a st'
    | (Raise e, st') => (Raise e, st')
    | (Diverge, st') => (Diverge, st')
    end.

Definition raise {A} (e : exn) : M A := fun st => (Raise e, st).

Definition diverge {A} : M A := fun st => (Diverge, st).

Definition lift {A} (r : result A) : M A :=
  match r with
  | inl a => ret a
  | inr e => raise e
  end.

Definition emit (e : event) : M unit :=
  fun st => (Ok tt, {| world := world st; log := log st ++ [e] |}).

Notation "x <- m ;; k" := (bind m (fun x => k))
  (at level 100, m at next level, right associativity).
Notation "m ;;; k" := (bind m (fun _ => k))
  (at level 100, right associativity).

(** [requests.<method>(url, headers=..., json=..., verify=...)] *)
Definition requests (rq : request) : M response :=
  fun st =>
    let (rs, w) := http rq (world st) in
    let st' := {| world := w; log := log st ++ [EHttp rq rs] |} in
    match rs with
    | Some r => (Ok r, st')
    | None => (Raise RequestException, st')
    end.

(** [response.json()] *)
Definition response_json (r : response) : M json :=
  match resp_body r with
  | Some v => ret v
  | None => raise JSONDecodeError
  end.

Definition print (args : list (list piece)) : M unit := emit (EPrint args).

(** [time.monotonic()] *)
Definition time_monotonic : M Q :=
  fun st =>
    let (t, w) := monotonic (world st) in
    (Ok t, {| world := w; log := log st ++ [EClock t] |}).

(** [time.sleep(d)] *)
Definition time_sleep (d : Q) : M unit :=
  fun st =>
    (Ok tt, {| world := sleep d (world st); log := log st ++ [ESleep d] |}).

(* ------------------------------------------------------------------ *)
(** ** nifi_client.py *)

Record NifiClient : Type := {
  api_uri : string;
  verify_tls : bool;
  insecure : bool;
  token : option string
}.

(** The decorator [require_auth]; [qualname] is [func.__qualname__]. *)
Definition require_auth {A} (self : NifiClient) (qualname : string)
  (func : M A) : M A :=
  if negb (insecure self) && negb (truthy_arg (token self)) then
    raise (NifiError ("NifiClient: Method " +++ qualname +++
                      " requires authentication to use"))
  else func.

Definition get_auth_headers (self : NifiClient) : list (string * string) :=
  if insecure self then []
  else [("Authorization", "Bearer " +++ arg_text (token self))].

(** The request a method of the client sends: every one carries
    [headers=self.get_auth_headers()] and [verify=self.verify_tls]. *)
Definition nifi_request (self : NifiClient) (m : method) (url : string)
  (body : option json) : request :=
  {| req_method := m; req_url := url;
     req_headers := get_auth_headers self;
     req_json := body;
     req_verify := verify_tls self |}.

Definition get_process_group_details (self : NifiClient) (pgid : json)
  : M json :=
  require_auth self "NifiClient.get_process_group_details" (
    url <- lift (concat (api_uri self +++ "/process-groups/") pgid) ;;
    response <- requests (nifi_request self GET url None) ;;
    if negb (resp_ok response) then
      raise (NifiError ("Get Process Group: " +++ resp_text response))
    else response_json response).

Definition get_process_group (self : NifiClient) (pgid : json) : M json :=
  require_auth self "NifiClient.get_process_group" (
    url <- lift (concat (api_uri self +++ "/flow/process-groups/") pgid) ;;
    response <- requests (nifi_request self GET url None) ;;
    if negb (resp_ok response) then
      raise (NifiError ("Get Process Group: " +++ resp_text response))
    else response_json response).

(** The eight lists of positioned components of a flow, in the order the
    code concatenates them. *)
Definition component_keys : list string :=
  ["processGroups"; "remoteProcessGroups"; "processors"; "inputPorts";
   "outputPorts"; "connections"; "labels"; "funnels"].

(** [components += flows[k]] for each key in turn. *)
Fixpoint extend_components (flows : json) (keys : list string)
  (components : list json) : result (list json) :=
  match keys with
  | [] => ok components
  | k :: keys' =>
      rbind (getitem flows k) (fun part =>
      rbind (iter part) (fun items =>
        extend_components flows keys' (components ++ items)))
  end.

(** The part of [get_suggested_process_group_position] that follows the
    request: from the decoded body to the position. *)
Definition suggested_position (body : json) : result (json * json) :=
  rbind (getpath body ["processGroupFlow"; "flow"]) (fun flows =>
  rbind (extend_components flows component_keys []) (fun components =>
    match components with
    | [] => ok (JNum 0, JNum 0)
    | first :: rest =>
        rbind (getpath first ["position"; "x"]) (fun x0 =>
        rbind (max_from ["position"; "x"] x0 rest) (fun right_x =>
        rbind (getpath first ["position"; "y"]) (fun y0 =>
        rbind (min_from ["position"; "y"] y0 rest) (fun top_y =>
        rbind (add_int right_x 380) (fun r1 =>
        rbind (add_int r1 50) (fun r2 =>
          ok (r2, top_y)))))))
    end)).

Definition get_suggested_process_group_position (self : NifiClient)
  (parent_pgid : json) : M (json * json) :=
  require_auth self "NifiClient.get_suggested_process_group_position" (
    url <- lift (concat (api_uri self +++ "/flow/process-groups/")
                   parent_pgid) ;;
    response <- requests (nifi_request self GET url None) ;;
    if negb (resp_ok response) then
      raise (NifiError ("Get Suggested Group Position: " +++
                        resp_text response))
    else
      body <- response_json response ;;
      lift (suggested_position body)).

Definition create_version_change_request (self : NifiClient) (pgid : json)
  (revision version_info : json) : M json :=
  require_auth self "NifiClient.create_version_change_request" (
    let data := JObj [("processGroupRevision", revision);
                      ("disconnectedNodeAcknowledged", JBool false);
                      ("versionControlInformation", version_info)] in
    url <- lift (concat (api_uri self +++
                         "/versions/update-requests/process-groups/") pgid) ;;
    response <- requests (nifi_request self POST url (Some data)) ;;
    if negb (resp_ok response) then
      raise (NifiError ("Change Version: " +++ resp_text response))
    else response_json response).

Definition create_process_group (self : NifiClient) (parent_pgid : json)
  (registry_id bucket_id flow_id : json) (version : Z) (pos_x pos_y : json)
  : M json :=
  require_auth self "NifiClient.create_process_group" (
    let pg_entity :=
      JObj [("component",
             JObj [("position", JObj [("x", pos_x); ("y", pos_y)]);
                   ("versionControlInformation",
                    JObj [("registryId", registry_id);
                          ("bucketId", bucket_id);
                          ("flowId", flow_id);
                          ("version", JNum version)])]);
            ("revision", JObj [("version", JNum 0)])] in
    parent <- lift (str parent_pgid) ;;
    response <- requests
                  (nifi_request self POST
                     (api_uri self +++ "/process-groups/" +++ parent +++
                      "/process-groups")
                     (Some pg_entity)) ;;
    (* [if not response:] the truth value of a response is its [.ok] *)
    if negb (resp_ok response) then
      raise (NifiError ("Create Process Group: " +++ resp_text response))
    else response_json response).

Definition change_process_group_name (self : NifiClient) (pgid : json)
  (name : string) (revision : json) : M json :=
  require_auth self "NifiClient.change_process_group_name" (
    let pg_entity :=
      JObj [("component", JObj [("name", JStr name); ("id", pgid)]);
            ("revision", revision)] in
    url <- lift (concat (api_uri self +++ "/process-groups/") pgid) ;;
    response <- requests (nifi_request self PUT url (Some pg_entity)) ;;
    if negb (resp_ok response) then
      raise (NifiError ("Change Process Group Name: " +++
                        resp_text response))
    else response_json response).

Definition get_update_request_status (self : NifiClient) (request_id : json)
  : M json :=
  require_auth self "NifiClient.get_update_request_status" (
    url <- lift (concat (api_uri self +++ "/versions/update-requests/")
                   request_id) ;;
    response <- requests (nifi_request self GET url None) ;;
    if negb (resp_ok response) then
      raise (NifiError ("Get Update Request Status: " +++
                        resp_text response))
    else response_json response).

Definition get_registry_clients (self : NifiClient) : M json :=
  require_auth self "NifiClient.get_registry_clients" (
    response <- requests
                  (nifi_request self GET
                     (api_uri self +++ "/controller/registry-clients")
                     None) ;;
    if negb (resp_ok response) then
      raise (NifiError ("Get Registry Clients: " +++ resp_text response))
    else response_json response).

(* ------------------------------------------------------------------ *)
(** ** registry_client.py *)

Record RegistryClient : Type := {
  r_api_uri : string;
  r_verify_tls : bool;
  r_insecure : bool;
  r_token : option string
}.

Definition r_require_auth {A} (self : RegistryClient) (qualname : string)
  (func : M A) : M A :=
  if negb (r_insecure self) && negb (truthy_arg (r_token self)) then
    raise (NifiError ("RegistryClient: Method " +++ qualname +++
                      " requires authentication to use"))
  else func.

Definition r_get_auth_headers (self : RegistryClient)
  : list (string * string) :=
  if r_insecure self then []
  else [("Authorization", "Bearer " +++ arg_text (r_token self))].

Definition registry_request (self : RegistryClient) (url : string)
  : request :=
  {| req_method := GET; req_url := url;
     req_headers := r_get_auth_headers self;
     req_json := None;
     req_verify := r_verify_tls self |}.

Definition get_buckets (self : RegistryClient) : M json :=
  r_require_auth self "RegistryClient.get_buckets" (
    response <- requests (registry_request self (r_api_uri self +++ "/buckets")) ;;
    if negb (resp_ok response) then
      raise (NifiError ("Get Buckets: " +++ resp_text response))
    else response_json response).

Definition get_flows (self : RegistryClient) (bucket_id : json) : M json :=
  r_require_auth self "RegistryClient.get_flows" (
    prefix <- lift (concat (r_api_uri self +++ "/buckets/") bucket_id) ;;
    response <- requests (registry_request self (prefix +++ "/flows")) ;;
    if negb (resp_ok response) then
      raise (NifiError ("Get Flows: " +++ resp_text response))
    else response_json response).

(* ------------------------------------------------------------------ *)
(** ** action.py *)

Definition Qgtb (a b : Q) : bool := negb (Qle_bool a b).

(** The [while] loop of [update_process_group]; it returns the value of
    [request_status] when the loop is left. *)
Fixpoint poll (fuel : nat) (client : NifiClient) (update_request : json)
  (start_time timeout : Q) (request_status : json) : M json :=
  match fuel with
  | O => diverge
  | S fuel' =>
      complete <- lift (getpath request_status ["request"; "complete"]) ;;
      if negb (truthy complete) then
        progress <- lift (getpath request_status
                            ["request"; "percentCompleted"]) ;;
        print [[Lit "Upgrade Progress: "; Fmt progress; Lit "%"]] ;;;
        current_time <- time_monotonic ;;
        if Qgtb (current_time - start_time) timeout then
          ret request_status
        else
          time_sleep (5 # 100) ;;;
          request_id <- lift (getpath update_request
                                ["request"; "requestId"]) ;;
          request_status' <- get_update_request_status client request_id ;;
          poll fuel' client update_request start_time timeout request_status'
      else ret request_status
  end.

Definition update_process_group (fuel : nat) (client : NifiClient)
  (pgid : json) (version : Z) (timeout : Q) : M json :=
  details <- get_process_group_details client pgid ;;
  id <- lift (getitem details "id") ;;
  old <- lift (getpath details
                 ["component"; "versionControlInformation"; "version"]) ;;
  print [[Lit "Upgrading process group: "; Fmt id];
         [Lit "current version "; Fmt old];
         [Lit "desired version "; Fmt (JNum version)]] ;;;
  revision_info <- lift (getitem details "revision") ;;
  current_version <- lift (getpath details
                             ["component"; "versionControlInformation"]) ;;
  current_version <- lift (setitem current_version "version"
                             (JNum version)) ;;
  update_request <- create_version_change_request client pgid
                      revision_info current_version ;;
  start_time <- time_monotonic ;;
  print [[Lit "Upgrade Progress: Starting"]] ;;;
  request_id <- lift (getpath update_request ["request"; "requestId"]) ;;
  request_status <- get_update_request_status client request_id ;;
  request_status <- poll fuel client update_request start_time timeout
                      request_status ;;
  complete <- lift (getpath request_status ["request"; "complete"]) ;;
  (if negb (truthy complete) then
     msg <- lift (concat "Change Version: Upgrade timed out "
                    request_status) ;;
     raise (NifiError msg)
   else ret tt) ;;;
  print [[Lit "Upgrade Progress: Done"]] ;;;
  ret pgid.

(** [import_process_group], lines 46-50: without a registry client, the
    server must have exactly one, and that one is taken. *)
Definition default_registry_client (client : NifiClient)
  (registry_client : json) : M json :=
  if negb (truthy registry_client) then
    clients <- get_registry_clients client ;;
    registries <- lift (getitem clients "registries") ;;
    n <- lift (len registries) ;;
    if negb (n =? 1) then
      raise (NifiError "Import Process Group: must provide registry client if clients are not unique.")
    else
      first <- lift (getitem0 registries) ;;
      lift (getitem first "id")
  else ret registry_client.

(** Lines 52-53: without a parent, the root group is the parent. *)
Definition default_parent_pgid (client : NifiClient) (parent_pgid : json)
  : M json :=
  if negb (truthy parent_pgid) then
    root <- get_process_group client (JStr "root") ;;
    lift (getpath root ["processGroupFlow"; "id"])
  else ret parent_pgid.

(** Lines 55-56: without a position, the suggested one is taken (a given
    position is a pair, and a pair is true). *)
Definition default_position (client : NifiClient) (parent_pgid : json)
  (position : option (json * json)) : M (json * json) :=
  match position with
  | None => get_suggested_process_group_position client parent_pgid
  | Some p => ret p
  end.

Definition import_process_group (client : NifiClient) (name : string)
  (bucket_id flow_id : json) (version : Z)
  (parent_pgid registry_client : json) (position : option (json * json))
  : M json :=
  registry_client <- default_registry_client client registry_client ;;
  parent_pgid <- default_parent_pgid client parent_pgid ;;
  position <- default_position client parent_pgid position ;;
  print [[Lit "Importing process group: "; Fmt (JStr name)];
         [Lit "desired version "; Fmt (JNum version)];
         [Lit "from bucket "; Fmt bucket_id];
         [Lit "with flow "; Fmt flow_id];
         [Lit "from registry id "; Fmt registry_client];
         [Lit "with parent processor group "; Fmt parent_pgid]] ;;;
  details <- create_process_group client parent_pgid registry_client
               bucket_id flow_id version (fst position) (snd position) ;;
  print [[Lit "Import Progress: Done"]] ;;;
  id <- lift (getitem details "id") ;;
  revision <- lift (getitem details "revision") ;;
  updated_process_group <- change_process_group_name client id name
                             revision ;;
  lift (getitem updated_process_group "id").

(** The generator [traverse_process_groups]: the queue [curr] and, while
    the generator is suspended at its [yield], the group it yielded, whose
    children are appended to the queue when the generator is resumed. *)
Record generator : Type := {
  curr : list json;
  yielded : option json
}.

Definition traverse_process_groups (root : json) : generator :=
  {| curr := [root]; yielded := None |}.

(** One [next()] on the generator: [None] stands for [StopIteration]. *)
Definition resume (client : NifiClient) (g : generator)
  : M (option json * generator) :=
  queue <-
    (match yielded g with
     | None => ret (curr g)
     | Some current_group =>
         pgs <- lift (getpath current_group
                        ["processGroupFlow"; "flow"; "processGroups"]) ;;
         items <- lift (iter pgs) ;;
         ids <- lift (map_result (fun pg => getitem pg "id") items) ;;
         ret (curr g ++ ids)
     end) ;;
  match queue with
  | [] => ret (None, {| curr := []; yielded := None |})
  | pgid :: rest =>
      current_group <- get_process_group client pgid ;;
      ret (Some current_group,
           {| curr := rest; yielded := Some current_group |})
  end.

Definition breadcrumb_name : list string :=
  ["processGroupFlow"; "breadcrumb"; "breadcrumb"; "name"].

(** [next((pg for pg in g if pg[...]["name"] == target), None)];
    Python's [None] is [JNull]. *)
Fixpoint next_match (fuel : nat) (client : NifiClient) (target : string)
  (g : generator) : M json :=
  match fuel with
  | O => diverge
  | S fuel' =>
      r <- resume client g ;;
      match r with
      | (None, _) => ret JNull
      | (Some pg, g') =>
          name <- lift (getpath pg breadcrumb_name) ;;
          if eq_str name target then ret pg
          else next_match fuel' client target g'
      end
  end.

(** The command-line arguments [do_execute] reads. *)
Record Args : Type := {
  process_group_name : string;
  version : Z;
  bucket : option string;
  flow : option string;
  parent : option string;
  registry : option string
}.

(** [do_execute], lines 103-104. *)
Definition require_bucket_and_flow (args : Args) : M unit :=
  if negb (truthy_arg (bucket args)) || negb (truthy_arg (flow args)) then
    raise (NifiError "Importing Process Group needs --bucket and --flow defined")
  else ret tt.

(** Lines 105-108: the bucket of the given name. *)
Definition find_bucket (registry_c : RegistryClient) (args : Args)
  : M json :=
  buckets <- get_buckets registry_c ;;
  items <- lift (iter buckets) ;;
  bucket_ <- lift (next_named ["name"] (arg_text (bucket args)) items) ;;
  if negb (truthy bucket_) then
    raise (NifiError ("Importing Process Group: bucket " +++
                      arg_text (bucket args) +++ " does not exist"))
  else ret bucket_.

(** Lines 110-113: the flow of the given name in that bucket. *)
Definition find_flow (registry_c : RegistryClient) (args : Args)
  (bucket_ : json) : M json :=
  bucket_id <- lift (getitem bucket_ "identifier") ;;
  flows <- get_flows registry_c bucket_id ;;
  items <- lift (iter flows) ;;
  flow_ <- lift (next_named ["name"] (arg_text (flow args)) items) ;;
  if negb (truthy flow_) then
    raise (NifiError ("Importing Process Group: flow " +++
                      arg_text (flow args) +++ " does not exist"))
  else ret flow_.

(** Lines 115-121: the id of the registry client of the given name, or
    [None] when no name is given. *)
Definition find_registry (nifi : NifiClient) (args : Args) : M json :=
  if truthy_arg (registry args) then
    clients <- get_registry_clients nifi ;;
    registries <- lift (getitem clients "registries") ;;
    items <- lift (iter registries) ;;
    client <- lift (next_named ["component"; "name"]
                      (arg_text (registry args)) items) ;;
    if negb (truthy client) then
      raise (NifiError ("Registry Client " +++
                        arg_text (registry args) +++ " does not exist"))
    else lift (getitem client "id")
  else ret JNull.

(** Lines 123-131: the id of the group of the given parent name, or [None]
    when no name is given. *)
Definition find_parent (fuel : nat) (nifi : NifiClient) (args : Args)
  (root_id : json) : M json :=
  if truthy_arg (parent args) then
    target_parent_group <-
      next_match fuel nifi (arg_text (parent args))
        (traverse_process_groups root_id) ;;
    if negb (truthy target_parent_group) then
      raise (NifiError ("Parent Processor Group " +++
                        arg_text (parent args) +++ " does not exists"))
    else lift (getpath target_parent_group ["processGroupFlow"; "id"])
  else ret JNull.

(** The import branch of [do_execute]: the body of [if not target_group],
    lines 102-136. *)
Definition do_import (fuel : nat) (nifi : NifiClient)
  (registry_c : RegistryClient) (args : Args) (root_id : json) : M unit :=
  require_bucket_and_flow args ;;;
  bucket_ <- find_bucket registry_c args ;;
  flow_ <- find_flow registry_c args bucket_ ;;
  target_registry <- find_registry nifi args ;;
  parent_pgid <- find_parent fuel nifi args root_id ;;
  bucket_id <- lift (getitem bucket_ "identifier") ;;
  flow_id <- lift (getitem flow_ "identifier") ;;
  import_process_group nifi (process_group_name args) bucket_id flow_id
    (version args) parent_pgid target_registry None ;;;
  ret tt.

Definition do_execute (fuel : nat) (nifi : NifiClient)
  (registry_c : RegistryClient) (args : Args) : M unit :=
  let target_pg_name := process_group_name args in
  let target_pg_version := version args in
  root <- get_process_group nifi (JStr "root") ;;
  root_id <- lift (getpath root ["processGroupFlow"; "id"]) ;;
  target_group <- next_match fuel nifi target_pg_name
                    (traverse_process_groups root_id) ;;
  if negb (truthy target_group) then
    do_import fuel nifi registry_c args root_id
  else
    pgid <- lift (getpath target_group ["processGroupFlow"; "id"]) ;;
    update_process_group fuel nifi pgid target_pg_version 30 ;;;
    ret tt.

End Program.

(* ------------------------------------------------------------------ *)
(** ** Vocabulary of the statements *)

Section Vocabulary.

Context {env : Env}.

(** The state after further events [evs] took the world to [w]. *)
Definition after (st : state) (w : World) (evs : list event) : state :=
  {| world := w; log := log st ++ evs |}.

(** The server answers request [rq] in world [w] with the successful
    response [r], whose body decodes to [b], and moves on to [w']. *)
Definition replies (rq : request) (w : World) (r : response) (b : json)
  (w' : World) : Prop :=
  http rq w = (Some r, w') /\ resp_ok r = true /\ resp_body r = Some b.

(** The guard of [require_auth] lets the call through. *)
Definition authenticated (self : NifiClient) : bool :=
  insecure self || truthy_arg (token self).

Definition r_authenticated (self : RegistryClient) : bool :=
  r_insecure self || truthy_arg (r_token self).

(** The requests the client methods send. *)
Definition group_request (self : NifiClient) (p : string) : request :=
  nifi_request self GET ((api_uri self +++ "/flow/process-groups/") +++ p)
    None.

Definition details_request (self : NifiClient) (p : string) : request :=
  nifi_request self GET ((api_uri self +++ "/process-groups/") +++ p) None.

Definition status_request (self : NifiClient) (rid : string) : request :=
  nifi_request self GET
    ((api_uri self +++ "/versions/update-requests/") +++ rid) None.

Definition clients_request (self : NifiClient) : request :=
  nifi_request self GET (api_uri self +++ "/controller/registry-clients")
    None.

Definition change_request (self : NifiClient) (p : string)
  (revision version_info : json) : request :=
  nifi_request self POST
    ((api_uri self +++ "/versions/update-requests/process-groups/") +++ p)
    (Some (JObj [("processGroupRevision", revision);
                 ("disconnectedNodeAcknowledged", JBool false);
                 ("versionControlInformation", version_info)])).

Definition create_request (self : NifiClient) (parent : string)
  (registry_id bucket_id flow_id : json) (version : Z) (pos_x pos_y : json)
  : request :=
  nifi_request self POST
    (api_uri self +++ "/process-groups/" +++ parent +++ "/process-groups")
    (Some (JObj
       [("component",
         JObj [("position", JObj [("x", pos_x); ("y", pos_y)]);
               ("versionControlInformation",
                JObj [("registryId", registry_id);
                      ("bucketId", bucket_id);
                      ("flowId", flow_id);
                      ("version", JNum version)])]);
        ("revision", JObj [("version", JNum 0)])])).

Definition rename_request (self : NifiClient) (p : string) (name : string)
  (revision : json) : request :=
  nifi_request self PUT ((api_uri self +++ "/process-groups/") +++ p)
    (Some (JObj [("component", JObj [("name", JStr name); ("id", JStr p)]);
                 ("revision", revision)])).

Definition buckets_request (self : RegistryClient) : request :=
  registry_request self (r_api_uri self +++ "/buckets").

Definition flows_request (self : RegistryClient) (b : string) : request :=
  registry_request self (((r_api_uri self +++ "/buckets/") +++ b) +++ "/flows").

(** ** Vocabulary of the layout claim *)

(** Component [c] is reported at the integer position [(fst xy, snd xy)]. *)
Definition positioned (c : json) (xy : Z * Z) : Prop :=
  getpath c ["position"; "x"] = ok (JNum (fst xy)) /\
  getpath c ["position"; "y"] = ok (JNum (snd xy)).

(** The flow [flows] reports, under the eight component keys, the lists
    [parts] (one list per key, in the order of [component_keys]). *)
Definition reports (flows : json) (parts : list (list json)) : Prop :=
  Forall2 (fun k part => getitem flows k = ok (JArr part))
    component_keys parts.

End Vocabulary.

(* ------------------------------------------------------------------ *)
(** ** Vocabulary of the traversal claims: trees of process groups *)

(** A finite tree of process groups: a group has an id, a display name
    and child groups, in the order the server reports them. *)
Inductive tree : Type :=
| Node (id name : string) (children : list tree).

Definition tree_id (t : tree) : string :=
  match t with Node i _ _ => i end.

Definition tree_name (t : tree) : string :=
  match t with Node _ n _ => n end.

Definition tree_children (t : tree) : list tree :=
  match t with Node _ _ cs => cs end.

(** The nodes of a tree at depth [d] (the root is at depth 0), from left
    to right; a node is given as the subtree it roots. *)
Fixpoint level (d : nat) (t : tree) : list tree :=
  match d with
  | O => [t]
  | S d' => flat_map (level d') (tree_children t)
  end.

Fixpoint height (t : tree) : nat :=
  match t with
  | Node _ _ cs => S (list_max (map height cs))
  end.

Fixpoint size (t : tree) : nat :=
  match t with
  | Node _ _ cs => S (list_sum (map size cs))
  end.

(** Every node of a tree, once (in prefix order). *)
Fixpoint nodes (t : tree) : list tree :=
  match t with
  | Node _ _ cs => t :: flat_map nodes cs
  end.

(** Breadth-first order: depth after depth, left to right in a depth. *)
Definition breadth_first (t : tree) : list tree :=
  flat_map (fun d => level d t) (seq 0 (height t)).

Definition named (target : string) (t : tree) : bool :=
  String.eqb (tree_name t) target.

(** The part of a sequence a search for the first [p] goes through: up to
    and including the first element that satisfies [p]. *)
Fixpoint upto {A} (p : A -> bool) (l : list A) : list A :=
  match l with
  | [] => []
  | x :: l' => if p x then [x] else x :: upto p l'
  end.

(** The same notions for a queue of trees (a forest). *)
Definition levelF (d : nat) (q : list tree) : list tree :=
  flat_map (level d) q.

Definition heightF (q : list tree) : nat := list_max (map height q).

Definition sizeF (q : list tree) : nat := list_sum (map size q).

Definition breadth_firstF (q : list tree) : list tree :=
  flat_map (fun d => levelF d q) (seq 0 (heightF q)).

(** The queue of ids that stands for a queue of trees. *)
Definition ids (q : list tree) : list json :=
  map (fun t => JStr (tree_id t)) q.

Section TreeVocabulary.

Context {env : Env}.

(** The group snapshot [g] lists the trees [cs] as its child groups, by
    their ids and in this order. *)
Definition children_ids (g : json) (cs : list tree) : Prop :=
  exists pgs,
    getpath g ["processGroupFlow"; "flow"; "processGroups"] = ok (JArr pgs) /\
    Forall2 (fun pg c => getitem pg "id" = ok (JStr (tree_id c))) pgs cs.

(** The snapshot [g] that the server returns for a group describes the
    node [t]: its display name, and its children by their ids. *)
Definition snapshot (g : json) (t : tree) : Prop :=
  getpath g breadcrumb_name = ok (JStr (tree_name t)) /\
  children_ids g (tree_children t).

(** The generator stands at the queue of trees [q]: its queue holds the
    ids of [q], except that the children of the group it has just yielded
    are still to be appended. *)
Definition represents (g : generator) (q : list tree) : Prop :=
  match yielded g with
  | None => curr g = ids q
  | Some current_group =>
      exists rest cs,
        q = rest ++ cs /\ curr g = ids rest /\ children_ids current_group cs
  end.

(** The server answers for every node of the forest [q]. *)
Definition servesF (self : NifiClient) (q : list tree) : Prop :=
  forall n, In n (flat_map nodes q) -> forall w,
    exists r g w', replies (group_request self (tree_id n)) w r g w' /\
                   snapshot g n.

(** The server holds the tree [t]: whenever it is asked for a node of
    [t] by its id, it answers with a snapshot of that node. *)
Definition serves (self : NifiClient) (t : tree) : Prop :=
  forall n, In n (nodes t) -> forall w,
    exists r g w', replies (group_request self (tree_id n)) w r g w' /\
                   snapshot g n.

(** Event [e] is the fetch of node [n]. *)
Definition fetch_of (self : NifiClient) (e : event) (n : tree) : Prop :=
  exists r, e = EHttp (group_request self (tree_id n)) (Some r).

End TreeVocabulary.

(* ------------------------------------------------------------------ *)
(** ** Vocabulary of the claims about what a run does to the servers *)

(** A request that changes nothing on a server. *)
Definition is_read (e : event) : Prop :=
  match e with
  | EHttp rq _ => req_method rq = GET
  | _ => True
  end.

Definition mutatingb (e : event) : bool :=
  match e with
  | EHttp rq _ => match req_method rq with GET => false | _ => true end
  | _ => false
  end.

(** The mutating calls among the events of a run, in order. *)
Definition mutating (evs : list event) : list event := filter mutatingb evs.

(** The HTTP requests among the events of a run, in order. *)
Definition http_events (evs : list event) : list event :=
  filter (fun e => match e with EHttp _ _ => true | _ => false end) evs.

Section RunVocabulary.

Context {env : Env}.

(** Computation [m] only adds events to the log, and every event it adds
    satisfies [P]. *)
Definition emits (P : event -> Prop) {A} (m : M A) : Prop :=
  forall st, exists evs, log (snd (m st)) = log st ++ evs /\ Forall P evs.

End RunVocabulary.

(** The lines the version-change driver prints. *)
Definition progress_line (progress : json) : event :=
  EPrint [[Lit "Upgrade Progress: "; Fmt progress; Lit "%"]].

Definition upgrading_line (id old : json) (version : Z) : event :=
  EPrint [[Lit "Upgrading process group: "; Fmt id];
          [Lit "current version "; Fmt old];
          [Lit "desired version "; Fmt (JNum version)]].

Definition starting_line : event :=
  EPrint [[Lit "Upgrade Progress: Starting"]].

Definition done_line : event := EPrint [[Lit "Upgrade Progress: Done"]].


Section CallVocabulary.

Context {env : Env}.

(** The only request a traversal makes: the fetch of a group. *)
Definition fetches_group (self : NifiClient) (e : event) : Prop :=
  match e with
  | EHttp rq _ => exists p, rq = group_request self p
  | _ => True
  end.

(** The requests of the version-change driver: the details of a group,
    the change of version, the status of the change. *)
Definition driver_call (self : NifiClient) (e : event) : Prop :=
  match e with
  | EHttp rq _ =>
      (exists p, rq = details_request self p) \/
      (exists p rev vi, rq = change_request self p rev vi) \/
      (exists rid, rq = status_request self rid)
  | _ => True
  end.

Definition importing_line (name : string) (version : Z)
  (bucket_id flow_id registry_client parent_pgid : json) : event :=
  EPrint [[Lit "Importing process group: "; Fmt (JStr name)];
          [Lit "desired version "; Fmt (JNum version)];
          [Lit "from bucket "; Fmt bucket_id];
          [Lit "with flow "; Fmt flow_id];
          [Lit "from registry id "; Fmt registry_client];
          [Lit "with parent processor group "; Fmt parent_pgid]].

Definition imported_line : event := EPrint [[Lit "Import Progress: Done"]].

End CallVocabulary.

(** The item [c] of a server's list carries, under the path [field], a
    value that is not the text [target]. *)
Definition other_name (field : list string) (target : string) (c : json)
  : Prop :=
  exists v, getpath c field = ok v /\ eq_str v target = false.

(* ------------------------------------------------------------------ *)
(** ** Vocabulary of the further properties *)

Section FurtherVocabulary.

Context {env : Env}.

(** The server answers request [rq] in world [w] with the response [r],
    which is not a success, and moves on to [w']. *)
Definition refuses (rq : request) (w : World) (r : response) (w' : World)
  : Prop :=
  http rq w = (Some r, w') /\ resp_ok r = false.

(** The message of the error that [require_auth] raises. *)
Definition needs_authentication (class_name qualname : string) : exn :=
  NifiError (class_name +++ ": Method " +++ qualname +++
             " requires authentication to use").

(** An event of a run of [do_execute] with the clients [nifi] and
    [registry_c]: a request is one that a method of one of the two clients
    builds, with the headers and the TLS flag of that client. *)
Definition built_by (nifi : NifiClient) (registry_c : RegistryClient)
  (e : event) : Prop :=
  match e with
  | EHttp rq _ =>
      (exists m url body, rq = nifi_request nifi m url body) \/
      (exists url, rq = registry_request registry_c url)
  | _ => True
  end.

(** A computation adds to the log at most [n] mutating calls. *)
Definition mutates_at_most (n : nat) {A} (m : M A) : Prop :=
  forall st, exists evs,
    log (snd (m st)) = log st ++ evs /\
    (List.length (mutating evs) <= n)%nat.

(** A computation that ends, with a value or an exception, from every
    state. *)
Definition returns {A} (m : M A) : Prop :=
  forall st, fst (m st) <> Diverge.

(** An outcome other than a value. *)
Definition failed {A} (o : outcome A) : Prop :=
  match o with
  | Ok _ => False
  | _ => True
  end.

(** The clock of the environment ticks: [now] is the time of a world,
    which the monotonic clock reads and no interaction turns back, and a
    sleep lasts at least as long as it is asked to. *)
Definition ticking (now : World -> Q) : Prop :=
  (forall w, fst (monotonic w) = now w /\
             (now w <= now (snd (monotonic w)))%Q) /\
  (forall d w, (now w + d <= now (sleep d w))%Q) /\
  (forall rq w, (now w <= now (snd (http rq w)))%Q).

(** A region of the server's graph of groups that a search for [target]
    never leaves and never ends in: each of its groups is served, has
    another name, and has at least one child, all of whose children are in
    the region again. *)
Definition endless_region (self : NifiClient) (target : string)
  (S : string -> Prop) : Prop :=
  forall p, S p -> forall w,
    exists r g w' pgs,
      replies (group_request self p) w r g w' /\
      (exists v, getpath g breadcrumb_name = ok v /\
                 eq_str v target = false) /\
      getpath g ["processGroupFlow"; "flow"; "processGroups"]
      = ok (JArr pgs) /\
      pgs <> [] /\
      Forall (fun pg => exists c, getitem pg "id" = ok (JStr c) /\ S c) pgs.

(** The generator is inside the region [S]: the ids of its queue are in
    [S], and its queue is not empty or is about to receive the children,
    all in [S], of the group it has yielded. *)
Definition inside (S : string -> Prop) (g : generator) : Prop :=
  Forall (fun v => exists c, v = JStr c /\ S c) (curr g) /\
  match yielded g with
  | None => curr g <> []
  | Some current_group =>
      exists pgs,
        getpath current_group ["processGroupFlow"; "flow"; "processGroups"]
        = ok (JArr pgs) /\
        pgs <> [] /\
        Forall (fun pg => exists c, getitem pg "id" = ok (JStr c) /\ S c) pgs
  end.

End FurtherVocabulary.
(* ------------------------------------------------------------------ *)
(** ** Concrete environments, for running the program on examples *)

Module Scenario.

Definition nifi : NifiClient :=
  {| api_uri := "https://nifi:8443/nifi-api";
     verify_tls := true;
     insecure := true;
     token := None |}.

Definition registry_client : RegistryClient :=
  {| r_api_uri := "http://nifi:18080/nifi-registry-api";
     r_verify_tls := true;
     r_insecure := true;
     r_token := None |}.

(** A canned environment: its world is the number of interactions so
    far; the servers answer by [serve], the clock reads [clock]. *)
Definition canned (serve : nat -> request -> option response)
  (clock : nat -> Q) : Env :=
  {| World := nat;
     http := fun rq n => (serve n rq, S n);
     monotonic := fun n => (clock n, S n);
     sleep := fun _ n => S n |}.

Definition start (e : Env) (w : @World e) : @state e :=
  {| world := w; log := [] |}.

Definition success (b : json) : response :=
  {| resp_ok := true; resp_text := "OK"; resp_body := Some b |}.

Definition failure (text : string) : response :=
  {| resp_ok := false; resp_text := text; resp_body := None |}.

(** *** A server that holds a tree of process groups *)

Definition component (i : string) (x y : Z) : json :=
  JObj [("id", JStr i);
        ("position", JObj [("x", JNum x); ("y", JNum y)])].

(** The document the server returns for a group: its [flow] holds the
    child groups, then [others] as its processors. *)
Definition group_json (n : tree) (others : list json) : json :=
  JObj
    [("processGroupFlow",
      JObj [("id", JStr (tree_id n));
            ("breadcrumb",
             JObj [("breadcrumb",
                    JObj [("id", JStr (tree_id n));
                          ("name", JStr (tree_name n))])]);
            ("flow",
             JObj [("processGroups",
                    JArr (map (fun c => component (tree_id c) 0 0)
                            (tree_children n)));
                   ("remoteProcessGroups", JArr []);
                   ("processors", JArr others);
                   ("inputPorts", JArr []);
                   ("outputPorts", JArr []);
                   ("connections", JArr []);
                   ("labels", JArr []);
                   ("funnels", JArr [])])])].

Definition serve_tree (t : tree) (rq : request) : option response :=
  match find (fun n => String.eqb (req_url rq)
                         (req_url (group_request nifi (tree_id n))))
          (nodes t) with
  | Some n => Some (success (group_json n []))
  | None => Some (failure "no such process group")
  end.

Definition tree_env (t : tree) : Env :=
  canned (fun _ => serve_tree t) (fun _ => 0%Q).

(** Two groups are named [nested]: one at depth 2 on the left, one at
    depth 1 on the right. *)
Definition deep : tree := Node "id-c" "nested" [].
Definition left : tree := Node "id-a" "ingest" [deep].
Definition right : tree := Node "id-b" "nested" [].
Definition canvas : tree := Node "id-root" "NiFi Flow" [left; right].

(** *** A parent group with three positioned components *)



(** *** A server that upgrades the group [id-b] *)

Definition group_details : json :=
  JObj [("revision", JObj [("clientId", JStr "c-1"); ("version", JNum 7)]);
        ("id", JStr "id-b");
        ("component",
         JObj [("id", JStr "id-b");
               ("name", JStr "nested");
               ("versionControlInformation",
                JObj [("groupId", JStr "id-b");
                      ("registryId", JStr "reg-1");
                      ("bucketId", JStr "bucket-1");
                      ("flowId", JStr "flow-1");
                      ("version", JNum 1);
                      ("state", JStr "STALE")])])].

Definition status (complete : bool) (percent : Z) : json :=
  JObj [("request",
         JObj [("requestId", JStr "req-1");
               ("complete", JBool complete);
               ("percentCompleted", JNum percent)])].

(** The server holds the tree [t], gives the details of [id-b], accepts
    a change of version, and reports the status [statuses n] when it is
    asked at interaction [n]. *)
Definition serve_upgrade (t : tree) (statuses : nat -> json) (n : nat)
  (rq : request) : option response :=
  match req_method rq with
  | GET =>
      if String.eqb (req_url rq) (req_url (details_request nifi "id-b"))
      then Some (success group_details)
      else if String.eqb (req_url rq)
                (req_url (status_request nifi "req-1"))
      then Some (success (statuses n))
      else if String.eqb (req_url rq) (req_url (group_request nifi "root"))
      then Some (success (group_json t []))
      else serve_tree t rq
  | POST => Some (success (status false 0))
  | PUT => Some (failure "not allowed")
  end.

(** The change completes at the third poll; the clock stands still. *)
Definition three_polls (n : nat) : json :=
  if (n <? 4)%nat then status false 10
  else if (n <? 7)%nat then status false 55
  else status true 100.

Definition upgrade_env : Env :=
  canned (serve_upgrade canvas three_polls) (fun _ => 0%Q).

(** The change never completes; the clock reads 0 when the request is
    made and 31 seconds at the first check. *)
Definition stuck_env : Env :=
  canned (serve_upgrade canvas (fun _ => status false 10))
    (fun n => if (n <=? 2)%nat then 0%Q else 31%Q).

(** *** A server on which a group is imported *)

Definition connection (i name : string) : json :=
  JObj [("id", JStr i);
        ("component", JObj [("id", JStr i); ("name", JStr name)])].

Definition created : json :=
  JObj [("revision", JObj [("version", JNum 1)]);
        ("id", JStr "id-new");
        ("component", JObj [("id", JStr "id-new"); ("name", JStr "flow-1")])].

Definition renamed (name : string) : json :=
  JObj [("revision", JObj [("version", JNum 2)]);
        ("id", JStr "id-new");
        ("component", JObj [("id", JStr "id-new"); ("name", JStr name)])].

(** The server holds the canvas and the registry connections
    [connections]; it creates the group [id-new] and renames it. *)
Definition serve_import (connections : list json) (rq : request)
  : option response :=
  match req_method rq with
  | GET =>
      if String.eqb (req_url rq) (req_url (clients_request nifi))
      then Some (success (JObj [("registries", JArr connections)]))
      else if String.eqb (req_url rq) (req_url (group_request nifi "root"))
      then Some (success (group_json canvas []))
      else serve_tree canvas rq
  | POST => Some (success created)
  | PUT => Some (success (renamed "nested 123456"))
  end.

Definition import_env : Env :=
  canned (fun _ => serve_import [connection "reg-1" "docker local"])
    (fun _ => 0%Q).

Definition two_connections : list json :=
  [connection "reg-1" "docker local"; connection "reg-2" "staging"].

Definition clients_env : Env :=
  canned (fun _ => serve_import two_connections) (fun _ => 0%Q).

(** The arguments of the run that [main] shows, without the import
    parameters and with them. *)
Definition upgrade_args : Args :=
  {| process_group_name := "nested";
     version := 2;
     bucket := None;
     flow := None;
     parent := None;
     registry := None |}.

Definition import_args : Args :=
  {| process_group_name := "nested 123456";
     version := 2;
     bucket := Some "docker local test";
     flow := Some "test flow";
     parent := Some "test group";
     registry := Some "staging" |}.

(** *** Clients without credentials, and a server that is down *)

Definition locked : NifiClient :=
  {| api_uri := "https://nifi:8443/nifi-api";
     verify_tls := true;
     insecure := false;
     token := None |}.

Definition locked_registry : RegistryClient :=
  {| r_api_uri := "http://nifi:18080/nifi-registry-api";
     r_verify_tls := true;
     r_insecure := false;
     r_token := None |}.

Definition unavailable : response := failure "503 Service Unavailable".

Definition down_env : Env :=
  canned (fun _ _ => Some unavailable) (fun _ => 0%Q).

(** *** A clock that runs, and a change that never completes *)

(** The world is the time: the clock reads it, a sleep adds to it. *)
Definition timed_env : Env :=
  {| World := Q;
     http := fun rq t => (serve_upgrade canvas (fun _ => status false 10)
                            0%nat rq, t);
     monotonic := fun t => (t, t);
     sleep := fun d t => (t + d)%Q |}.

(** *** A group that lists itself as its child *)

Definition looping : tree := Node "id-x" "loop" [Node "id-x" "loop" []].

Definition loop_env : Env :=
  canned (fun _ _ => Some (success (group_json looping []))) (fun _ => 0%Q).

(** *** A registry with two buckets and two flows *)

Definition entry (i name : string) : json :=
  JObj [("identifier", JStr i); ("name", JStr name)].

Definition bucket_list : list json :=
  [entry "bucket-0" "sandbox"; entry "bucket-1" "docker local test"].

Definition flow_list : list json :=
  [entry "flow-0" "draft flow"; entry "flow-1" "test flow"].

Definition serve_registry (rq : request) : option response :=
  if String.eqb (req_url rq) (req_url (buckets_request registry_client))
  then Some (success (JArr bucket_list))
  else if String.eqb (req_url rq)
            (req_url (flows_request registry_client "bucket-1"))
  then Some (success (JArr flow_list))
  else Some (failure "no such bucket").

Definition registry_env : Env :=
  canned (fun _ => serve_registry) (fun _ => 0%Q).

(** *** A parent with a component that has no position *)

Definition unplaced : json :=
  group_json (Node "id-p" "parent" [])
    [component "p1" 10 5; JObj [("id", JStr "c1")]; component "p3" 50 2].

Definition unplaced_env : Env :=
  canned (fun _ _ => Some (success unplaced)) (fun _ => 0%Q).

(** *** A change that is complete at the first poll *)

Definition done_env : Env :=
  canned (serve_upgrade canvas (fun _ => status true 100)) (fun _ => 0%Q).

(** *** A server that refuses to rename, and one that refuses to create *)

Definition serve_refusing (refused : method) (rq : request)
  : option response :=
  match req_method rq, refused with
  | POST, POST => Some unavailable
  | PUT, PUT => Some unavailable
  | _, _ => serve_import [connection "reg-1" "docker local"] rq
  end.

Definition refusing_env (refused : method) : Env :=
  canned (fun _ => serve_refusing refused) (fun _ => 0%Q).

(** *** A group that is not under version control *)

Definition unversioned_details : json :=
  JObj [("revision", JObj [("version", JNum 3)]);
        ("id", JStr "id-a");
        ("component", JObj [("id", JStr "id-a"); ("name", JStr "ingest")])].

Definition unversioned_env : Env :=
  canned (fun _ _ => Some (success unversioned_details)) (fun _ => 0%Q).

(** *** The canvas, of which the group [id-b] cannot be fetched *)

Definition serve_broken (rq : request) : option response :=
  if String.eqb (req_url rq) (req_url (group_request nifi "id-b"))
  then Some unavailable
  else serve_tree canvas rq.

Definition broken_env : Env :=
  canned (fun _ => serve_broken) (fun _ => 0%Q).

End Scenario.
(* ------------------------------------------------------------------ *)
(** ** Running computations: the equations every proof below uses *)

Section Running.

Context {env : Env}.

Lemma bind_Ok {A B} (m : M A) (k : A -> M B) st a st' :
  m st = (Ok a, st') -> bind m k st = k a st'.
Proof. intros H; unfold bind; now rewrite H. Qed.

Lemma bind_Raise {A B} (m : M A) (k : A -> M B) st e st' :
  m st = (Raise e, st') -> bind m k st = (Raise e, st').
Proof. intros H; unfold bind; now rewrite H. Qed.

Lemma bind_Diverge {A B} (m : M A) (k : A -> M B) st st' :
  m st = (Diverge, st') -> bind m k st = (Diverge, st').
Proof. intros H; unfold bind; now rewrite H. Qed.

Lemma bind_lift_ok {A B} (r : result A) (k : A -> M B) st a :
  r = ok a -> bind (lift r) k st = k a st.
Proof. intros ->; reflexivity. Qed.

Lemma bind_lift_err {A B} (r : result A) (k : A -> M B) st e :
  r = err e -> bind (lift r) k st = (Raise e, st).
Proof. intros ->; reflexivity. Qed.

Lemma after_after st w evs w' evs' :
  after (after st w evs) w' evs' = after st w' (evs ++ evs').
Proof. unfold after; cbn; now rewrite app_assoc. Qed.

Lemma after_nil st : after st (world st) [] = st.
Proof. destruct st; unfold after; cbn; now rewrite app_nil_r. Qed.

Lemma require_auth_ok {A} self q (m : M A) :
  authenticated self = true -> require_auth self q m = m.
Proof.
  unfold authenticated, require_auth.
  destruct (insecure self), (truthy_arg (token self)); cbn; congruence.
Qed.

Lemma r_require_auth_ok {A} self q (m : M A) :
  r_authenticated self = true -> r_require_auth self q m = m.
Proof.
  unfold r_authenticated, r_require_auth.
  destruct (r_insecure self), (truthy_arg (r_token self)); cbn; congruence.
Qed.

Lemma requests_replies rq st r b w' :
  replies rq (world st) r b w' ->
  requests rq st = (Ok r, after st w' [EHttp rq (Some r)]).
Proof. intros (H & _ & _); unfold requests; now rewrite H. Qed.

(** The common tail of every client method: send, check [.ok], decode. *)
Lemma send_and_decode rq (msg : string) st r b w' :
  replies rq (world st) r b w' ->
  bind (requests rq) (fun response =>
    if negb (resp_ok response)
    then raise (NifiError (msg +++ resp_text response))
    else response_json response) st
  = (Ok b, after st w' [EHttp rq (Some r)]).
Proof.
  intros H. rewrite (bind_Ok _ _ _ _ _ (requests_replies _ _ _ _ _ H)).
  destruct H as (_ & Hok & Hb). rewrite Hok; cbn.
  unfold response_json; now rewrite Hb.
Qed.

Ltac client_call :=
  intros;
  match goal with
  | H : replies _ _ _ _ _ |- _ =>
      first [ rewrite require_auth_ok by assumption
            | rewrite r_require_auth_ok by assumption ];
      cbn [concat str lift];
      try (erewrite bind_lift_ok by reflexivity);
      now apply send_and_decode
  end.

Lemma get_process_group_replies self p st r b w' :
  authenticated self = true ->
  replies (group_request self p) (world st) r b w' ->
  get_process_group self (JStr p) st
  = (Ok b, after st w' [EHttp (group_request self p) (Some r)]).
Proof. unfold get_process_group, group_request. client_call. Qed.

Lemma get_process_group_details_replies self p st r b w' :
  authenticated self = true ->
  replies (details_request self p) (world st) r b w' ->
  get_process_group_details self (JStr p) st
  = (Ok b, after st w' [EHttp (details_request self p) (Some r)]).
Proof. unfold get_process_group_details, details_request. client_call. Qed.

Lemma get_update_request_status_replies self rid st r b w' :
  authenticated self = true ->
  replies (status_request self rid) (world st) r b w' ->
  get_update_request_status self (JStr rid) st
  = (Ok b, after st w' [EHttp (status_request self rid) (Some r)]).
Proof. unfold get_update_request_status, status_request. client_call. Qed.

Lemma get_registry_clients_replies self st r b w' :
  authenticated self = true ->
  replies (clients_request self) (world st) r b w' ->
  get_registry_clients self st
  = (Ok b, after st w' [EHttp (clients_request self) (Some r)]).
Proof. unfold get_registry_clients, clients_request. client_call. Qed.

Lemma create_version_change_request_replies self p rev vi st r b w' :
  authenticated self = true ->
  replies (change_request self p rev vi) (world st) r b w' ->
  create_version_change_request self (JStr p) rev vi st
  = (Ok b, after st w' [EHttp (change_request self p rev vi) (Some r)]).
Proof. unfold create_version_change_request, change_request. client_call. Qed.

Lemma create_process_group_replies self p rg bk fl v x y st r b w' :
  authenticated self = true ->
  replies (create_request self p rg bk fl v x y) (world st) r b w' ->
  create_process_group self (JStr p) rg bk fl v x y st
  = (Ok b, after st w' [EHttp (create_request self p rg bk fl v x y) (Some r)]).
Proof. unfold create_process_group, create_request. client_call. Qed.

Lemma change_process_group_name_replies self p name rev st r b w' :
  authenticated self = true ->
  replies (rename_request self p name rev) (world st) r b w' ->
  change_process_group_name self (JStr p) name rev st
  = (Ok b, after st w' [EHttp (rename_request self p name rev) (Some r)]).
Proof. unfold change_process_group_name, rename_request. client_call. Qed.

Lemma get_buckets_replies self st r b w' :
  r_authenticated self = true ->
  replies (buckets_request self) (world st) r b w' ->
  get_buckets self st
  = (Ok b, after st w' [EHttp (buckets_request self) (Some r)]).
Proof. unfold get_buckets, buckets_request. client_call. Qed.

Lemma get_flows_replies self bk st r b w' :
  r_authenticated self = true ->
  replies (flows_request self bk) (world st) r b w' ->
  get_flows self (JStr bk) st
  = (Ok b, after st w' [EHttp (flows_request self bk) (Some r)]).
Proof. unfold get_flows, flows_request. client_call. Qed.

(* ------------------------------------------------------------------ *)
(** ** Layout planner *)

Lemma extend_components_reports flows keys parts acc :
  Forall2 (fun k part => getitem flows k = ok (JArr part)) keys parts ->
  extend_components flows keys acc = ok (acc ++ List.concat parts).
Proof.
  intros H; revert acc; induction H as [|k part keys parts Hk _ IH]; intros acc.
  - cbn. now rewrite app_nil_r.
  - cbn [extend_components]. rewrite Hk. cbn. rewrite IH. now rewrite app_assoc.
Qed.







(* ------------------------------------------------------------------ *)
(** ** Breadth-first order of a forest *)

Lemma flat_map_nil {A B} (f : A -> list B) l :
  (forall x, In x l -> f x = []) -> flat_map f l = [].
Proof.
  induction l as [|a l IH]; intros H; [reflexivity|]. cbn.
  rewrite (H a (or_introl eq_refl)), IH; [reflexivity|].
  intros x Hx; apply H; now right.
Qed.

Lemma flat_map_of_map {A B C} (f : B -> list C) (g : A -> B) l :
  flat_map f (map g l) = flat_map (fun x => f (g x)) l.
Proof. induction l as [|a l IH]; cbn; [reflexivity | now rewrite IH]. Qed.

Lemma list_max_In l x : In x l -> (x <= list_max l)%nat.
Proof.
  induction l as [|a l IH]; [intros []|]. cbn [list_max fold_right].
  intros [->|H]; [lia|]. specialize (IH H). unfold list_max in IH. lia.
Qed.

Lemma level_beyond d : forall t, (height t <= d)%nat -> level d t = [].
Proof.
  induction d as [|d IH]; intros [i n cs] H; cbn in H; [lia|].
  cbn [level tree_children]. apply flat_map_nil. intros c Hc. apply IH.
  assert (height c <= list_max (map height cs))%nat
    by (apply list_max_In, in_map, Hc).
  lia.
Qed.

Lemma levelF_beyond d q : (heightF q <= d)%nat -> levelF d q = [].
Proof.
  intros H. apply flat_map_nil. intros t Ht. apply level_beyond.
  assert (height t <= heightF q)%nat by (apply list_max_In, in_map, Ht).
  lia.
Qed.

Lemma breadth_firstF_bound q B :
  (heightF q <= B)%nat ->
  breadth_firstF q = flat_map (fun d => levelF d q) (seq 0 B).
Proof.
  intros H. unfold breadth_firstF.
  replace B with (heightF q + (B - heightF q))%nat by lia.
  rewrite seq_app, flat_map_app. rewrite (flat_map_nil _ (seq (0 + _) _)).
  - now rewrite app_nil_r.
  - intros d Hd. apply in_seq in Hd. apply levelF_beyond. lia.
Qed.

(** Re-bracketing two interleaved families of lists. *)
Lemma interleave {A} (L C : nat -> list A) n :
  flat_map (fun d => L d ++ C d) (seq 0 n) ++ L n
  = L 0%nat ++ flat_map (fun d => C d ++ L (S d)) (seq 0 n).
Proof.
  induction n as [|n IH]; [cbn; now rewrite app_nil_r|].
  rewrite seq_S. rewrite !flat_map_app. cbn [flat_map plus].
  rewrite !app_nil_r. rewrite <- !app_assoc.
  rewrite (app_assoc _ (L n) (C n ++ L (S n))), IH.
  now rewrite <- !app_assoc.
Qed.

Lemma levelF_app d q q' : levelF d (q ++ q') = levelF d q ++ levelF d q'.
Proof. apply flat_map_app. Qed.

Lemma heightF_app q q' : heightF (q ++ q') = Nat.max (heightF q) (heightF q').
Proof. unfold heightF. now rewrite map_app, list_max_app. Qed.

Lemma sizeF_app q q' : sizeF (q ++ q') = (sizeF q + sizeF q')%nat.
Proof. unfold sizeF. now rewrite map_app, list_sum_app. Qed.

(** The step of the queue: the first tree of the queue is visited and its
    children join the end of the queue. *)
Lemma breadth_firstF_step i n cs q :
  breadth_firstF (Node i n cs :: q)
  = Node i n cs :: breadth_firstF (q ++ cs).
Proof.
  set (t := Node i n cs).
  set (h := Nat.max (heightF cs) (Nat.pred (heightF q))).
  assert (Ht : heightF (t :: q) = S h).
  { unfold heightF, h. cbn [map list_max fold_right height t].
    fold (list_max (map height q)). unfold heightF. lia. }
  rewrite (breadth_firstF_bound (q ++ cs) (S h))
    by (rewrite heightF_app; unfold h; lia).
  rewrite seq_S, flat_map_app. cbn [flat_map plus]. rewrite app_nil_r.
  rewrite levelF_app, (levelF_beyond h cs), app_nil_r by (unfold h; lia).
  erewrite (flat_map_ext _ (fun d => levelF d q ++ levelF d cs))
    by (intros d; apply levelF_app).
  rewrite (interleave (fun d => levelF d q) (fun d => levelF d cs) h).
  unfold breadth_firstF. rewrite Ht.
  cbn [seq flat_map]. rewrite <- seq_shift, flat_map_of_map.
  change (levelF 0 (t :: q)) with (t :: levelF 0 q).
  cbn [app]. do 2 f_equal.
Qed.

Lemma breadth_firstF_nil : breadth_firstF [] = [].
Proof. reflexivity. Qed.

Lemma breadth_first_forest t : breadth_first t = breadth_firstF [t].
Proof.
  unfold breadth_first, breadth_firstF, heightF. cbn [map list_max fold_right].
  rewrite Nat.max_0_r. apply flat_map_ext. intros d. unfold levelF. cbn.
  now rewrite app_nil_r.
Qed.

Lemma sizeF_cons i n cs q :
  sizeF (Node i n cs :: q) = S (sizeF cs + sizeF q).
Proof. reflexivity. Qed.

Lemma size_pos t : (0 < size t)%nat.
Proof. destruct t; cbn; lia. Qed.

(** Breadth-first order lists every node once. *)
Lemma breadth_firstF_nodes k : forall q,
  (sizeF q <= k)%nat ->
  Permutation (breadth_firstF q) (flat_map nodes q).
Proof.
  induction k as [|k IH]; intros [|[i n cs] q] Hk;
    try (rewrite breadth_firstF_nil; constructor).
  - rewrite sizeF_cons in Hk; lia.
  - rewrite breadth_firstF_step. cbn [flat_map nodes app].
    constructor. rewrite IH.
    + rewrite flat_map_app. apply Permutation_app_comm.
    + rewrite sizeF_app. rewrite sizeF_cons in Hk. lia.
Qed.

Lemma breadth_first_nodes t : Permutation (breadth_first t) (nodes t).
Proof.
  rewrite breadth_first_forest.
  rewrite (breadth_firstF_nodes (sizeF [t]) [t] (le_n _)).
  cbn. now rewrite app_nil_r.
Qed.
(* ------------------------------------------------------------------ *)
(** ** The traversal, one [next()] at a time *)

Lemma ids_app q q' : ids (q ++ q') = ids q ++ ids q'.
Proof. apply map_app. Qed.

Lemma map_result_ids pgs cs :
  Forall2 (fun pg c => getitem pg "id" = ok (JStr (tree_id c))) pgs cs ->
  map_result (fun pg => getitem pg "id") pgs = ok (ids cs).
Proof.
  induction 1 as [|pg c pgs cs H _ IH]; [reflexivity|].
  cbn [map_result]. rewrite H. cbn [rbind ok]. now rewrite IH.
Qed.

(** The queue the generator works on once it has been resumed. *)
Lemma resume_queue (self : NifiClient) g q {A}
  (k : list json -> M A) st :
  represents g q ->
  bind (match yielded g with
        | None => ret (curr g)
        | Some current_group =>
            bind (lift (getpath current_group
                          ["processGroupFlow"; "flow"; "processGroups"]))
              (fun pgs =>
            bind (lift (iter pgs)) (fun items =>
            bind (lift (map_result (fun pg => getitem pg "id") items))
              (fun ids' => ret (curr g ++ ids'))))
        end) k st
  = k (ids q) st.
Proof.
  unfold represents. destruct (yielded g) as [grp|].
  - intros (rest & cs & -> & Hc & pgs & Hp & Hids).
    rewrite Hp. cbn [lift ok]. unfold bind at 2. cbn [ret iter lift ok].
    unfold bind at 2. cbn [ret]. rewrite (map_result_ids _ _ Hids).
    cbn [lift ok]. unfold bind at 2. cbn [ret]. unfold bind. cbn [ret].
    now rewrite Hc, ids_app.
  - intros ->. reflexivity.
Qed.

Lemma resume_nil (self : NifiClient) g st :
  represents g [] ->
  resume self g st = (Ok (None, {| curr := []; yielded := None |}), st).
Proof.
  intros H. unfold resume. now rewrite (resume_queue self g [] _ st H).
Qed.

Lemma resume_cons (self : NifiClient) g t q st r b w' :
  authenticated self = true ->
  represents g (t :: q) ->
  replies (group_request self (tree_id t)) (world st) r b w' ->
  resume self g st
  = (Ok (Some b, {| curr := ids q; yielded := Some b |}),
     after st w' [EHttp (group_request self (tree_id t)) (Some r)]).
Proof.
  intros Ha H Hr. unfold resume. rewrite (resume_queue self g _ _ st H).
  cbn [ids map].
  now rewrite (bind_Ok _ _ _ _ _ (get_process_group_replies _ _ _ _ _ _ Ha Hr)).
Qed.

Lemma servesF_step (self : NifiClient) i n cs q :
  servesF self (Node i n cs :: q) -> servesF self (q ++ cs).
Proof.
  intros H m Hm. apply H. rewrite flat_map_app in Hm. cbn [flat_map nodes].
  apply in_app_or in Hm. apply in_or_app.
  destruct Hm as [Hm|Hm]; [now right | left; now right].
Qed.

(** The search over a queue of trees: it fetches the nodes in
    breadth-first order up to the first one with the target name, and
    returns that node's snapshot, or [None] when there is none. *)
Lemma next_match_forest (self : NifiClient) (target : string) k :
  forall q g st fuel,
  authenticated self = true ->
  (sizeF q <= k)%nat -> (k < fuel)%nat ->
  represents g q -> servesF self q ->
  exists res st' evs,
    next_match fuel self target g st = (Ok res, st') /\
    log st' = log st ++ evs /\
    Forall2 (fetch_of self) evs (upto (named target) (breadth_firstF q)) /\
    match find (named target) (breadth_firstF q) with
    | Some n => snapshot res n
    | None => res = JNull
    end.
Proof.
  induction k as [|k IH]; intros [|[i n cs] q] g st [|fuel] Ha Hk Hf Hg Hs;
    try lia; try (rewrite sizeF_cons in Hk; lia).
  - exists JNull, st, []. cbn [next_match].
    rewrite (bind_Ok _ _ _ _ _ (resume_nil self g st Hg)).
    rewrite app_nil_r. repeat split. constructor.
  - exists JNull, st, []. cbn [next_match].
    rewrite (bind_Ok _ _ _ _ _ (resume_nil self g st Hg)).
    rewrite app_nil_r. repeat split. constructor.
  - rewrite sizeF_cons in Hk. set (t := Node i n cs) in *.
    destruct (Hs t (or_introl eq_refl) (world st))
      as (r & b & w' & Hr & Hname & Hkids).
    cbn [next_match].
    rewrite (bind_Ok _ _ _ _ _ (resume_cons self g t q st r b w' Ha Hg Hr)).
    rewrite Hname. cbn [lift ok]. unfold bind at 1. cbn [ret eq_str].
    unfold t at 2 3 4. rewrite breadth_firstF_step. fold t.
    cbn [upto find]. unfold named at 1 3. 
    destruct (String.eqb (tree_name t) target) eqn:E.
    + eexists b, _, [_]. split; [reflexivity|]. split; [reflexivity|].
      split; [constructor; [now exists r | constructor]|].
      split; assumption.
    + destruct (IH (q ++ cs) {| curr := ids q; yielded := Some b |}
                  (after st w' [EHttp (group_request self (tree_id t)) (Some r)])
                  fuel Ha) as (res & st' & evs & Hrun & Hlog & Hev & Hres).
      * rewrite sizeF_app. lia.
      * lia.
      * exists q, cs. repeat split. exact Hkids.
      * eapply servesF_step; eassumption.
      * exists res, st', (EHttp (group_request self (tree_id t)) (Some r) :: evs).
        split; [exact Hrun|]. split.
        { rewrite Hlog. cbn [after log]. now rewrite <- app_assoc. }
        split; [constructor; [now exists r | exact Hev] | exact Hres].
Qed.
(* ------------------------------------------------------------------ *)
(** ** First match in breadth-first order *)

Lemma find_app_first {A} (p : A -> bool) l1 l2 :
  find p (l1 ++ l2)
  = match find p l1 with Some x => Some x | None => find p l2 end.
Proof.
  induction l1 as [|a l1 IH]; [reflexivity|]. cbn. now destruct (p a).
Qed.

Lemma find_all_false {A} (p : A -> bool) l :
  (forall x, In x l -> p x = false) -> find p l = None.
Proof.
  induction l as [|a l IH]; intros H; [reflexivity|]. cbn.
  rewrite (H a (or_introl eq_refl)). apply IH. intros x Hx. apply H. now right.
Qed.

Lemma find_some_true {A} (p : A -> bool) l x :
  In x l -> p x = true -> exists y, find p l = Some y.
Proof.
  induction l as [|a l IH]; intros Hin Hp; [destruct Hin|]. cbn.
  destruct (p a) eqn:E; [now exists a|].
  destruct Hin as [->|Hin]; [congruence | now apply IH].
Qed.

Lemma upto_all_false {A} (p : A -> bool) l :
  (forall x, In x l -> p x = false) -> upto p l = l.
Proof.
  induction l as [|a l IH]; intros H; [reflexivity|]. cbn.
  rewrite (H a (or_introl eq_refl)). f_equal. apply IH.
  intros x Hx. apply H. now right.
Qed.

Lemma named_true target n : named target n = true <-> tree_name n = target.
Proof. apply String.eqb_eq. Qed.

Lemma named_false target n : named target n = false <-> tree_name n <> target.
Proof. apply String.eqb_neq. Qed.

(** The first match of a breadth-first search is the first match of the
    shallowest depth that has one. *)
Lemma first_match_shallowest (p : tree -> bool) t d n :
  In n (level d t) -> p n = true ->
  (forall d' m, (d' < d)%nat -> In m (level d' t) -> p m = false) ->
  find p (breadth_first t) = find p (level d t).
Proof.
  intros Hin Hp Hshallow.
  assert (Hd : (d < height t)%nat).
  { destruct (Nat.lt_ge_cases d (height t)) as [H|H]; [exact H|].
    rewrite (level_beyond d t H) in Hin. destruct Hin. }
  unfold breadth_first.
  replace (height t) with (d + S (height t - S d))%nat by lia.
  rewrite seq_app, flat_map_app. cbn [seq flat_map plus].
  rewrite find_app_first, find_all_false.
  - rewrite find_app_first.
    destruct (find_some_true p _ _ Hin Hp) as [y ->]. reflexivity.
  - intros m Hm. apply in_flat_map in Hm. destruct Hm as (d' & Hd' & Hm).
    apply in_seq in Hd'. apply (Hshallow d' m); [lia | exact Hm].
Qed.

Lemma find_in_true {A} (p : A -> bool) l x :
  find p l = Some x -> In x l /\ p x = true.
Proof. apply find_some. Qed.

(** C2.  The name search over a finite tree of process groups held by the
    server, started at the root of the tree: it fetches the nodes in
    breadth-first order, one request per node, and stops at the first node
    with the target name.  When a node with the target name exists at depth
    [d] and none exists at a shallower depth, the search returns a node of
    depth [d] with that name (the first of them from the left, which is
    that node when it is the only one so named at its depth).  When no node
    has the target name, the search returns [None] after fetching every
    node of the tree exactly once. *)
Theorem search_is_breadth_first
  (self : NifiClient) (t : tree) (target : string) (st : state)
  (fuel : nat) :
  authenticated self = true ->
  serves self t ->
  (size t < fuel)%nat ->
  exists res st' evs,
    next_match fuel self target
      (traverse_process_groups (JStr (tree_id t))) st = (Ok res, st') /\
    log st' = log st ++ evs /\
    Forall2 (fetch_of self) evs (upto (named target) (breadth_first t)) /\
    (forall d n,
        In n (level d t) -> tree_name n = target ->
        (forall d' m, (d' < d)%nat -> In m (level d' t) ->
                      tree_name m <> target) ->
        exists n',
          find (named target) (level d t) = Some n' /\
          snapshot res n' /\
          ((forall m, In m (level d t) -> tree_name m = target -> m = n) ->
           n' = n)) /\
    ((forall n, In n (nodes t) -> tree_name n <> target) ->
     res = JNull /\
     Forall2 (fetch_of self) evs (breadth_first t) /\
     Permutation (breadth_first t) (nodes t)).
Proof.
  intros Ha Hs Hfuel.
  destruct (next_match_forest self target (size t) [t]
              (traverse_process_groups (JStr (tree_id t))) st fuel Ha)
    as (res & st' & evs & Hrun & Hlog & Hev & Hres).
  - unfold sizeF. cbn. lia.
  - exact Hfuel.
  - reflexivity.
  - intros n Hn. apply Hs. cbn in Hn. now rewrite app_nil_r in Hn.
  - rewrite <- breadth_first_forest in Hev, Hres.
    exists res, st', evs. repeat split; try assumption.
    + intros d n Hin Hname Hshallow.
      rewrite (first_match_shallowest (named target) t d n Hin) in Hres.
      * destruct (find_some_true (named target) _ _ Hin) as [n' Hn'];
          [now apply named_true|].
        rewrite Hn' in Hres. exists n'. repeat split; try apply Hres; trivial.
        intros Huniq. destruct (find_in_true _ _ _ Hn') as [Hin' Hp'].
        apply Huniq; [exact Hin' | now apply named_true].
      * now apply named_true.
      * intros d' m Hlt Hm. apply named_false. eapply Hshallow; eassumption.
    + rewrite find_all_false in Hres; [exact Hres|].
      intros n Hn. apply named_false. apply H.
      eapply Permutation_in; [apply breadth_first_nodes | exact Hn].
    + rewrite upto_all_false in Hev; [exact Hev|].
      intros n Hn. apply named_false. apply H.
      eapply Permutation_in; [apply breadth_first_nodes | exact Hn].
    + apply breadth_first_nodes.
Qed.
(* ------------------------------------------------------------------ *)
(** ** What a computation adds to the log *)

Section Emits.

Variable P : event -> Prop.

Lemma emits_ret {A} (a : A) : emits P (ret a).
Proof. intros st; exists []; cbn; now rewrite app_nil_r. Qed.

Lemma emits_raise {A} e : emits P (@raise _ A e).
Proof. intros st; exists []; cbn; now rewrite app_nil_r. Qed.

Lemma emits_diverge {A} : emits P (@diverge _ A).
Proof. intros st; exists []; cbn; now rewrite app_nil_r. Qed.

Lemma emits_lift {A} (r : result A) : emits P (lift r).
Proof. destruct r; [apply emits_ret | apply emits_raise]. Qed.

Lemma emits_bind {A B} (m : M A) (k : A -> M B) :
  emits P m -> (forall a, emits P (k a)) -> emits P (bind m k).
Proof.
  intros Hm Hk st. destruct (Hm st) as (evs & Hl & Hp). unfold bind.
  destruct (m st) as [[a| |] st1]; cbn [snd] in *; try (now exists evs).
  destruct (Hk a st1) as (evs' & Hl' & Hp').
  exists (evs ++ evs'). rewrite Hl', Hl, app_assoc. split; [reflexivity|].
  apply Forall_app. now split.
Qed.

Lemma emits_bind_lift {A B} (r : result A) (k : A -> M B) :
  (forall a, r = ok a -> emits P (k a)) -> emits P (bind (lift r) k).
Proof.
  intros H. destruct r as [a|e].
  - intros st. apply (H a eq_refl).
  - intros st. exists []. cbn. now rewrite app_nil_r.
Qed.

Lemma emits_print args : P (EPrint args) -> emits P (print args).
Proof. intros H st; exists [EPrint args]; cbn; split; [reflexivity|]. now constructor. Qed.

Lemma emits_requests rq :
  (forall rs, P (EHttp rq rs)) -> emits P (requests rq).
Proof.
  intros H st. exists [EHttp rq (fst (http rq (world st)))].
  unfold requests. destruct (http rq (world st)) as [[r|] w]; cbn;
    (split; [reflexivity | constructor; [apply H | constructor]]).
Qed.

Lemma emits_response_json r : emits P (response_json r).
Proof.
  unfold response_json. destruct (resp_body r);
    [apply emits_ret | apply emits_raise].
Qed.

Lemma emits_time_monotonic : (forall t, P (EClock t)) -> emits P time_monotonic.
Proof.
  intros H st. exists [EClock (fst (monotonic (world st)))].
  unfold time_monotonic. destruct (monotonic (world st)) as [t w]; cbn.
  split; [reflexivity | constructor; [apply H | constructor]].
Qed.

Lemma emits_time_sleep d : P (ESleep d) -> emits P (time_sleep d).
Proof.
  intros H st. exists [ESleep d]. cbn. split; [reflexivity|]. now constructor.
Qed.

Lemma emits_require_auth {A} self q (m : M A) :
  emits P m -> emits P (require_auth self q m).
Proof.
  intros H. unfold require_auth.
  destruct (negb (insecure self) && negb (truthy_arg (token self)));
    [apply emits_raise | exact H].
Qed.

Lemma emits_r_require_auth {A} self q (m : M A) :
  emits P m -> emits P (r_require_auth self q m).
Proof.
  intros H. unfold r_require_auth.
  destruct (negb (r_insecure self) && negb (truthy_arg (r_token self)));
    [apply emits_raise | exact H].
Qed.

End Emits.

(** Going through a computation, one construct at a time. *)
Ltac emits_step :=
  match goal with
  | |- emits _ (bind (lift _) _) =>
      apply emits_bind_lift;
      let H := fresh "E" in
      intros ? H; try discriminate H;
      try (injection H as <-)
  | |- emits _ (bind _ _) => apply emits_bind; [|intros ?]
  | |- emits _ (ret _) => apply emits_ret
  | |- emits _ (raise _) => apply emits_raise
  | |- emits _ diverge => apply emits_diverge
  | |- emits _ (lift _) => apply emits_lift
  | |- emits _ (response_json _) => apply emits_response_json
  | |- emits _ (require_auth _ _ _) => apply emits_require_auth
  | |- emits _ (r_require_auth _ _ _) => apply emits_r_require_auth
  | |- emits _ (print _) => apply emits_print; exact I
  | |- emits _ (requests _) => apply emits_requests; intros ?; cbn; try reflexivity; try exact I
  | |- emits _ time_monotonic => apply emits_time_monotonic; intros ?; exact I
  | |- emits _ (time_sleep _) => apply emits_time_sleep; exact I
  | |- emits _ (if ?b then _ else _) => destruct b
  | |- emits _ (match ?x with _ => _ end) => destruct x
  | |- emits _ (let _ := _ in _) => cbv zeta
  end.

Ltac emits_auto := repeat emits_step.

Lemma get_process_group_reads self pgid :
  emits is_read (get_process_group self pgid).
Proof. unfold get_process_group. emits_auto. Qed.

Lemma get_process_group_details_reads self pgid :
  emits is_read (get_process_group_details self pgid).
Proof. unfold get_process_group_details. emits_auto. Qed.

Lemma get_suggested_position_reads self pgid :
  emits is_read (get_suggested_process_group_position self pgid).
Proof. unfold get_suggested_process_group_position. emits_auto. Qed.

Lemma get_update_request_status_reads self rid :
  emits is_read (get_update_request_status self rid).
Proof. unfold get_update_request_status. emits_auto. Qed.

Lemma get_registry_clients_reads self :
  emits is_read (get_registry_clients self).
Proof. unfold get_registry_clients. emits_auto. Qed.

Lemma get_buckets_reads self : emits is_read (get_buckets self).
Proof. unfold get_buckets. emits_auto. Qed.

Lemma get_flows_reads self b : emits is_read (get_flows self b).
Proof. unfold get_flows. emits_auto. Qed.

Lemma resume_reads self g : emits is_read (resume self g).
Proof.
  unfold resume. emits_auto; apply get_process_group_reads.
Qed.

Lemma next_match_reads fuel self target :
  forall g, emits is_read (next_match fuel self target g).
Proof.
  induction fuel as [|fuel IH]; intros g; cbn [next_match]; [emits_auto|].
  apply emits_bind; [apply resume_reads|]. intros [[pg|] g']; emits_auto.
  apply IH.
Qed.
(* ------------------------------------------------------------------ *)
(** ** Version-change driver *)

Lemma print_run args st :
  print args st = (Ok tt, after st (world st) [EPrint args]).
Proof. reflexivity. Qed.

Lemma time_monotonic_run st t w :
  monotonic (world st) = (t, w) ->
  time_monotonic st = (Ok t, after st w [EClock t]).
Proof. intros H. unfold time_monotonic. now rewrite H. Qed.

Lemma time_sleep_run d st :
  time_sleep d st = (Ok tt, after st (sleep d (world st)) [ESleep d]).
Proof. reflexivity. Qed.

Lemma poll_complete fuel self update_request start_time timeout status st c :
  getpath status ["request"; "complete"] = ok c -> truthy c = true ->
  poll (S fuel) self update_request start_time timeout status st
  = (Ok status, st).
Proof.
  intros Hc Ht. cbn [poll]. rewrite (bind_lift_ok _ _ _ _ Hc), Ht. reflexivity.
Qed.

Lemma poll_timeout fuel self update_request start_time timeout status st
      c progress t w :
  getpath status ["request"; "complete"] = ok c -> truthy c = false ->
  getpath status ["request"; "percentCompleted"] = ok progress ->
  monotonic (world st) = (t, w) ->
  Qgtb (t - start_time) timeout = true ->
  poll (S fuel) self update_request start_time timeout status st
  = (Ok status, after st w [progress_line progress; EClock t]).
Proof.
  intros Hc Ht Hp Hm Hq. cbn [poll].
  rewrite (bind_lift_ok _ _ _ _ Hc), Ht. cbn [negb].
  rewrite (bind_lift_ok _ _ _ _ Hp).
  rewrite (bind_Ok _ _ _ _ _ (print_run _ _)).
  erewrite bind_Ok by (apply time_monotonic_run; exact Hm).
  rewrite Hq. unfold ret. now rewrite after_after.
Qed.

Lemma poll_again fuel self update_request start_time timeout status st
      c progress t w rid r status' w' :
  authenticated self = true ->
  getpath status ["request"; "complete"] = ok c -> truthy c = false ->
  getpath status ["request"; "percentCompleted"] = ok progress ->
  monotonic (world st) = (t, w) ->
  Qgtb (t - start_time) timeout = false ->
  getpath update_request ["request"; "requestId"] = ok (JStr rid) ->
  replies (status_request self rid) (sleep (5 # 100) w) r status' w' ->
  poll (S fuel) self update_request start_time timeout status st
  = poll fuel self update_request start_time timeout status'
      (after st w' [progress_line progress; EClock t; ESleep (5 # 100);
                    EHttp (status_request self rid) (Some r)]).
Proof.
  intros Ha Hc Ht Hp Hm Hq Hid Hr. cbn [poll].
  rewrite (bind_lift_ok _ _ _ _ Hc), Ht. cbn [negb].
  rewrite (bind_lift_ok _ _ _ _ Hp).
  rewrite (bind_Ok _ _ _ _ _ (print_run _ _)).
  erewrite bind_Ok by (apply time_monotonic_run; exact Hm).
  rewrite Hq.
  rewrite (bind_Ok _ _ _ _ _ (time_sleep_run _ _)).
  rewrite (bind_lift_ok _ _ _ _ Hid).
  erewrite bind_Ok
    by (apply get_update_request_status_replies; [exact Ha | exact Hr]).
  now rewrite !after_after.
Qed.

(** The driver up to its loop: the details are read, the change of
    version is requested with the revision just read, the clock is read
    and the status is fetched a first time. *)
Lemma update_process_group_begins fuel self p version timeout st
      r1 details w1 id binding old rev r2 update_request w2 t0 w3 rid
      r3 status w4 :
  authenticated self = true ->
  replies (details_request self p) (world st) r1 details w1 ->
  getitem details "id" = ok id ->
  getpath details ["component"; "versionControlInformation"]
  = ok (JObj binding) ->
  dict_get binding "version" = Some old ->
  getitem details "revision" = ok rev ->
  replies (change_request self p rev
             (JObj (dict_set binding "version" (JNum version))))
          w1 r2 update_request w2 ->
  monotonic w2 = (t0, w3) ->
  getpath update_request ["request"; "requestId"] = ok (JStr rid) ->
  replies (status_request self rid) w3 r3 status w4 ->
  update_process_group fuel self (JStr p) version timeout st
  = bind (poll fuel self update_request t0 timeout status)
      (fun request_status =>
       bind (lift (getpath request_status ["request"; "complete"]))
         (fun complete =>
          bind (if negb (truthy complete)
                then bind (lift (concat "Change Version: Upgrade timed out "
                                   request_status))
                       (fun msg => raise (NifiError msg))
                else ret tt)
            (fun _ => bind (print [[Lit "Upgrade Progress: Done"]])
                        (fun _ => ret (JStr p)))))
      (after st w4
         [EHttp (details_request self p) (Some r1);
          upgrading_line id old version;
          EHttp (change_request self p rev
                   (JObj (dict_set binding "version" (JNum version))))
                (Some r2);
          EClock t0; starting_line;
          EHttp (status_request self rid) (Some r3)]).
Proof.
  intros Ha H1 Hid Hb Hold Hrev H2 Ht0 Hrid H3.
  unfold update_process_group.
  erewrite bind_Ok
    by (apply get_process_group_details_replies; [exact Ha | exact H1]).
  rewrite (bind_lift_ok _ _ _ _ Hid).
  assert (Hv : getpath details
                 ["component"; "versionControlInformation"; "version"]
               = ok old).
  { cbn [getpath] in Hb |- *. unfold rbind in *.
    destruct (getitem details "component") as [x|]; [|discriminate].
    destruct (getitem x "versionControlInformation") as [y|]; [|discriminate].
    injection Hb as ->. cbn. now rewrite Hold. }
  rewrite (bind_lift_ok _ _ _ _ Hv).
  rewrite (bind_Ok _ _ _ _ _ (print_run _ _)).
  rewrite (bind_lift_ok _ _ _ _ Hrev).
  rewrite (bind_lift_ok _ _ _ _ Hb).
  cbn [setitem]. erewrite bind_lift_ok by reflexivity.
  erewrite bind_Ok
    by (apply create_version_change_request_replies; [exact Ha | exact H2]).
  erewrite bind_Ok by (apply time_monotonic_run; exact Ht0).
  rewrite (bind_Ok _ _ _ _ _ (print_run _ _)).
  rewrite (bind_lift_ok _ _ _ _ Hrid).
  erewrite bind_Ok
    by (apply get_update_request_status_replies; [exact Ha | exact H3]).
  now rewrite !after_after.
Qed.
(** C4.  The driver on the status sequence (not complete, 10%), (not
    complete, 55%), (complete, 100%), with the timeout of 30 seconds and a
    clock that has not advanced beyond it at either check: it prints the
    progress 10, then 55, then [Done], and returns the group id it was
    given. *)
Theorem upgrade_reports_progress_then_done
  (fuel : nat) (self : NifiClient) (p : string) (version : Z) (st : state)
  (r1 r2 r3 r4 r5 : response) (details id old rev update_request : json)
  (binding : list (string * json)) (rid : string) (s1 s2 s3 : json)
  (t0 t1 t2 : Q) (w1 w2 w3 w4 w5 w6 w7 w8 : World) :
  (3 <= fuel)%nat ->
  authenticated self = true ->
  replies (details_request self p) (world st) r1 details w1 ->
  getitem details "id" = ok id ->
  getpath details ["component"; "versionControlInformation"]
  = ok (JObj binding) ->
  dict_get binding "version" = Some old ->
  getitem details "revision" = ok rev ->
  replies (change_request self p rev
             (JObj (dict_set binding "version" (JNum version))))
          w1 r2 update_request w2 ->
  monotonic w2 = (t0, w3) ->
  getpath update_request ["request"; "requestId"] = ok (JStr rid) ->
  replies (status_request self rid) w3 r3 s1 w4 ->
  getpath s1 ["request"; "complete"] = ok (JBool false) ->
  getpath s1 ["request"; "percentCompleted"] = ok (JNum 10) ->
  monotonic w4 = (t1, w5) -> (t1 - t0 <= 30)%Q ->
  replies (status_request self rid) (sleep (5 # 100) w5) r4 s2 w6 ->
  getpath s2 ["request"; "complete"] = ok (JBool false) ->
  getpath s2 ["request"; "percentCompleted"] = ok (JNum 55) ->
  monotonic w6 = (t2, w7) -> (t2 - t0 <= 30)%Q ->
  replies (status_request self rid) (sleep (5 # 100) w7) r5 s3 w8 ->
  getpath s3 ["request"; "complete"] = ok (JBool true) ->
  update_process_group fuel self (JStr p) version 30 st
  = (Ok (JStr p),
     after st w8
       [EHttp (details_request self p) (Some r1);
        upgrading_line id old version;
        EHttp (change_request self p rev
                 (JObj (dict_set binding "version" (JNum version))))
              (Some r2);
        EClock t0; starting_line;
        EHttp (status_request self rid) (Some r3);
        progress_line (JNum 10); EClock t1; ESleep (5 # 100);
        EHttp (status_request self rid) (Some r4);
        progress_line (JNum 55); EClock t2; ESleep (5 # 100);
        EHttp (status_request self rid) (Some r5);
        done_line]).
Proof.
  intros Hfuel Ha H1 Hid Hb Hold Hrev H2 Ht0 Hrid H3 Hc1 Hp1 Ht1 Hq1
    H4 Hc2 Hp2 Ht2 Hq2 H5 Hc3.
  destruct fuel as [|[|[|fuel]]]; try lia.
  rewrite (update_process_group_begins _ _ _ _ _ _ _ _ _ _ _ _ _ _ _ _ _ _ _
             _ _ _ Ha H1 Hid Hb Hold Hrev H2 Ht0 Hrid H3).
  assert (Hle : forall t, (t - t0 <= 30)%Q -> Qgtb (t - t0) 30 = false).
  { intros t Ht. unfold Qgtb. apply Qle_bool_iff in Ht. now rewrite Ht. }
  erewrite bind_Ok.
  2:{ erewrite poll_again; try eassumption; try reflexivity; [|now apply Hle].
      erewrite poll_again; try eassumption; try reflexivity; [|now apply Hle].
      eapply poll_complete; [eassumption | reflexivity]. }
  rewrite (bind_lift_ok _ _ _ _ Hc3). cbn [truthy negb].
  unfold bind at 1. unfold ret at 1.
  rewrite (bind_Ok _ _ _ _ _ (print_run _ _)).
  unfold ret. now rewrite !after_after.
Qed.
Lemma getpath_dict v k ks x :
  getpath v (k :: ks) = ok x -> exists d, v = JObj d.
Proof.
  destruct v; cbn; try discriminate. intros _. now eexists.
Qed.

(** When the time is out at a check of the loop, the driver leaves the
    loop with the status it has, fetches nothing more, and fails while
    building the message of its error: the status is a dict, and a dict
    cannot be appended to a text. *)
Lemma timed_out_driver_fails_on_message
  (fuel : nat) (self : NifiClient) (p : string) (version : Z) (timeout : Q)
  (st : state) (r1 r2 r3 : response)
  (details id old rev update_request : json)
  (binding : list (string * json)) (rid : string) (s1 c progress : json)
  (t0 t1 : Q) (w1 w2 w3 w4 w5 : World) :
  (1 <= fuel)%nat ->
  authenticated self = true ->
  replies (details_request self p) (world st) r1 details w1 ->
  getitem details "id" = ok id ->
  getpath details ["component"; "versionControlInformation"]
  = ok (JObj binding) ->
  dict_get binding "version" = Some old ->
  getitem details "revision" = ok rev ->
  replies (change_request self p rev
             (JObj (dict_set binding "version" (JNum version))))
          w1 r2 update_request w2 ->
  monotonic w2 = (t0, w3) ->
  getpath update_request ["request"; "requestId"] = ok (JStr rid) ->
  replies (status_request self rid) w3 r3 s1 w4 ->
  getpath s1 ["request"; "complete"] = ok c -> truthy c = false ->
  getpath s1 ["request"; "percentCompleted"] = ok progress ->
  monotonic w4 = (t1, w5) -> (timeout < t1 - t0)%Q ->
  update_process_group fuel self (JStr p) version timeout st
  = (Raise (TypeError "can only concatenate str to str" TDict),
     after st w5
       [EHttp (details_request self p) (Some r1);
        upgrading_line id old version;
        EHttp (change_request self p rev
                 (JObj (dict_set binding "version" (JNum version))))
              (Some r2);
        EClock t0; starting_line;
        EHttp (status_request self rid) (Some r3);
        progress_line progress; EClock t1]).
Proof.
  intros Hfuel Ha H1 Hid Hb Hold Hrev H2 Ht0 Hrid H3 Hc Hf Hp Ht1 Hq.
  destruct fuel as [|fuel]; [lia|].
  rewrite (update_process_group_begins _ _ _ _ _ _ _ _ _ _ _ _ _ _ _ _ _ _ _
             _ _ _ Ha H1 Hid Hb Hold Hrev H2 Ht0 Hrid H3).
  erewrite bind_Ok.
  2:{ eapply poll_timeout; try eassumption.
      unfold Qgtb. destruct (Qle_bool (t1 - t0) timeout) eqn:E; [|reflexivity].
      apply Qle_bool_iff in E. exfalso. eapply Qlt_not_le; eassumption. }
  rewrite (bind_lift_ok _ _ _ _ Hc), Hf. cbn [negb].
  destruct (getpath_dict _ _ _ _ Hc) as [d ->]. cbn [concat lift type_of].
  unfold bind, raise. now rewrite !after_after.
Qed.
(* ------------------------------------------------------------------ *)
(** ** Which requests each part of the program makes *)

Lemma emits_weaken (P Q : event -> Prop) {A} (m : M A) :
  (forall e, P e -> Q e) -> emits P m -> emits Q m.
Proof.
  intros H Hm st. destruct (Hm st) as (evs & Hl & Hp). exists evs.
  split; [exact Hl|]. eapply Forall_impl; eassumption.
Qed.

Lemma fetches_group_is_read self e : fetches_group self e -> is_read e.
Proof. destruct e; cbn; trivial. now intros [p ->]. Qed.

Lemma driver_call_one_mutation self e :
  driver_call self e ->
  mutatingb e = true -> exists p rev vi rs, e = EHttp (change_request self p rev vi) rs.
Proof.
  destruct e as [rq rs| | |]; cbn; try discriminate.
  intros [[p ->]|[(p & rev & vi & ->)|[rid ->]]]; cbn; try discriminate.
  intros _. now exists p, rev, vi, rs.
Qed.

Lemma mutating_reads evs : Forall is_read evs -> mutating evs = [].
Proof.
  induction 1 as [|e evs He _ IH]; [reflexivity|]. cbn.
  destruct e as [rq rs| | |]; cbn in *; try exact IH. now rewrite He.
Qed.

Lemma mutating_app evs evs' : mutating (evs ++ evs') = mutating evs ++ mutating evs'.
Proof. apply filter_app. Qed.

Lemma get_process_group_fetches self pgid :
  emits (fetches_group self) (get_process_group self pgid).
Proof.
  unfold get_process_group. apply emits_require_auth.
  destruct pgid; cbn [concat]; emits_auto. now eexists.
Qed.

Lemma resume_fetches self g : emits (fetches_group self) (resume self g).
Proof. unfold resume. emits_auto; apply get_process_group_fetches. Qed.

Lemma next_match_fetches fuel self target :
  forall g, emits (fetches_group self) (next_match fuel self target g).
Proof.
  induction fuel as [|fuel IH]; intros g; cbn [next_match]; [emits_auto|].
  apply emits_bind; [apply resume_fetches|]. intros [[pg|] g']; emits_auto.
  apply IH.
Qed.

Lemma get_process_group_details_calls self pgid :
  emits (driver_call self) (get_process_group_details self pgid).
Proof.
  unfold get_process_group_details. apply emits_require_auth.
  destruct pgid; cbn [concat]; emits_auto. left. now eexists.
Qed.

Lemma create_version_change_request_calls self pgid rev vi :
  emits (driver_call self) (create_version_change_request self pgid rev vi).
Proof.
  unfold create_version_change_request. apply emits_require_auth.
  destruct pgid; cbn [concat]; emits_auto. right; left. now eexists _, _, _.
Qed.

Lemma get_update_request_status_calls self rid :
  emits (driver_call self) (get_update_request_status self rid).
Proof.
  unfold get_update_request_status. apply emits_require_auth.
  destruct rid; cbn [concat]; emits_auto. right; right. now eexists.
Qed.

Lemma poll_calls fuel self update_request start_time timeout :
  forall status,
    emits (driver_call self)
      (poll fuel self update_request start_time timeout status).
Proof.
  induction fuel as [|fuel IH]; intros status; cbn [poll]; emits_auto.
  - apply get_update_request_status_calls.
  - apply IH.
Qed.

Lemma update_process_group_calls fuel self pgid version timeout :
  emits (driver_call self)
    (update_process_group fuel self pgid version timeout).
Proof.
  unfold update_process_group. emits_auto;
    first [ apply get_process_group_details_calls
          | apply create_version_change_request_calls
          | apply get_update_request_status_calls
          | apply poll_calls ].
Qed.
(* ------------------------------------------------------------------ *)
(** ** The revision a mutating call carries *)

Lemma dict_set_same d k v : dict_get (dict_set d k v) k = Some v.
Proof.
  induction d as [|[k' v'] d IH]; cbn.
  - now rewrite String.eqb_refl.
  - destruct (String.eqb k' k) eqn:E; cbn; rewrite E; [reflexivity | exact IH].
Qed.

Lemma dict_set_other d k v k' :
  k' <> k -> dict_get (dict_set d k v) k' = dict_get d k'.
Proof.
  intros Hne. induction d as [|[k0 v0] d IH]; cbn.
  - apply String.eqb_neq in Hne. rewrite String.eqb_sym. now rewrite Hne.
  - destruct (String.eqb k0 k) eqn:E; cbn.
    + apply String.eqb_eq in E. subst k0.
      apply String.eqb_neq in Hne. rewrite String.eqb_sym. now rewrite Hne.
    + now rewrite IH.
Qed.

Lemma dict_set_keys d k v old :
  dict_get d k = Some old -> map fst (dict_set d k v) = map fst d.
Proof.
  induction d as [|[k0 v0] d IH]; cbn; [discriminate|].
  destruct (String.eqb k0 k) eqn:E; cbn; [reflexivity|].
  intros H. now rewrite IH.
Qed.

Lemma bind_bind_lift_ok {A B C} (u : A) (f : A -> M B) (K : B -> M C) st :
  bind (bind (lift (ok u)) f) K st = bind (f u) K st.
Proof. reflexivity. Qed.

Lemma poll_reads fuel self update_request start_time timeout :
  forall status,
    emits is_read (poll fuel self update_request start_time timeout status).
Proof.
  induction fuel as [|fuel IH]; intros status; cbn [poll]; emits_auto.
  - apply get_update_request_status_reads.
  - apply IH.
Qed.

(** What follows a request in the log, whatever the answer is. *)
Lemma log_after_requests (P : event -> Prop) rq {A B}
  (f : response -> M A) (K : A -> M B) st :
  (forall r, emits P (bind (f r) K)) ->
  exists rs rest,
    log (snd (bind (bind (requests rq) f) K st))
    = log st ++ EHttp rq rs :: rest /\ Forall P rest.
Proof.
  intros H. unfold bind at 1 2. unfold requests.
  destruct (http rq (world st)) as [[r|] w].
  - destruct (H r {| world := w; log := log st ++ [EHttp rq (Some r)] |})
      as (rest & Hl & Hp).
    exists (Some r), rest. split; [|exact Hp].
    unfold bind in Hl. rewrite Hl. cbn [log]. now rewrite <- app_assoc.
  - exists None, []. cbn. split; [reflexivity | constructor].
Qed.

(** The driver: the change of version is requested with the revision of
    the details read just before it, and with the binding of these details
    in which the version alone is replaced; no other mutating call is
    made. *)
Lemma driver_sends_fresh_revision
  (fuel : nat) (self : NifiClient) (p : string) (version : Z) (timeout : Q)
  (st : state) (r1 : response) (details id old rev : json)
  (binding : list (string * json)) (w1 : World) :
  authenticated self = true ->
  replies (details_request self p) (world st) r1 details w1 ->
  getitem details "id" = ok id ->
  getpath details ["component"; "versionControlInformation"]
  = ok (JObj binding) ->
  dict_get binding "version" = Some old ->
  getitem details "revision" = ok rev ->
  exists rs rest,
    log (snd (update_process_group fuel self (JStr p) version timeout st))
    = log st ++
      [EHttp (details_request self p) (Some r1);
       upgrading_line id old version;
       EHttp (change_request self p rev
                (JObj (dict_set binding "version" (JNum version)))) rs]
      ++ rest /\
    Forall is_read rest.
Proof.
  intros Ha H1 Hid Hb Hold Hrev.
  unfold update_process_group.
  erewrite bind_Ok
    by (apply get_process_group_details_replies; [exact Ha | exact H1]).
  rewrite (bind_lift_ok _ _ _ _ Hid).
  assert (Hv : getpath details
                 ["component"; "versionControlInformation"; "version"]
               = ok old).
  { cbn [getpath] in Hb |- *. unfold rbind in *.
    destruct (getitem details "component") as [x|]; [|discriminate].
    destruct (getitem x "versionControlInformation") as [y|]; [|discriminate].
    injection Hb as ->. cbn. now rewrite Hold. }
  rewrite (bind_lift_ok _ _ _ _ Hv).
  rewrite (bind_Ok _ _ _ _ _ (print_run _ _)).
  rewrite (bind_lift_ok _ _ _ _ Hrev).
  rewrite (bind_lift_ok _ _ _ _ Hb).
  cbn [setitem]. erewrite bind_lift_ok by reflexivity.
  unfold create_version_change_request.
  rewrite require_auth_ok by assumption. cbv zeta. cbn [concat].
  rewrite bind_bind_lift_ok.
  match goal with
  | |- context [bind (bind (requests ?rq) ?f) ?K ?s] =>
      destruct (log_after_requests is_read rq f K s) as (rs & rest & Hl & Hp)
  end.
  - intros r. emits_auto;
      first [ apply get_update_request_status_reads | apply poll_reads ].
  - exists rs, rest. split; [|exact Hp].
    rewrite Hl. rewrite !after_after. cbn [after log].
    now rewrite <- app_assoc.
Qed.
(* ------------------------------------------------------------------ *)
(** ** Import executor *)

Lemma emits_nothing {A} (m : M A) st :
  emits (fun _ => False) m -> log (snd (m st)) = log st.
Proof.
  intros H. destruct (H st) as ([|e evs] & Hl & Hp).
  - now rewrite app_nil_r in Hl.
  - inversion Hp; contradiction.
Qed.

Lemma emits_log {A} (P : event -> Prop) (m : M A) st o st' :
  emits P m -> m st = (o, st') ->
  exists evs, log st' = log st ++ evs /\ Forall P evs.
Proof. intros H E. specialize (H st). now rewrite E in H. Qed.

Lemma default_registry_client_reads self registry_client :
  emits is_read (default_registry_client self registry_client).
Proof.
  unfold default_registry_client. emits_auto. apply get_registry_clients_reads.
Qed.

Lemma default_parent_pgid_reads self parent_pgid :
  emits is_read (default_parent_pgid self parent_pgid).
Proof.
  unfold default_parent_pgid. emits_auto. apply get_process_group_reads.
Qed.

Lemma default_position_reads self parent_pgid position :
  emits is_read (default_position self parent_pgid position).
Proof.
  unfold default_position. emits_auto. apply get_suggested_position_reads.
Qed.

(** The import up to the call that renames: the defaults are resolved by
    reading only, the group is created, and the rename is sent for the id
    and with the revision that the creation returned. *)
Lemma import_process_group_begins
  (self : NifiClient) (name : string) (bucket_id flow_id : json)
  (version : Z) (parent0 registry0 : json) (position0 : option (json * json))
  (st st1 st2 st3 : state) (registry_id x y details rev : json)
  (parent new_id : string) (r1 : response) (w4 : World) :
  authenticated self = true ->
  default_registry_client self registry0 st = (Ok registry_id, st1) ->
  default_parent_pgid self parent0 st1 = (Ok (JStr parent), st2) ->
  default_position self (JStr parent) position0 st2 = (Ok (x, y), st3) ->
  replies (create_request self parent registry_id bucket_id flow_id version
             x y) (world st3) r1 details w4 ->
  getitem details "id" = ok (JStr new_id) ->
  getitem details "revision" = ok rev ->
  import_process_group self name bucket_id flow_id version parent0 registry0
    position0 st
  = bind (change_process_group_name self (JStr new_id) name rev)
      (fun updated_process_group =>
         lift (getitem updated_process_group "id"))
      (after st3 w4
         [importing_line name version bucket_id flow_id registry_id
            (JStr parent);
          EHttp (create_request self parent registry_id bucket_id flow_id
                   version x y) (Some r1);
          imported_line]) /\
  exists pre, log st3 = log st ++ pre /\ Forall is_read pre.
Proof.
  intros Ha H1 H2 H3 Hc Hid Hrev. split.
  - unfold import_process_group.
    rewrite (bind_Ok _ _ _ _ _ H1), (bind_Ok _ _ _ _ _ H2),
      (bind_Ok _ _ _ _ _ H3).
    rewrite (bind_Ok _ _ _ _ _ (print_run _ _)).
    erewrite bind_Ok by (apply create_process_group_replies; [exact Ha | exact Hc]).
    rewrite (bind_Ok _ _ _ _ _ (print_run _ _)).
    rewrite (bind_lift_ok _ _ _ _ Hid), (bind_lift_ok _ _ _ _ Hrev).
    now rewrite !after_after.
  - destruct (emits_log _ _ _ _ _ (default_registry_client_reads _ _) H1)
      as (e1 & L1 & P1).
    destruct (emits_log _ _ _ _ _ (default_parent_pgid_reads _ _) H2)
      as (e2 & L2 & P2).
    destruct (emits_log _ _ _ _ _ (default_position_reads _ _ _) H3)
      as (e3 & L3 & P3).
    exists (e1 ++ e2 ++ e3). split.
    + now rewrite L3, L2, L1, <- !app_assoc.
    + now rewrite !Forall_app.
Qed.

(** C8.  The import executor, once its defaults are resolved (which takes
    reads only): it creates the child group under the resolved parent,
    bound to the registry, bucket, flow and version and at the position,
    then renames the group the creation returned, with the revision the
    creation returned; these are its two mutating calls, in this order; on
    success it returns the id of the renamed group as the rename reports
    it. *)
Theorem import_creates_then_renames
  (self : NifiClient) (name : string) (bucket_id flow_id : json)
  (version : Z) (parent0 registry0 : json) (position0 : option (json * json))
  (st st1 st2 st3 : state) (registry_id x y details rev updated id' : json)
  (parent new_id : string) (r1 r2 : response) (w4 w5 : World) :
  authenticated self = true ->
  default_registry_client self registry0 st = (Ok registry_id, st1) ->
  default_parent_pgid self parent0 st1 = (Ok (JStr parent), st2) ->
  default_position self (JStr parent) position0 st2 = (Ok (x, y), st3) ->
  replies (create_request self parent registry_id bucket_id flow_id version
             x y) (world st3) r1 details w4 ->
  getitem details "id" = ok (JStr new_id) ->
  getitem details "revision" = ok rev ->
  replies (rename_request self new_id name rev) w4 r2 updated w5 ->
  getitem updated "id" = ok id' ->
  exists pre,
    log st3 = log st ++ pre /\
    import_process_group self name bucket_id flow_id version parent0
      registry0 position0 st
    = (Ok id',
       after st3 w5
         [importing_line name version bucket_id flow_id registry_id
            (JStr parent);
          EHttp (create_request self parent registry_id bucket_id flow_id
                   version x y) (Some r1);
          imported_line;
          EHttp (rename_request self new_id name rev) (Some r2)]) /\
    mutating
      (pre ++
       [importing_line name version bucket_id flow_id registry_id
          (JStr parent);
        EHttp (create_request self parent registry_id bucket_id flow_id
                 version x y) (Some r1);
        imported_line;
        EHttp (rename_request self new_id name rev) (Some r2)])
    = [EHttp (create_request self parent registry_id bucket_id flow_id
                version x y) (Some r1);
       EHttp (rename_request self new_id name rev) (Some r2)].
Proof.
  intros Ha H1 H2 H3 Hc Hid Hrev Hr Hid'.
  destruct (import_process_group_begins self name bucket_id flow_id version
              parent0 registry0 position0 st st1 st2 st3 registry_id x y
              details rev parent new_id r1 w4 Ha H1 H2 H3 Hc Hid Hrev)
    as (Hrun & pre & Hpre & Hreads).
  exists pre. split; [exact Hpre|]. split.
  - rewrite Hrun.
    erewrite bind_Ok
      by (apply change_process_group_name_replies; [exact Ha | exact Hr]).
    rewrite Hid'. cbn [lift ok]. unfold ret. now rewrite !after_after.
  - rewrite mutating_app, (mutating_reads _ Hreads). reflexivity.
Qed.
(** C9.  Both mutating calls against an existing group carry the revision
    of the latest read of that group.  The driver sends the change of
    version right after it has read the details of the group, with the
    revision of these details and with their version-control binding in
    which the version, and nothing else, is replaced by the target
    version; every later request of the driver is a read.  The import
    sends the rename for the group that the creation returned, with the
    revision that the creation returned. *)
Theorem mutations_carry_latest_revision :
  (forall (fuel : nat) (self : NifiClient) (p : string) (version : Z)
          (timeout : Q) (st : state) (r1 : response)
          (details id old rev : json) (binding : list (string * json))
          (w1 : World),
      authenticated self = true ->
      replies (details_request self p) (world st) r1 details w1 ->
      getitem details "id" = ok id ->
      getpath details ["component"; "versionControlInformation"]
      = ok (JObj binding) ->
      dict_get binding "version" = Some old ->
      getitem details "revision" = ok rev ->
      let binding' := dict_set binding "version" (JNum version) in
      (exists rs rest,
          log (snd (update_process_group fuel self (JStr p) version timeout
                      st))
          = log st ++
            [EHttp (details_request self p) (Some r1);
             upgrading_line id old version;
             EHttp (change_request self p rev (JObj binding')) rs]
            ++ rest /\
          Forall is_read rest) /\
      dict_get binding' "version" = Some (JNum version) /\
      (forall k, k <> "version" -> dict_get binding' k = dict_get binding k) /\
      map fst binding' = map fst binding) /\
  (forall (self : NifiClient) (name : string) (bucket_id flow_id : json)
          (version : Z) (parent0 registry0 : json)
          (position0 : option (json * json)) (st st1 st2 st3 : state)
          (registry_id x y details rev : json) (parent new_id : string)
          (r1 : response) (w4 : World),
      authenticated self = true ->
      default_registry_client self registry0 st = (Ok registry_id, st1) ->
      default_parent_pgid self parent0 st1 = (Ok (JStr parent), st2) ->
      default_position self (JStr parent) position0 st2 = (Ok (x, y), st3) ->
      replies (create_request self parent registry_id bucket_id flow_id
                 version x y) (world st3) r1 details w4 ->
      getitem details "id" = ok (JStr new_id) ->
      getitem details "revision" = ok rev ->
      exists rs,
        log (snd (import_process_group self name bucket_id flow_id version
                    parent0 registry0 position0 st))
        = log st3 ++
          [importing_line name version bucket_id flow_id registry_id
             (JStr parent);
           EHttp (create_request self parent registry_id bucket_id flow_id
                    version x y) (Some r1);
           imported_line;
           EHttp (rename_request self new_id name rev) rs]).
Proof.
  split.
  - intros fuel self p version timeout st r1 details id old rev binding w1
      Ha H1 Hid Hb Hold Hrev binding'. repeat split.
    + eapply driver_sends_fresh_revision; eassumption.
    + apply dict_set_same.
    + intros k Hk. now apply dict_set_other.
    + eapply dict_set_keys; eassumption.
  - intros self name bucket_id flow_id version parent0 registry0 position0
      st st1 st2 st3 registry_id x y details rev parent new_id r1 w4
      Ha H1 H2 H3 Hc Hid Hrev.
    destruct (import_process_group_begins self name bucket_id flow_id version
                parent0 registry0 position0 st st1 st2 st3 registry_id x y
                details rev parent new_id r1 w4 Ha H1 H2 H3 Hc Hid Hrev)
      as (Hrun & _).
    rewrite Hrun. unfold change_process_group_name.
    rewrite require_auth_ok by assumption. cbv zeta. cbn [concat].
    rewrite bind_bind_lift_ok.
    match goal with
    | |- context [bind (bind (requests ?rq) ?f) ?K ?s] =>
        destruct (log_after_requests (fun _ => False) rq f K s)
          as (rs & rest & Hl & Hp)
    end.
    + intros r. emits_auto.
    + exists rs. rewrite Hl. destruct rest as [|e rest];
        [|inversion Hp; contradiction].
      cbn [after log]. now rewrite <- app_assoc.
Qed.
(* ------------------------------------------------------------------ *)
(** ** Reconciliation: upgrade or import *)

(** A group whose display name can be read is a non-empty dict: it is
    true, where [None] is false. *)
Lemma named_group_is_true g v :
  getpath g breadcrumb_name = ok v -> truthy g = true.
Proof.
  destruct g as [| | | | |[|kv d]]; cbn; try discriminate. reflexivity.
Qed.

(** [do_execute] up to its decision: the root is fetched, then the tree
    is searched for the target name. *)
Lemma do_execute_decides fuel nifi registry_c args st r0 root root_id w1
      target_group st2 :
  authenticated nifi = true ->
  replies (group_request nifi "root") (world st) r0 root w1 ->
  getpath root ["processGroupFlow"; "id"] = ok root_id ->
  next_match fuel nifi (process_group_name args)
    (traverse_process_groups root_id)
    (after st w1 [EHttp (group_request nifi "root") (Some r0)])
  = (Ok target_group, st2) ->
  do_execute fuel nifi registry_c args st
  = (if negb (truthy target_group)
     then do_import fuel nifi registry_c args root_id
     else bind (lift (getpath target_group ["processGroupFlow"; "id"]))
            (fun pgid =>
               bind (update_process_group fuel nifi pgid (version args) 30)
                 (fun _ => ret tt))) st2 /\
  exists evs,
    log st2 = log st ++ EHttp (group_request nifi "root") (Some r0) :: evs /\
    Forall (fetches_group nifi) evs.
Proof.
  intros Ha Hroot Hid Hfind. split.
  - unfold do_execute. cbv zeta.
    erewrite bind_Ok by (apply get_process_group_replies; [exact Ha | exact Hroot]).
    rewrite (bind_lift_ok _ _ _ _ Hid).
    now rewrite (bind_Ok _ _ _ _ _ Hfind).
  - destruct (emits_log _ _ _ _ _ (next_match_fetches _ _ _ _) Hfind)
      as (evs & Hl & Hp).
    exists evs. split; [|exact Hp]. rewrite Hl. cbn [after log].
    now rewrite <- app_assoc.
Qed.

(** C1.  When the traversal finds a group whose display name is the
    target name, the run continues as one call of the version-change
    driver on the id of the found group and the target version, and as
    nothing else: whatever the registry client and the bucket, flow,
    registry and parent arguments are.  Up to that call the run has only
    fetched groups; the driver itself only reads details, requests the
    change and polls its status. *)
Theorem existing_group_is_upgraded
  (fuel : nat) (nifi : NifiClient) (name : string) (target_version : Z)
  (st st2 : state) (r0 : response) (root root_id found pgid : json)
  (w1 : World) :
  authenticated nifi = true ->
  replies (group_request nifi "root") (world st) r0 root w1 ->
  getpath root ["processGroupFlow"; "id"] = ok root_id ->
  next_match fuel nifi name (traverse_process_groups root_id)
    (after st w1 [EHttp (group_request nifi "root") (Some r0)])
  = (Ok found, st2) ->
  getpath found breadcrumb_name = ok (JStr name) ->
  getpath found ["processGroupFlow"; "id"] = ok pgid ->
  (forall (registry_c : RegistryClient) (args : Args),
      process_group_name args = name -> version args = target_version ->
      do_execute fuel nifi registry_c args st
      = bind (update_process_group fuel nifi pgid target_version 30)
          (fun _ => ret tt) st2) /\
  (exists evs,
      log st2 = log st ++ EHttp (group_request nifi "root") (Some r0) :: evs /\
      Forall (fetches_group nifi) evs) /\
  emits (driver_call nifi)
    (update_process_group fuel nifi pgid target_version 30).
Proof.
  intros Ha Hroot Hid Hfind Hname Hpgid. repeat split.
  - intros registry_c args <- <-.
    destruct (do_execute_decides fuel nifi registry_c args st r0 root root_id
                w1 found st2 Ha Hroot Hid Hfind) as [-> _].
    rewrite (named_group_is_true _ _ Hname). cbn [negb].
    now rewrite (bind_lift_ok _ _ _ _ Hpgid).
  - destruct (emits_log _ _ _ _ _ (next_match_fetches _ _ _ _) Hfind)
      as (evs & Hl & Hp).
    exists evs. split; [|exact Hp]. rewrite Hl. cbn [after log].
    now rewrite <- app_assoc.
  - apply update_process_group_calls.
Qed.

(** C6.  When no group has the target name and the bucket or the flow
    argument is missing, the run ends with the configuration error right
    after the search: nothing is asked of the registry, nothing is created
    or renamed; all the run has done is fetch groups. *)
Theorem import_needs_bucket_and_flow
  (fuel : nat) (nifi : NifiClient) (registry_c : RegistryClient)
  (args : Args) (st st2 : state) (r0 : response) (root root_id : json)
  (w1 : World) :
  authenticated nifi = true ->
  replies (group_request nifi "root") (world st) r0 root w1 ->
  getpath root ["processGroupFlow"; "id"] = ok root_id ->
  next_match fuel nifi (process_group_name args)
    (traverse_process_groups root_id)
    (after st w1 [EHttp (group_request nifi "root") (Some r0)])
  = (Ok JNull, st2) ->
  truthy_arg (bucket args) = false \/ truthy_arg (flow args) = false ->
  do_execute fuel nifi registry_c args st
  = (Raise (NifiError
              "Importing Process Group needs --bucket and --flow defined"),
     st2) /\
  exists evs,
    log st2 = log st ++ evs /\
    Forall (fetches_group nifi) evs /\
    mutating evs = [].
Proof.
  intros Ha Hroot Hid Hfind Hmissing.
  destruct (do_execute_decides fuel nifi registry_c args st r0 root root_id
              w1 JNull st2 Ha Hroot Hid Hfind) as [-> (evs & Hl & Hp)].
  split.
  - cbn [truthy negb]. unfold do_import, require_bucket_and_flow.
    destruct Hmissing as [-> | ->]; cbn [negb orb]; [reflexivity|].
    rewrite orb_true_r. reflexivity.
  - exists (EHttp (group_request nifi "root") (Some r0) :: evs).
    assert (Hall : Forall (fetches_group nifi)
                     (EHttp (group_request nifi "root") (Some r0) :: evs))
      by (constructor; [now exists "root" | exact Hp]).
    repeat split; [exact Hl | exact Hall |].
    apply mutating_reads. eapply Forall_impl; [|exact Hall].
    apply fetches_group_is_read.
Qed.

(** C10.  The root group is the first group the traversal yields, and so
    a candidate of the search: when its display name is the target name,
    the run continues as the version-change driver on its id, whatever the
    import arguments are (none is needed). *)
Theorem root_is_a_candidate
  (fuel : nat) (nifi : NifiClient) (name : string) (target_version : Z)
  (st : state) (r0 r1 : response) (root found pgid : json) (root_id : string)
  (w1 w2 : World) :
  (1 <= fuel)%nat ->
  authenticated nifi = true ->
  replies (group_request nifi "root") (world st) r0 root w1 ->
  getpath root ["processGroupFlow"; "id"] = ok (JStr root_id) ->
  replies (group_request nifi root_id) w1 r1 found w2 ->
  getpath found breadcrumb_name = ok (JStr name) ->
  getpath found ["processGroupFlow"; "id"] = ok pgid ->
  let st1 := after st w1 [EHttp (group_request nifi "root") (Some r0)] in
  let st2 := after st w2 [EHttp (group_request nifi "root") (Some r0);
                          EHttp (group_request nifi root_id) (Some r1)] in
  resume nifi (traverse_process_groups (JStr root_id)) st1
  = (Ok (Some found, {| curr := []; yielded := Some found |}), st2) /\
  (forall (registry_c : RegistryClient) (args : Args),
      process_group_name args = name -> version args = target_version ->
      do_execute fuel nifi registry_c args st
      = bind (update_process_group fuel nifi pgid target_version 30)
          (fun _ => ret tt) st2).
Proof.
  intros Hfuel Ha Hroot Hid Hfetch Hname Hpgid st1 st2.
  assert (Hres : resume nifi (traverse_process_groups (JStr root_id)) st1
                 = (Ok (Some found, {| curr := []; yielded := Some found |}),
                    st2)).
  { unfold resume, traverse_process_groups. cbn [yielded curr].
    unfold bind at 1. cbn [ret].
    erewrite bind_Ok
      by (apply get_process_group_replies; [exact Ha | exact Hfetch]).
    unfold ret, st1, st2. now rewrite after_after. }
  split; [exact Hres|].
  intros registry_c args <- <-.
  destruct fuel as [|fuel]; [lia|].
  assert (Hfind : next_match (S fuel) nifi (process_group_name args)
                    (traverse_process_groups (JStr root_id)) st1
                  = (Ok found, st2)).
  { cbn [next_match]. rewrite (bind_Ok _ _ _ _ _ Hres).
    rewrite (bind_lift_ok _ _ _ _ Hname). cbn [eq_str].
    now rewrite String.eqb_refl. }
  destruct (do_execute_decides (S fuel) nifi registry_c args st r0 root
              (JStr root_id) w1 found st2 Ha Hroot Hid Hfind) as [-> _].
  rewrite (named_group_is_true _ _ Hname). cbn [negb].
  now rewrite (bind_lift_ok _ _ _ _ Hpgid).
Qed.
(* ------------------------------------------------------------------ *)
(** ** Resolution of the registry connection *)

Lemma getpath_truthy v k ks x : getpath v (k :: ks) = ok x -> truthy v = true.
Proof.
  destruct v as [| | | | |[|kv d]]; cbn; try discriminate. reflexivity.
Qed.

Lemma next_named_none field target items :
  Forall (other_name field target) items ->
  next_named field target items = ok JNull.
Proof.
  induction 1 as [|c items (v & Hv & Hne) _ IH]; [reflexivity|].
  cbn [next_named]. rewrite Hv. cbn [rbind ok]. now rewrite Hne.
Qed.

Lemma next_named_first field target before c rest :
  Forall (other_name field target) before ->
  getpath c field = ok (JStr target) ->
  next_named field target (before ++ c :: rest) = ok c.
Proof.
  intros Hb Hc. induction Hb as [|c0 before (v & Hv & Hne) _ IH].
  - cbn [app next_named]. rewrite Hc. cbn [rbind ok eq_str].
    now rewrite String.eqb_refl.
  - cbn [app next_named]. rewrite Hv. cbn [rbind ok]. now rewrite Hne.
Qed.

(** C7.  The registry connection of an import.  With a registry name, the
    configured connections are searched for the first one of exactly that
    name: its id is the registry of the import, and the run ends with a
    fatal error when no connection has the name.  Without a registry name,
    nothing is resolved at that point and the import executor asks for the
    configured connections itself: it takes the id of the only one, and
    ends with a fatal error when there is none or more than one. *)
Theorem registry_connection_is_resolved
  (nifi : NifiClient) (args : Args) (st : state) (r : response)
  (clients : json) (registries : list json) (w1 : World) :
  authenticated nifi = true ->
  replies (clients_request nifi) (world st) r clients w1 ->
  getitem clients "registries" = ok (JArr registries) ->
  let st1 := after st w1 [EHttp (clients_request nifi) (Some r)] in
  (forall name,
      registry args = Some name -> name <> EmptyString ->
      (Forall (other_name ["component"; "name"] name) registries ->
       find_registry nifi args st
       = (Raise (NifiError ("Registry Client " +++ name +++
                            " does not exist")), st1)) /\
      (forall before c rest id,
          registries = before ++ c :: rest ->
          Forall (other_name ["component"; "name"] name) before ->
          getpath c ["component"; "name"] = ok (JStr name) ->
          getitem c "id" = ok id ->
          find_registry nifi args st = (Ok id, st1) /\
          (truthy id = true ->
           forall st', default_registry_client nifi id st' = (Ok id, st')))) /\
  (truthy_arg (registry args) = false ->
   find_registry nifi args st = (Ok JNull, st) /\
   (forall c id,
       registries = [c] -> getitem c "id" = ok id ->
       default_registry_client nifi JNull st = (Ok id, st1)) /\
   (List.length registries <> 1%nat ->
    default_registry_client nifi JNull st
    = (Raise (NifiError "Import Process Group: must provide registry client if clients are not unique."),
       st1))).
Proof.
  intros Ha Hr Hregs st1. split.
  - intros name Hname Hne.
    assert (Hgiven : truthy_arg (registry args) = true).
    { rewrite Hname. cbn. apply String.eqb_neq in Hne. now rewrite Hne. }
    split.
    + intros Hnone. unfold find_registry. rewrite Hgiven.
      erewrite bind_Ok
        by (apply get_registry_clients_replies; [exact Ha | exact Hr]).
      rewrite (bind_lift_ok _ _ _ _ Hregs). cbn [iter].
      erewrite bind_lift_ok by reflexivity.
      rewrite Hname. cbn [arg_text].
      rewrite (bind_lift_ok _ _ _ _ (next_named_none _ _ _ Hnone)).
      reflexivity.
    + intros before c rest id -> Hbefore Hc Hid. split.
      * unfold find_registry. rewrite Hgiven.
        erewrite bind_Ok
          by (apply get_registry_clients_replies; [exact Ha | exact Hr]).
        rewrite (bind_lift_ok _ _ _ _ Hregs). cbn [iter].
        erewrite bind_lift_ok by reflexivity.
        rewrite Hname. cbn [arg_text].
        rewrite (bind_lift_ok _ _ _ _ (next_named_first _ _ _ _ _ Hbefore Hc)).
        rewrite (getpath_truthy _ _ _ _ Hc). cbn [negb].
        now rewrite Hid.
      * intros Hid' st'. unfold default_registry_client. now rewrite Hid'.
  - intros Homitted. split; [|split].
    + unfold find_registry. now rewrite Homitted.
    + intros c id -> Hid. unfold default_registry_client. cbn [truthy negb].
      erewrite bind_Ok
        by (apply get_registry_clients_replies; [exact Ha | exact Hr]).
      rewrite (bind_lift_ok _ _ _ _ Hregs). cbn [len List.length].
      erewrite bind_lift_ok by reflexivity.
      change (negb (Z.of_nat 1 =? 1)) with false. cbv iota. cbn [getitem0].
      erewrite bind_lift_ok by reflexivity. now rewrite Hid.
    + intros Hlen. unfold default_registry_client. cbn [truthy negb].
      erewrite bind_Ok
        by (apply get_registry_clients_replies; [exact Ha | exact Hr]).
      rewrite (bind_lift_ok _ _ _ _ Hregs). cbn [len].
      erewrite bind_lift_ok by reflexivity.
      destruct (Z.eqb_spec (Z.of_nat (List.length registries)) 1) as [E|E];
        [lia|]. reflexivity.
Qed.
(* ------------------------------------------------------------------ *)
(** ** The guard and the errors of the client methods *)

(** X1.  A client of the flow server that is neither insecure nor holds a
    token: each of its methods raises the error that names the method,
    and sends nothing; a run of [do_execute] with it ends with the error of
    its first call, [get_process_group], before any request. *)
Theorem nifi_methods_require_authentication
  (self : NifiClient) (st : state) :
  insecure self = false ->
  truthy_arg (token self) = false ->
  (forall pgid,
      get_process_group_details self pgid st
      = (Raise (needs_authentication "NifiClient"
                  "NifiClient.get_process_group_details"), st)) /\
  (forall pgid,
      get_process_group self pgid st
      = (Raise (needs_authentication "NifiClient"
                  "NifiClient.get_process_group"), st)) /\
  (forall pgid,
      get_suggested_process_group_position self pgid st
      = (Raise (needs_authentication "NifiClient"
                  "NifiClient.get_suggested_process_group_position"), st)) /\
  (forall pgid revision version_info,
      create_version_change_request self pgid revision version_info st
      = (Raise (needs_authentication "NifiClient"
                  "NifiClient.create_version_change_request"), st)) /\
  (forall parent registry_id bucket_id flow_id v x y,
      create_process_group self parent registry_id bucket_id flow_id v x y st
      = (Raise (needs_authentication "NifiClient"
                  "NifiClient.create_process_group"), st)) /\
  (forall pgid name revision,
      change_process_group_name self pgid name revision st
      = (Raise (needs_authentication "NifiClient"
                  "NifiClient.change_process_group_name"), st)) /\
  (forall request_id,
      get_update_request_status self request_id st
      = (Raise (needs_authentication "NifiClient"
                  "NifiClient.get_update_request_status"), st)) /\
  get_registry_clients self st
  = (Raise (needs_authentication "NifiClient"
              "NifiClient.get_registry_clients"), st) /\
  (forall fuel registry_c args,
      do_execute fuel self registry_c args st
      = (Raise (needs_authentication "NifiClient"
                  "NifiClient.get_process_group"), st)).
Proof.
  intros Hi Ht.
  assert (Hguard : forall A q (m : M A),
             require_auth self q m st
             = (Raise (needs_authentication "NifiClient" q), st)).
  { intros A q m. unfold require_auth. rewrite Hi, Ht. reflexivity. }
  repeat split; intros;
    try (unfold get_process_group_details, get_process_group,
           get_suggested_process_group_position,
           create_version_change_request, create_process_group,
           change_process_group_name, get_update_request_status,
           get_registry_clients; apply Hguard).
  unfold do_execute. cbv zeta. apply bind_Raise.
  unfold get_process_group. apply Hguard.
Qed.

(** X2.  An authenticated call that the server answers with a response
    that is not a success ends with a [NifiError] made of the prefix of the
    method and the text of the response, after that one request. *)
Theorem nifi_methods_report_refusals
  (self : NifiClient) (st : state) (r : response) (w' : World) :
  authenticated self = true ->
  (forall p,
      refuses (details_request self p) (world st) r w' ->
      get_process_group_details self (JStr p) st
      = (Raise (NifiError ("Get Process Group: " +++ resp_text r)),
         after st w' [EHttp (details_request self p) (Some r)])) /\
  (forall p,
      refuses (group_request self p) (world st) r w' ->
      get_process_group self (JStr p) st
      = (Raise (NifiError ("Get Process Group: " +++ resp_text r)),
         after st w' [EHttp (group_request self p) (Some r)])) /\
  (forall p,
      refuses (group_request self p) (world st) r w' ->
      get_suggested_process_group_position self (JStr p) st
      = (Raise (NifiError ("Get Suggested Group Position: " +++
                           resp_text r)),
         after st w' [EHttp (group_request self p) (Some r)])) /\
  (forall p revision version_info,
      refuses (change_request self p revision version_info) (world st) r w' ->
      create_version_change_request self (JStr p) revision version_info st
      = (Raise (NifiError ("Change Version: " +++ resp_text r)),
         after st w'
           [EHttp (change_request self p revision version_info) (Some r)])) /\
  (forall p registry_id bucket_id flow_id v x y,
      refuses (create_request self p registry_id bucket_id flow_id v x y)
        (world st) r w' ->
      create_process_group self (JStr p) registry_id bucket_id flow_id v x y
        st
      = (Raise (NifiError ("Create Process Group: " +++ resp_text r)),
         after st w'
           [EHttp (create_request self p registry_id bucket_id flow_id v x y)
              (Some r)])) /\
  (forall p name revision,
      refuses (rename_request self p name revision) (world st) r w' ->
      change_process_group_name self (JStr p) name revision st
      = (Raise (NifiError ("Change Process Group Name: " +++ resp_text r)),
         after st w' [EHttp (rename_request self p name revision) (Some r)])) /\
  (forall rid,
      refuses (status_request self rid) (world st) r w' ->
      get_update_request_status self (JStr rid) st
      = (Raise (NifiError ("Get Update Request Status: " +++ resp_text r)),
         after st w' [EHttp (status_request self rid) (Some r)])) /\
  (refuses (clients_request self) (world st) r w' ->
   get_registry_clients self st
   = (Raise (NifiError ("Get Registry Clients: " +++ resp_text r)),
      after st w' [EHttp (clients_request self) (Some r)])).
Proof.
  intros Ha.
  assert (Hsend : forall rq msg,
             refuses rq (world st) r w' ->
             bind (requests rq) (fun response =>
               if negb (resp_ok response)
               then raise (NifiError (msg +++ resp_text response))
               else response_json response) st
             = (Raise (NifiError (msg +++ resp_text r)),
                after st w' [EHttp rq (Some r)])).
  { intros rq msg [Hh Hok]. unfold bind, requests. rewrite Hh, Hok.
    reflexivity. }
  assert (Hbody : forall rq msg,
             refuses rq (world st) r w' ->
             bind (requests rq) (fun response =>
               if negb (resp_ok response)
               then raise (NifiError (msg +++ resp_text response))
               else bind (response_json response)
                      (fun body => lift (suggested_position body))) st
             = (Raise (NifiError (msg +++ resp_text r)),
                after st w' [EHttp rq (Some r)])).
  { intros rq msg [Hh Hok]. unfold bind, requests. rewrite Hh, Hok.
    reflexivity. }
  repeat split; intros;
    unfold get_process_group_details, get_process_group,
      get_suggested_process_group_position, create_version_change_request,
      create_process_group, change_process_group_name,
      get_update_request_status, get_registry_clients;
    rewrite require_auth_ok by assumption; cbv zeta; cbn [concat str];
    first [ now apply Hsend | now apply Hbody ].
Qed.

(** X3.  The client of the registry has the same guard and the same
    reports: without credentials its two methods raise the error that
    names the method and send nothing; a response that is not a success
    ends the call with a [NifiError] of the method's prefix and the text of
    the response. *)
Theorem registry_methods_guard_and_report
  (self : RegistryClient) (st : state) :
  (r_insecure self = false -> truthy_arg (r_token self) = false ->
   get_buckets self st
   = (Raise (needs_authentication "RegistryClient"
               "RegistryClient.get_buckets"), st) /\
   (forall bucket_id,
       get_flows self bucket_id st
       = (Raise (needs_authentication "RegistryClient"
                   "RegistryClient.get_flows"), st))) /\
  (r_authenticated self = true ->
   forall r w',
     (refuses (buckets_request self) (world st) r w' ->
      get_buckets self st
      = (Raise (NifiError ("Get Buckets: " +++ resp_text r)),
         after st w' [EHttp (buckets_request self) (Some r)])) /\
     (forall b,
         refuses (flows_request self b) (world st) r w' ->
         get_flows self (JStr b) st
         = (Raise (NifiError ("Get Flows: " +++ resp_text r)),
            after st w' [EHttp (flows_request self b) (Some r)]))).
Proof.
  split.
  - intros Hi Ht. split; [|intros bucket_id];
      unfold get_buckets, get_flows, r_require_auth; rewrite Hi, Ht;
      reflexivity.
  - intros Ha r w'. split; [|intros b]; intros [Hh Hok];
      unfold get_buckets, get_flows; rewrite r_require_auth_ok by assumption;
      cbn [concat]; unfold bind, requests, lift, ok, ret;
      unfold buckets_request, flows_request in Hh; rewrite Hh, Hok;
      reflexivity.
Qed.
(* ------------------------------------------------------------------ *)
(** ** Every request of a run is built by one of the two clients *)


Section BuiltBy.

Variable nifi : NifiClient.
Variable registry_c : RegistryClient.

Let P := built_by nifi registry_c.
















End BuiltBy.

(* ------------------------------------------------------------------ *)
(** ** How many mutating calls a run makes *)

Lemma find_bucket_reads registry_c args :
  emits is_read (find_bucket registry_c args).
Proof. unfold find_bucket. emits_auto. apply get_buckets_reads. Qed.

Lemma find_flow_reads registry_c args bucket_ :
  emits is_read (find_flow registry_c args bucket_).
Proof. unfold find_flow. emits_auto. apply get_flows_reads. Qed.

Lemma find_registry_reads nifi args : emits is_read (find_registry nifi args).
Proof. unfold find_registry. emits_auto. apply get_registry_clients_reads. Qed.

Lemma find_parent_reads fuel nifi args root_id :
  emits is_read (find_parent fuel nifi args root_id).
Proof. unfold find_parent. emits_auto. apply next_match_reads. Qed.

Lemma require_bucket_and_flow_reads args :
  emits is_read (require_bucket_and_flow args).
Proof. unfold require_bucket_and_flow. emits_auto. Qed.

Lemma reads_mutate_nothing {A} (m : M A) n :
  emits is_read m -> mutates_at_most n m.
Proof.
  intros H st. destruct (H st) as (evs & Hl & Hp). exists evs.
  split; [exact Hl|]. rewrite (mutating_reads _ Hp). cbn. lia.
Qed.

Lemma mutates_bind {A B} (m : M A) (k : A -> M B) a b :
  mutates_at_most a m -> (forall x, mutates_at_most b (k x)) ->
  mutates_at_most (a + b) (bind m k).
Proof.
  intros Hm Hk st. destruct (Hm st) as (evs & Hl & Hn). unfold bind.
  destruct (m st) as [[y| |] st1]; cbn [snd] in *;
    try (exists evs; split; [exact Hl | lia]).
  destruct (Hk y st1) as (evs' & Hl' & Hn').
  exists (evs ++ evs'). rewrite Hl', Hl, app_assoc. split; [reflexivity|].
  rewrite mutating_app, length_app. lia.
Qed.

Lemma mutates_after_reads {A B} (m : M A) (k : A -> M B) n :
  emits is_read m -> (forall x, mutates_at_most n (k x)) ->
  mutates_at_most n (bind m k).
Proof.
  intros Hm Hk. apply (mutates_bind m k 0 n); [|exact Hk].
  now apply reads_mutate_nothing.
Qed.

Lemma mutates_once_request {A} rq (f : response -> M A) :
  (forall r, emits is_read (f r)) ->
  mutates_at_most 1 (bind (requests rq) f).
Proof.
  intros Hf. apply (mutates_bind (requests rq) f 1 0).
  - intros st. exists [EHttp rq (fst (http rq (world st)))].
    unfold requests. destruct (http rq (world st)) as [[r|] w]; cbn [snd log];
      (split; [reflexivity|]); cbn; destruct (req_method rq); cbn; lia.
  - intros r. now apply reads_mutate_nothing.
Qed.

Lemma create_version_change_request_mutates_once self pgid rev vi :
  mutates_at_most 1 (create_version_change_request self pgid rev vi).
Proof.
  unfold create_version_change_request, require_auth.
  destruct (negb (insecure self) && negb (truthy_arg (token self)));
    [apply reads_mutate_nothing; emits_auto|].
  cbv zeta. apply mutates_after_reads; [emits_auto|]. intros url.
  apply mutates_once_request. intros r. emits_auto.
Qed.

Lemma create_process_group_mutates_once self parent rg bk fl v x y :
  mutates_at_most 1 (create_process_group self parent rg bk fl v x y).
Proof.
  unfold create_process_group, require_auth.
  destruct (negb (insecure self) && negb (truthy_arg (token self)));
    [apply reads_mutate_nothing; emits_auto|].
  cbv zeta. apply mutates_after_reads; [emits_auto|]. intros url.
  apply mutates_once_request. intros r. emits_auto.
Qed.

Lemma change_process_group_name_mutates_once self pgid name rev :
  mutates_at_most 1 (change_process_group_name self pgid name rev).
Proof.
  unfold change_process_group_name, require_auth.
  destruct (negb (insecure self) && negb (truthy_arg (token self)));
    [apply reads_mutate_nothing; emits_auto|].
  cbv zeta. apply mutates_after_reads; [emits_auto|]. intros url.
  apply mutates_once_request. intros r. emits_auto.
Qed.

Ltac skip_reads :=
  repeat (apply mutates_after_reads;
          [ first [ solve [emits_auto]
                  | apply get_process_group_details_reads
                  | apply get_process_group_reads
                  | apply next_match_reads
                  | apply default_registry_client_reads
                  | apply default_parent_pgid_reads
                  | apply default_position_reads
                  | apply require_bucket_and_flow_reads
                  | apply find_bucket_reads
                  | apply find_flow_reads
                  | apply find_registry_reads
                  | apply find_parent_reads ]
          | intros ? ]).

Lemma update_process_group_mutates_once fuel self pgid v timeout :
  mutates_at_most 1 (update_process_group fuel self pgid v timeout).
Proof.
  unfold update_process_group. skip_reads.
  apply (mutates_bind _ _ 1 0);
    [apply create_version_change_request_mutates_once|].
  intros update_request. apply reads_mutate_nothing.
  emits_auto;
    first [ apply get_update_request_status_reads | apply poll_reads ].
Qed.

Lemma import_process_group_mutates_twice self name bk fl v parent rg pos :
  mutates_at_most 2 (import_process_group self name bk fl v parent rg pos).
Proof.
  unfold import_process_group. skip_reads.
  apply (mutates_bind _ _ 1 1); [apply create_process_group_mutates_once|].
  intros details. skip_reads.
  apply (mutates_bind _ _ 1 0);
    [apply change_process_group_name_mutates_once|].
  intros updated. apply reads_mutate_nothing. emits_auto.
Qed.

Lemma mutates_weaken {A} (m : M A) n n' :
  (n <= n')%nat -> mutates_at_most n m -> mutates_at_most n' m.
Proof.
  intros Hle H st. destruct (H st) as (evs & Hl & Hn). exists evs.
  split; [exact Hl | lia].
Qed.

(** X5.  A run makes few mutating calls: the version-change driver at
    most one, the import executor at most two, and a whole run of
    [do_execute] at most two, whatever the servers answer. *)
Theorem runs_mutate_at_most_twice
  (fuel : nat) (nifi : NifiClient) (registry_c : RegistryClient)
  (args : Args) :
  (forall pgid v timeout,
      mutates_at_most 1 (update_process_group fuel nifi pgid v timeout)) /\
  (forall name bucket_id flow_id v parent_pgid registry_client position,
      mutates_at_most 2
        (import_process_group nifi name bucket_id flow_id v parent_pgid
           registry_client position)) /\
  mutates_at_most 2 (do_execute fuel nifi registry_c args).
Proof.
  split; [|split].
  - intros. apply update_process_group_mutates_once.
  - intros. apply import_process_group_mutates_twice.
  - assert (Himport : forall root_id,
               mutates_at_most 2 (do_import fuel nifi registry_c args root_id)).
    { intros root_id. unfold do_import. skip_reads.
      apply (mutates_bind _ _ 2 0);
        [apply import_process_group_mutates_twice|].
      intros ?. apply reads_mutate_nothing. emits_auto. }
    unfold do_execute. cbv zeta. skip_reads.
    match goal with |- mutates_at_most _ (if ?b then _ else _) => destruct b end;
      [apply Himport|].
    skip_reads. apply (mutates_weaken _ 1 2); [lia|].
    apply (mutates_bind _ _ 1 0);
      [apply update_process_group_mutates_once|].
    intros ?. apply reads_mutate_nothing. emits_auto.
Qed.
(* ------------------------------------------------------------------ *)
(** ** The import branch resolves every name before it changes anything *)

(** One resolving step: it fails, or it gives a value; either way it has
    only read. *)
Lemma resolving_step {A B} (m : M A) (k : A -> M B) st :
  emits is_read m ->
  exists st1 evs,
    log st1 = log st ++ evs /\ Forall is_read evs /\
    ((exists o, failed o /\ bind m k st = (o, st1)) \/
     (exists a, bind m k st = k a st1)).
Proof.
  intros H. destruct (H st) as (evs & Hl & Hp). unfold bind.
  destruct (m st) as [[a|e|] st1]; cbn [snd] in Hl; exists st1, evs;
    (split; [exact Hl|]); (split; [exact Hp|]).
  - right. now exists a.
  - left. exists (Raise e). now split.
  - left. exists Diverge. now split.
Qed.

(** X6.  The import branch of [do_execute] first resolves the bucket, the
    flow, the registry connection and the parent, by reading only; when
    one of them fails, the run ends there, and nothing has been changed on
    a server; otherwise the run continues as one call of
    [import_process_group], with the identifiers that were resolved. *)
Theorem import_resolves_before_it_mutates
  (fuel : nat) (nifi : NifiClient) (registry_c : RegistryClient)
  (args : Args) (root_id : json) (st : state) :
  exists st0 evs,
    log st0 = log st ++ evs /\
    Forall is_read evs /\
    ((exists o, failed o /\
                do_import fuel nifi registry_c args root_id st = (o, st0)) \/
     (exists bucket_id flow_id parent_pgid target_registry,
         do_import fuel nifi registry_c args root_id st
         = bind (import_process_group nifi (process_group_name args)
                   bucket_id flow_id (version args) parent_pgid
                   target_registry None)
             (fun _ => ret tt) st0)).
Proof.
  unfold do_import.
  destruct (resolving_step (require_bucket_and_flow args)
              (fun _ =>
                 bind (find_bucket registry_c args) (fun bucket_ =>
                 bind (find_flow registry_c args bucket_) (fun flow_ =>
                 bind (find_registry nifi args) (fun target_registry =>
                 bind (find_parent fuel nifi args root_id) (fun parent_pgid =>
                 bind (lift (getitem bucket_ "identifier")) (fun bucket_id =>
                 bind (lift (getitem flow_ "identifier")) (fun flow_id =>
                 bind (import_process_group nifi (process_group_name args)
                         bucket_id flow_id (version args) parent_pgid
                         target_registry None)
                   (fun _ => ret tt))))))))
              st (require_bucket_and_flow_reads args))
    as (s1 & e1 & L1 & P1 & [(o & Ho & E)|(u & E)]); rewrite E; clear E.
  { exists s1, e1. repeat split; try assumption. left. now exists o. }
  match goal with
  | |- context [bind (find_bucket ?r ?a) ?k s1] =>
      destruct (resolving_step (find_bucket r a) k s1
                  (find_bucket_reads r a))
        as (s2 & e2 & L2 & P2 & [(o & Ho & E)|(bucket_ & E)]);
        rewrite E; clear E
  end.
  { exists s2, (e1 ++ e2). rewrite L2, L1, <- app_assoc.
    repeat split; [now apply Forall_app|]. left. now exists o. }
  match goal with
  | |- context [bind (find_flow ?r ?a ?b) ?k s2] =>
      destruct (resolving_step (find_flow r a b) k s2
                  (find_flow_reads r a b))
        as (s3 & e3 & L3 & P3 & [(o & Ho & E)|(flow_ & E)]);
        rewrite E; clear E
  end.
  { exists s3, (e1 ++ e2 ++ e3). rewrite L3, L2, L1, <- !app_assoc.
    repeat split; [now rewrite !Forall_app|]. left. now exists o. }
  match goal with
  | |- context [bind (find_registry ?n ?a) ?k s3] =>
      destruct (resolving_step (find_registry n a) k s3
                  (find_registry_reads n a))
        as (s4 & e4 & L4 & P4 & [(o & Ho & E)|(target_registry & E)]);
        rewrite E; clear E
  end.
  { exists s4, (e1 ++ e2 ++ e3 ++ e4). rewrite L4, L3, L2, L1, <- !app_assoc.
    repeat split; [now rewrite !Forall_app|]. left. now exists o. }
  match goal with
  | |- context [bind (find_parent ?f ?n ?a ?r) ?k s4] =>
      destruct (resolving_step (find_parent f n a r) k s4
                  (find_parent_reads f n a r))
        as (s5 & e5 & L5 & P5 & [(o & Ho & E)|(parent_pgid & E)]);
        rewrite E; clear E
  end.
  { exists s5, (e1 ++ e2 ++ e3 ++ e4 ++ e5).
    rewrite L5, L4, L3, L2, L1, <- !app_assoc.
    repeat split; [now rewrite !Forall_app|]. left. now exists o. }
  exists s5, (e1 ++ e2 ++ e3 ++ e4 ++ e5).
  rewrite L5, L4, L3, L2, L1, <- !app_assoc.
  repeat split; [now rewrite !Forall_app|].
  destruct (getitem bucket_ "identifier") as [bucket_id|e] eqn:Eb.
  2:{ left. exists (Raise e). split; [exact I | reflexivity]. }
  destruct (getitem flow_ "identifier") as [flow_id|e] eqn:Ef.
  2:{ left. exists (Raise e). split; [exact I | reflexivity]. }
  right. now exists bucket_id, flow_id, parent_pgid, target_registry.
Qed.
(* ------------------------------------------------------------------ *)
(** ** Computations that end *)

Lemma returns_ret {A} (a : A) : returns (ret a).
Proof. intros st; discriminate. Qed.

Lemma returns_raise {A} e : returns (@raise _ A e).
Proof. intros st; discriminate. Qed.

Lemma returns_lift {A} (r : result A) : returns (lift r).
Proof. destruct r; [apply returns_ret | apply returns_raise]. Qed.

Lemma returns_bind {A B} (m : M A) (k : A -> M B) :
  returns m -> (forall a, returns (k a)) -> returns (bind m k).
Proof.
  intros Hm Hk st. specialize (Hm st). unfold bind.
  destruct (m st) as [[a| |] st1]; cbn [fst] in *;
    [apply Hk | discriminate | congruence].
Qed.

Lemma returns_print args : returns (print args).
Proof. intros st; discriminate. Qed.

Lemma returns_requests rq : returns (requests rq).
Proof.
  intros st. unfold requests.
  destruct (http rq (world st)) as [[r|] w]; discriminate.
Qed.

Lemma returns_response_json r : returns (response_json r).
Proof.
  unfold response_json. destruct (resp_body r);
    [apply returns_ret | apply returns_raise].
Qed.

Lemma returns_time_monotonic : returns time_monotonic.
Proof.
  intros st. unfold time_monotonic.
  destruct (monotonic (world st)); discriminate.
Qed.

Lemma returns_time_sleep d : returns (time_sleep d).
Proof. intros st; discriminate. Qed.

Lemma returns_require_auth {A} self q (m : M A) :
  returns m -> returns (require_auth self q m).
Proof.
  intros H. unfold require_auth.
  destruct (negb (insecure self) && negb (truthy_arg (token self)));
    [apply returns_raise | exact H].
Qed.

Lemma returns_r_require_auth {A} self q (m : M A) :
  returns m -> returns (r_require_auth self q m).
Proof.
  intros H. unfold r_require_auth.
  destruct (negb (r_insecure self) && negb (truthy_arg (r_token self)));
    [apply returns_raise | exact H].
Qed.

Ltac returns_step :=
  match goal with
  | |- returns (bind _ _) => apply returns_bind; [|intros ?]
  | |- returns (ret _) => apply returns_ret
  | |- returns (raise _) => apply returns_raise
  | |- returns (lift _) => apply returns_lift
  | |- returns (response_json _) => apply returns_response_json
  | |- returns (require_auth _ _ _) => apply returns_require_auth
  | |- returns (r_require_auth _ _ _) => apply returns_r_require_auth
  | |- returns (print _) => apply returns_print
  | |- returns (requests _) => apply returns_requests
  | |- returns time_monotonic => apply returns_time_monotonic
  | |- returns (time_sleep _) => apply returns_time_sleep
  | |- returns (if ?b then _ else _) => destruct b
  | |- returns (match ?x with _ => _ end) => destruct x
  | |- returns (let _ := _ in _) => cbv zeta
  end.

Ltac returns_auto := repeat returns_step.

Lemma get_process_group_details_returns self pgid :
  returns (get_process_group_details self pgid).
Proof. unfold get_process_group_details. returns_auto. Qed.

Lemma get_process_group_returns self pgid :
  returns (get_process_group self pgid).
Proof. unfold get_process_group. returns_auto. Qed.

Lemma create_version_change_request_returns self pgid rev vi :
  returns (create_version_change_request self pgid rev vi).
Proof. unfold create_version_change_request. returns_auto. Qed.

Lemma get_update_request_status_returns self rid :
  returns (get_update_request_status self rid).
Proof. unfold get_update_request_status. returns_auto. Qed.

Lemma bind_ends {A B} (m : M A) (k : A -> M B) st :
  fst (m st) <> Diverge ->
  (forall a st1, m st = (Ok a, st1) -> fst (k a st1) <> Diverge) ->
  fst (bind m k st) <> Diverge.
Proof.
  intros Hm Hk. unfold bind.
  destruct (m st) as [[a| |] st1]; cbn [fst] in *;
    [now apply Hk | discriminate | congruence].
Qed.

(* ------------------------------------------------------------------ *)
(** ** The polling loop ends when the clock ticks *)

Section Ticking.

Variable now : World -> Q.
Hypothesis Htick : ticking now.

Lemma status_keeps_time self rid st :
  (now (world st)
   <= now (world (snd (get_update_request_status self rid st))))%Q.
Proof.
  destruct Htick as (_ & _ & Hhttp).
  unfold get_update_request_status, require_auth.
  destruct (negb (insecure self) && negb (truthy_arg (token self)));
    [cbn; lra|].
  destruct rid; cbn [concat]; try (cbn; lra).
  unfold bind, lift, ok, ret, requests.
  match goal with
  | |- context [http ?rq (world st)] =>
      specialize (Hhttp rq (world st)); destruct (http rq (world st)) as [[r|] w]
  end; cbn [snd] in Hhttp; cbn [snd world]; [|exact Hhttp].
  destruct (negb (resp_ok r)); cbn [raise snd world]; [exact Hhttp|].
  unfold response_json. destruct (resp_body r); exact Hhttp.
Qed.

Lemma poll_ends self update_request start_time timeout n :
  forall fuel status st,
    (n < fuel)%nat ->
    (timeout + start_time - now (world st)
     < inject_Z (Z.of_nat n) * (5 # 100))%Q ->
    fst (poll fuel self update_request start_time timeout status st)
    <> Diverge.
Proof.
  destruct Htick as (Hclock & Hsleep & _).
  induction n as [|n IH]; intros [|fuel] status st Hfuel Hslack; try lia;
    cbn [poll]; unfold bind at 1;
    (destruct (getpath status ["request"; "complete"]) as [c|e];
     cbn [lift ok ret raise]; [|discriminate]);
    (destruct (truthy c); cbn [negb]; [discriminate|]);
    unfold bind at 1;
    (destruct (getpath status ["request"; "percentCompleted"]) as [pr|e];
     cbn [lift ok ret raise]; [|discriminate]);
    unfold bind at 1; cbn [print emit];
    unfold bind at 1; unfold time_monotonic; cbn [world log];
    destruct (Hclock (world st)) as [Hread Hlater];
    destruct (monotonic (world st)) as [t w1]; cbn [fst snd] in Hread, Hlater;
    subst t; unfold Qgtb;
    destruct (Qle_bool (now (world st) - start_time) timeout) eqn:E;
    cbn [negb]; try discriminate;
    apply Qle_bool_iff in E.
  - exfalso. change (inject_Z (Z.of_nat 0)) with 0%Q in Hslack. lra.
  - unfold bind at 1. cbn [time_sleep world log].
    unfold bind at 1.
    destruct (getpath update_request ["request"; "requestId"]) as [rid|e];
      cbn [lift ok ret raise]; [|discriminate].
    unfold bind at 1.
    match goal with
    | |- context [get_update_request_status self rid ?s] =>
        pose proof (status_keeps_time self rid s) as Hkeep;
        pose proof (get_update_request_status_returns self rid s) as Hret;
        destruct (get_update_request_status self rid s) as [[status'| |] st']
    end; try discriminate; [|exact Hret].
    cbn [snd world] in Hkeep. apply IH; [lia|].
    specialize (Hsleep (5 # 100) w1).
    rewrite Nat2Z.inj_succ, <- Z.add_1_r, inject_Z_plus in Hslack.
    change (inject_Z 1) with 1%Q in Hslack. lra.
Qed.

End Ticking.


(** X7.  On a clock that ticks, the version-change driver always ends:
    when the timeout is below [n] sleeps of 50 ms, fuel for [n + 1] rounds
    of the loop is enough for the driver to end with a value or an
    exception, whatever the server answers. *)
Theorem driver_ends_on_a_ticking_clock
  (now : World -> Q) (n fuel : nat) (self : NifiClient) (pgid : json)
  (v : Z) (timeout : Q) (st : state) :
  ticking now ->
  (timeout < inject_Z (Z.of_nat n) * (5 # 100))%Q ->
  (n < fuel)%nat ->
  fst (update_process_group fuel self pgid v timeout st) <> Diverge.
Proof.
  intros Htick Hn Hfuel.
  destruct (Htick) as (Hclock & _ & _).
  unfold update_process_group.
  apply bind_ends; [apply get_process_group_details_returns|].
  intros details s1 _.
  apply bind_ends; [apply returns_lift|]. intros id s2 _.
  apply bind_ends; [apply returns_lift|]. intros old s3 _.
  apply bind_ends; [apply returns_print|]. intros u1 s4 _.
  apply bind_ends; [apply returns_lift|]. intros rev s5 _.
  apply bind_ends; [apply returns_lift|]. intros cv s6 _.
  apply bind_ends; [apply returns_lift|]. intros cv' s7 _.
  apply bind_ends; [apply create_version_change_request_returns|].
  intros update_request s8 _.
  apply bind_ends; [apply returns_time_monotonic|].
  intros t0 s9 Ht0.
  assert (H9 : (t0 <= now (world s9))%Q).
  { unfold time_monotonic in Ht0. destruct (Hclock (world s8)) as [Hr Hl].
    destruct (monotonic (world s8)) as [t w]. cbn [fst snd] in Hr, Hl.
    injection Ht0 as <- <-. cbn [world]. subst t. exact Hl. }
  apply bind_ends; [apply returns_print|]. intros u2 s10 Hp.
  injection Hp as _ <-.
  apply bind_ends; [apply returns_lift|]. intros rid s11 Hl.
  assert (s11 = {| world := world s9;
                   log := log s9 ++ [EPrint [[Lit "Upgrade Progress: Starting"]]] |}).
  { destruct (getpath update_request ["request"; "requestId"]);
      cbn in Hl; now inversion Hl. }
  subst s11.
  apply bind_ends; [apply get_update_request_status_returns|].
  intros status s12 Hs.
  pose proof (status_keeps_time now Htick self rid
                {| world := world s9;
                   log := log s9 ++ [EPrint [[Lit "Upgrade Progress: Starting"]]] |})
    as Hkeep.
  rewrite Hs in Hkeep. cbn [snd world] in Hkeep.
  apply bind_ends.
  - apply (poll_ends now Htick self update_request t0 timeout n);
      [exact Hfuel | lra].
  - intros status' s13 _.
    apply bind_ends; [apply returns_lift|]. intros complete s14 _.
    apply bind_ends.
    + destruct (negb (truthy complete)); [|discriminate].
      apply bind_ends; [apply returns_lift | discriminate].
    + intros u3 s15 _. apply bind_ends; [apply returns_print | discriminate].
Qed.
(* ------------------------------------------------------------------ *)
(** ** A search that never ends *)

Lemma map_result_region (S : string -> Prop) pgs :
  Forall (fun pg => exists c, getitem pg "id" = ok (JStr c) /\ S c) pgs ->
  exists l,
    map_result (fun pg => getitem pg "id") pgs = ok l /\
    Forall (fun v => exists c, v = JStr c /\ S c) l /\
    (pgs <> [] -> l <> []).
Proof.
  induction 1 as [|pg pgs (c & Hc & HS) _ (l & Hl & Hin & _)].
  - exists []. repeat split; auto.
  - exists (JStr c :: l). cbn [map_result]. rewrite Hc. cbn [rbind ok].
    rewrite Hl. repeat split; [|discriminate].
    constructor; [now exists c | exact Hin].
Qed.

Lemma bind_assoc_run {A B C} (m : M A) (f : A -> M B) (k : B -> M C) st :
  bind (bind m f) k st = bind m (fun a => bind (f a) k) st.
Proof. unfold bind. destruct (m st) as [[a| |] s]; reflexivity. Qed.

Lemma next_match_endless (self : NifiClient) (target : string)
      (S : string -> Prop) fuel :
  authenticated self = true ->
  endless_region self target S ->
  forall g st, inside S g ->
  fst (next_match fuel self target g st) = Diverge.
Proof.
  intros Ha Hregion. induction fuel as [|fuel IH]; intros g st [Hq Hy];
    [reflexivity|].
  cbn [next_match]. unfold resume.
  assert (Hqueue : exists c rest,
             S c /\ Forall (fun v => exists c, v = JStr c /\ S c) rest /\
             forall B (k : list json -> M B),
               bind (match yielded g with
                     | None => ret (curr g)
                     | Some current_group =>
                         bind (lift (getpath current_group
                                 ["processGroupFlow"; "flow"; "processGroups"]))
                           (fun pgs =>
                         bind (lift (iter pgs)) (fun items =>
                         bind (lift (map_result (fun pg => getitem pg "id")
                                       items))
                           (fun ids' => ret (curr g ++ ids'))))
                     end) k st
               = k (JStr c :: rest) st).
  { destruct (yielded g) as [grp|].
    - destruct Hy as (pgs & Hp & Hne & Hin).
      destruct (map_result_region S pgs Hin) as (l & Hl & HlS & Hlne).
      assert (HS : Forall (fun v => exists c, v = JStr c /\ S c) (curr g ++ l))
        by (apply Forall_app; now split).
      destruct (curr g ++ l) as [|v rest] eqn:E.
      + apply app_eq_nil in E. destruct E as [_ ->]. now destruct (Hlne Hne).
      + inversion HS as [|? ? (c & -> & Hc) Hrest]; subst.
        exists c, rest. repeat split; try assumption. intros B k.
        rewrite Hp. cbn [lift ok]. unfold bind at 2. cbn [ret iter lift ok].
        unfold bind at 2. cbn [ret]. rewrite Hl. cbn [lift ok].
        unfold bind at 2. cbn [ret]. unfold bind. cbn [ret]. now rewrite E.
    - destruct (curr g) as [|v rest]; [now destruct Hy|].
      inversion Hq as [|? ? (c & -> & Hc) Hrest]; subst.
      exists c, rest. repeat split; try assumption. }
  destruct Hqueue as (c & rest & Hc & Hrest & Hk).
  rewrite bind_assoc_run. rewrite Hk. cbv beta iota.
  rewrite bind_assoc_run.
  destruct (Hregion c Hc (world st))
    as (r & grp & w' & pgs & Hr & (v & Hv & Hne) & Hp & Hpne & Hin).
  erewrite bind_Ok by (apply get_process_group_replies; [exact Ha | exact Hr]).
  unfold ret at 1. unfold bind at 1.
  rewrite (bind_lift_ok _ _ _ _ Hv). rewrite Hne.
  apply IH. split; [exact Hrest|]. cbn [yielded]. now exists pgs.
Qed.

(** X8.  The traversal keeps no record of the groups it has visited: in a
    part of the server's graph where every group has another name than
    the target and at least one child, and all children lead into that
    part again (a group that lists itself, two groups that list each
    other), the search started there never ends, whatever the fuel. *)
Theorem search_never_ends_in_an_endless_region
  (self : NifiClient) (target : string) (S : string -> Prop) (p : string)
  (fuel : nat) (st : state) :
  authenticated self = true ->
  endless_region self target S ->
  S p ->
  fst (next_match fuel self target (traverse_process_groups (JStr p)) st)
  = Diverge.
Proof.
  intros Ha Hregion Hp. apply (next_match_endless self target S); trivial.
  split; cbn [traverse_process_groups curr yielded]; [|discriminate].
  constructor; [now exists p | constructor].
Qed.

(* ------------------------------------------------------------------ *)
(** ** Resolution of the bucket, the flow and the parent *)

(** X9.  The bucket of an import is the first bucket of the registry
    whose name is exactly the given one; when no bucket has that name, the
    run ends with a fatal error that names it; either way the registry has
    been asked once, for its buckets. *)
Theorem bucket_is_resolved_by_name
  (registry_c : RegistryClient) (args : Args) (name : string) (st : state)
  (r : response) (buckets : list json) (w1 : World) :
  r_authenticated registry_c = true ->
  bucket args = Some name ->
  replies (buckets_request registry_c) (world st) r (JArr buckets) w1 ->
  let st1 := after st w1 [EHttp (buckets_request registry_c) (Some r)] in
  (Forall (other_name ["name"] name) buckets ->
   find_bucket registry_c args st
   = (Raise (NifiError ("Importing Process Group: bucket " +++ name +++
                        " does not exist")), st1)) /\
  (forall before b rest,
      buckets = before ++ b :: rest ->
      Forall (other_name ["name"] name) before ->
      getpath b ["name"] = ok (JStr name) ->
      find_bucket registry_c args st = (Ok b, st1)).
Proof.
  intros Ha Hname Hr st1. split.
  - intros Hnone. unfold find_bucket.
    erewrite bind_Ok by (apply get_buckets_replies; [exact Ha | exact Hr]).
    cbn [iter]. erewrite bind_lift_ok by reflexivity.
    rewrite Hname. cbn [arg_text].
    rewrite (bind_lift_ok _ _ _ _ (next_named_none _ _ _ Hnone)).
    reflexivity.
  - intros before b rest -> Hbefore Hb. unfold find_bucket.
    erewrite bind_Ok by (apply get_buckets_replies; [exact Ha | exact Hr]).
    cbn [iter]. erewrite bind_lift_ok by reflexivity.
    rewrite Hname. cbn [arg_text].
    rewrite (bind_lift_ok _ _ _ _ (next_named_first _ _ _ _ _ Hbefore Hb)).
    now rewrite (getpath_truthy _ _ _ _ Hb).
Qed.

(** X10.  The flow of an import is looked up in the resolved bucket only:
    the registry is asked for the flows of the bucket's identifier, and
    the flow is the first of them whose name is exactly the given one; when
    none has that name, the run ends with a fatal error that names it. *)
Theorem flow_is_resolved_in_the_bucket
  (registry_c : RegistryClient) (args : Args) (name bucket_id : string)
  (bucket_ : json) (st : state) (r : response) (flows : list json)
  (w1 : World) :
  r_authenticated registry_c = true ->
  flow args = Some name ->
  getitem bucket_ "identifier" = ok (JStr bucket_id) ->
  replies (flows_request registry_c bucket_id) (world st) r (JArr flows) w1 ->
  let st1 := after st w1
               [EHttp (flows_request registry_c bucket_id) (Some r)] in
  (Forall (other_name ["name"] name) flows ->
   find_flow registry_c args bucket_ st
   = (Raise (NifiError ("Importing Process Group: flow " +++ name +++
                        " does not exist")), st1)) /\
  (forall before f rest,
      flows = before ++ f :: rest ->
      Forall (other_name ["name"] name) before ->
      getpath f ["name"] = ok (JStr name) ->
      find_flow registry_c args bucket_ st = (Ok f, st1)).
Proof.
  intros Ha Hname Hid Hr st1. split.
  - intros Hnone. unfold find_flow. rewrite (bind_lift_ok _ _ _ _ Hid).
    erewrite bind_Ok by (apply get_flows_replies; [exact Ha | exact Hr]).
    cbn [iter]. erewrite bind_lift_ok by reflexivity.
    rewrite Hname. cbn [arg_text].
    rewrite (bind_lift_ok _ _ _ _ (next_named_none _ _ _ Hnone)).
    reflexivity.
  - intros before f rest -> Hbefore Hf. unfold find_flow.
    rewrite (bind_lift_ok _ _ _ _ Hid).
    erewrite bind_Ok by (apply get_flows_replies; [exact Ha | exact Hr]).
    cbn [iter]. erewrite bind_lift_ok by reflexivity.
    rewrite Hname. cbn [arg_text].
    rewrite (bind_lift_ok _ _ _ _ (next_named_first _ _ _ _ _ Hbefore Hf)).
    now rewrite (getpath_truthy _ _ _ _ Hf).
Qed.
(** X11.  The parent of an import.  With a parent name, the tree is
    searched breadth-first from the root, as for the target: the parent is
    the first group of that name, by the id its snapshot carries, and when
    no group has the name the run ends with a fatal error after every
    group has been fetched once.  Without a parent name nothing is searched
    and the import executor takes the id that the server gives for
    [root]. *)
Theorem parent_is_resolved_by_search
  (fuel : nat) (nifi : NifiClient) (args : Args) (t : tree) (st : state) :
  authenticated nifi = true ->
  serves nifi t ->
  (size t < fuel)%nat ->
  (forall name,
      parent args = Some name -> name <> EmptyString ->
      exists res st' evs,
        log st' = log st ++ evs /\
        Forall2 (fetch_of nifi) evs (upto (named name) (breadth_first t)) /\
        match find (named name) (breadth_first t) with
        | Some n =>
            snapshot res n /\
            find_parent fuel nifi args (JStr (tree_id t)) st
            = lift (getpath res ["processGroupFlow"; "id"]) st'
        | None =>
            find_parent fuel nifi args (JStr (tree_id t)) st
            = (Raise (NifiError ("Parent Processor Group " +++ name +++
                                 " does not exists")), st')
        end) /\
  (truthy_arg (parent args) = false ->
   find_parent fuel nifi args (JStr (tree_id t)) st = (Ok JNull, st) /\
   forall r root root_id w1,
     replies (group_request nifi "root") (world st) r root w1 ->
     getpath root ["processGroupFlow"; "id"] = ok root_id ->
     default_parent_pgid nifi JNull st
     = (Ok root_id,
        after st w1 [EHttp (group_request nifi "root") (Some r)])).
Proof.
  intros Ha Hs Hfuel. split.
  - intros name Hname Hne.
    assert (Hgiven : truthy_arg (parent args) = true).
    { rewrite Hname. cbn. apply String.eqb_neq in Hne. now rewrite Hne. }
    destruct (next_match_forest nifi name (size t) [t]
                (traverse_process_groups (JStr (tree_id t))) st fuel Ha)
      as (res & st' & evs & Hrun & Hlog & Hev & Hres).
    + unfold sizeF. cbn. lia.
    + exact Hfuel.
    + reflexivity.
    + intros n Hn. apply Hs. cbn in Hn. now rewrite app_nil_r in Hn.
    + rewrite <- breadth_first_forest in Hev, Hres.
      exists res, st', evs. split; [exact Hlog|]. split; [exact Hev|].
      unfold find_parent. rewrite Hgiven, Hname. cbn [arg_text].
      rewrite (bind_Ok _ _ _ _ _ Hrun).
      destruct (find (named name) (breadth_first t)) as [n|].
      * split; [exact Hres|]. destruct Hres as [Hn _].
        now rewrite (named_group_is_true _ _ Hn).
      * now subst res.
  - intros Homitted. split.
    + unfold find_parent. now rewrite Homitted.
    + intros r root root_id w1 Hr Hid. unfold default_parent_pgid.
      cbn [truthy negb].
      erewrite bind_Ok by (apply get_process_group_replies; [exact Ha | exact Hr]).
      now rewrite Hid.
Qed.

(* ------------------------------------------------------------------ *)
(** ** Edges of the layout planner, the driver and the import executor *)

Lemma max_from_missing field best before c rest k pts :
  field = ["position"; "x"] ->
  Forall2 positioned before pts ->
  getitem c "position" = err (KeyError k) ->
  max_from field (JNum best) (before ++ c :: rest) = err (KeyError k).
Proof.
  intros -> H Hc. revert best. induction H as [|c0 xy before pts [Hx _] _ IH];
    intros best.
  - cbn [app max_from getpath]. rewrite Hc. reflexivity.
  - cbn [app max_from]. rewrite Hx. cbn [rbind ok lt as_int].
    destruct (best <? fst xy); apply IH.
Qed.

(** X12.  The layout planner reads the position of every component the
    server reports: when the first components carry integer positions and
    the next one carries no [position] at all, the planner ends with the
    [KeyError] of that key, and suggests nothing. *)
Theorem position_is_required_of_every_component
  (self : NifiClient) (p : string) (st : state) (r : response)
  (body flows : json) (parts : list (list json)) (w' : World)
  (before rest : list json) (c : json) (pts : list (Z * Z)) :
  authenticated self = true ->
  replies (group_request self p) (world st) r body w' ->
  getpath body ["processGroupFlow"; "flow"] = ok flows ->
  reports flows parts ->
  List.concat parts = before ++ c :: rest ->
  Forall2 positioned before pts ->
  getitem c "position" = err (KeyError "position") ->
  get_suggested_process_group_position self (JStr p) st
  = (Raise (KeyError "position"),
     after st w' [EHttp (group_request self p) (Some r)]).
Proof.
  intros Ha Hr Hf Hrep Hparts Hpos Hc.
  unfold get_suggested_process_group_position.
  rewrite require_auth_ok by assumption. cbn [concat].
  erewrite bind_lift_ok by reflexivity.
  rewrite (bind_Ok _ _ _ _ _ (requests_replies _ _ _ _ _ Hr)).
  destruct Hr as (_ & Hok & Hb). rewrite Hok. cbn [negb].
  unfold response_json. rewrite Hb.
  erewrite bind_Ok by reflexivity.
  unfold suggested_position. rewrite Hf. cbn [rbind ok].
  rewrite (extend_components_reports _ _ _ _ Hrep). cbn [app rbind ok].
  rewrite Hparts.
  destruct Hpos as [|c0 xy before pts [Hx Hy] Hrest].
  - cbn [app getpath]. rewrite Hc. reflexivity.
  - cbn [app]. rewrite Hx. cbn [rbind ok].
    rewrite (max_from_missing _ _ _ _ _ _ _ eq_refl Hrest Hc). reflexivity.
Qed.
(** X13.  A status that is complete ends the driver at once, whatever the
    clock and the timeout are: when the first status fetched is complete,
    the driver prints no progress, reads the clock no more, does not sleep,
    prints [Done] and returns the id it was given. *)
Theorem complete_status_ends_the_driver
  (fuel : nat) (self : NifiClient) (p : string) (version : Z) (timeout : Q)
  (st : state) (r1 r2 r3 : response)
  (details id old rev update_request : json)
  (binding : list (string * json)) (rid : string) (s1 c : json)
  (t0 : Q) (w1 w2 w3 w4 : World) :
  (1 <= fuel)%nat ->
  authenticated self = true ->
  replies (details_request self p) (world st) r1 details w1 ->
  getitem details "id" = ok id ->
  getpath details ["component"; "versionControlInformation"]
  = ok (JObj binding) ->
  dict_get binding "version" = Some old ->
  getitem details "revision" = ok rev ->
  replies (change_request self p rev
             (JObj (dict_set binding "version" (JNum version))))
          w1 r2 update_request w2 ->
  monotonic w2 = (t0, w3) ->
  getpath update_request ["request"; "requestId"] = ok (JStr rid) ->
  replies (status_request self rid) w3 r3 s1 w4 ->
  getpath s1 ["request"; "complete"] = ok c -> truthy c = true ->
  update_process_group fuel self (JStr p) version timeout st
  = (Ok (JStr p),
     after st w4
       [EHttp (details_request self p) (Some r1);
        upgrading_line id old version;
        EHttp (change_request self p rev
                 (JObj (dict_set binding "version" (JNum version))))
              (Some r2);
        EClock t0; starting_line;
        EHttp (status_request self rid) (Some r3);
        done_line]).
Proof.
  intros Hfuel Ha H1 Hid Hb Hold Hrev H2 Ht0 Hrid H3 Hc Ht.
  destruct fuel as [|fuel]; [lia|].
  rewrite (update_process_group_begins _ _ _ _ _ _ _ _ _ _ _ _ _ _ _ _ _ _ _
             _ _ _ Ha H1 Hid Hb Hold Hrev H2 Ht0 Hrid H3).
  erewrite bind_Ok by (eapply poll_complete; eassumption).
  rewrite (bind_lift_ok _ _ _ _ Hc), Ht. cbn [negb].
  unfold bind at 1. unfold ret at 1.
  rewrite (bind_Ok _ _ _ _ _ (print_run _ _)).
  unfold ret. now rewrite !after_after.
Qed.

(** X14.  The import executor undoes nothing.  When the server refuses
    the creation, the run ends with the error of that call and no rename is
    sent.  When the server creates the group and then refuses the rename,
    the run ends with the error of the rename, and the creation stands: the
    two calls are all the executor has sent to change the server. *)
Theorem failed_import_is_not_undone
  (self : NifiClient) (name : string) (bucket_id flow_id : json)
  (version : Z) (parent0 registry0 : json) (position0 : option (json * json))
  (st st1 st2 st3 : state) (registry_id x y : json) (parent : string) :
  authenticated self = true ->
  default_registry_client self registry0 st = (Ok registry_id, st1) ->
  default_parent_pgid self parent0 st1 = (Ok (JStr parent), st2) ->
  default_position self (JStr parent) position0 st2 = (Ok (x, y), st3) ->
  let create := create_request self parent registry_id bucket_id flow_id
                  version x y in
  let importing := importing_line name version bucket_id flow_id registry_id
                     (JStr parent) in
  (forall r1 w4,
      refuses create (world st3) r1 w4 ->
      import_process_group self name bucket_id flow_id version parent0
        registry0 position0 st
      = (Raise (NifiError ("Create Process Group: " +++ resp_text r1)),
         after st3 w4 [importing; EHttp create (Some r1)])) /\
  (forall r1 details w4 new_id rev r2 w5,
      replies create (world st3) r1 details w4 ->
      getitem details "id" = ok (JStr new_id) ->
      getitem details "revision" = ok rev ->
      refuses (rename_request self new_id name rev) w4 r2 w5 ->
      import_process_group self name bucket_id flow_id version parent0
        registry0 position0 st
      = (Raise (NifiError ("Change Process Group Name: " +++ resp_text r2)),
         after st3 w5
           [importing; EHttp create (Some r1); imported_line;
            EHttp (rename_request self new_id name rev) (Some r2)]) /\
      mutating [importing; EHttp create (Some r1); imported_line;
                EHttp (rename_request self new_id name rev) (Some r2)]
      = [EHttp create (Some r1);
         EHttp (rename_request self new_id name rev) (Some r2)]).
Proof.
  intros Ha H1 H2 H3 create importing. split.
  - intros r1 w4 [Hh Hok]. unfold import_process_group.
    rewrite (bind_Ok _ _ _ _ _ H1), (bind_Ok _ _ _ _ _ H2),
      (bind_Ok _ _ _ _ _ H3).
    rewrite (bind_Ok _ _ _ _ _ (print_run _ _)).
    apply bind_Raise. unfold create_process_group.
    rewrite require_auth_ok by assumption. cbv zeta. cbn [str fst snd].
    unfold bind, lift, ok, ret, requests. cbn [world after].
    unfold create, create_request in Hh. rewrite Hh, Hok. cbn [negb raise].
    unfold after. cbn [log world]. now rewrite <- app_assoc.
  - intros r1 details w4 new_id rev r2 w5 Hc Hid Hrev [Hh Hok].
    destruct (import_process_group_begins self name bucket_id flow_id version
                parent0 registry0 position0 st st1 st2 st3 registry_id x y
                details rev parent new_id r1 w4 Ha H1 H2 H3 Hc Hid Hrev)
      as (Hrun & _).
    split; [|reflexivity].
    rewrite Hrun. apply bind_Raise. unfold change_process_group_name.
    rewrite require_auth_ok by assumption. cbv zeta. cbn [concat].
    unfold bind, lift, ok, ret, requests. cbn [world after].
    unfold rename_request in Hh. rewrite Hh, Hok. cbn [negb raise].
    unfold after. cbn [log world]. now rewrite <- app_assoc.
Qed.
(** X15.  A group that is not under version control cannot be
    upgraded: when the details of the group carry no
    [versionControlInformation], the driver ends with the [KeyError] of
    that key right after it has read the details; it prints nothing and
    requests no change. *)
Theorem unversioned_group_is_not_upgraded
  (fuel : nat) (self : NifiClient) (p : string) (version : Z) (timeout : Q)
  (st : state) (r1 : response) (details id component : json) (w1 : World) :
  authenticated self = true ->
  replies (details_request self p) (world st) r1 details w1 ->
  getitem details "id" = ok id ->
  getitem details "component" = ok component ->
  getitem component "versionControlInformation"
  = err (KeyError "versionControlInformation") ->
  update_process_group fuel self (JStr p) version timeout st
  = (Raise (KeyError "versionControlInformation"),
     after st w1 [EHttp (details_request self p) (Some r1)]).
Proof.
  intros Ha H1 Hid Hc Hv. unfold update_process_group.
  erewrite bind_Ok
    by (apply get_process_group_details_replies; [exact Ha | exact H1]).
  rewrite (bind_lift_ok _ _ _ _ Hid).
  apply bind_lift_err. cbn [getpath]. rewrite Hc. cbn [rbind ok].
  now rewrite Hv.
Qed.

(* ------------------------------------------------------------------ *)
(** ** A fetch that fails ends the search *)

Lemma resume_refused (self : NifiClient) g t q st r w' :
  authenticated self = true ->
  represents g (t :: q) ->
  refuses (group_request self (tree_id t)) (world st) r w' ->
  resume self g st
  = (Raise (NifiError ("Get Process Group: " +++ resp_text r)),
     after st w' [EHttp (group_request self (tree_id t)) (Some r)]).
Proof.
  intros Ha H [Hh Hok]. unfold resume. rewrite (resume_queue self g _ _ st H).
  cbn [ids map]. apply bind_Raise. unfold get_process_group.
  rewrite require_auth_ok by assumption. cbn [concat].
  unfold bind, lift, ok, ret, requests. unfold group_request in Hh.
  rewrite Hh, Hok. reflexivity.
Qed.

(** The search over a queue of trees of which the server refuses one
    group: the groups before it in breadth-first order are fetched, none
    has the target name, and the refusal ends the search. *)
Lemma next_match_refused (self : NifiClient) (target : string) k :
  forall q g st fuel before b rest r,
  authenticated self = true ->
  (sizeF q <= k)%nat -> (k < fuel)%nat ->
  represents g q ->
  breadth_firstF q = before ++ b :: rest ->
  Forall (fun n => named target n = false /\
                   forall w, exists r' g' w',
                     replies (group_request self (tree_id n)) w r' g' w' /\
                     snapshot g' n) before ->
  (forall w, exists w', refuses (group_request self (tree_id b)) w r w') ->
  exists st' evs,
    next_match fuel self target g st
    = (Raise (NifiError ("Get Process Group: " +++ resp_text r)), st') /\
    log st' = log st ++ evs /\
    Forall2 (fetch_of self) evs (before ++ [b]).
Proof.
  induction k as [|k IH];
    intros [|[i n cs] q] g st [|fuel] before b rest r Ha Hk Hf Hg Hbf Hpre Hb;
    try lia; try (rewrite sizeF_cons in Hk; lia);
    try (rewrite breadth_firstF_nil in Hbf; now destruct before).
  rewrite sizeF_cons in Hk. set (t := Node i n cs) in *.
  unfold t in Hbf. rewrite breadth_firstF_step in Hbf. fold t in Hbf.
  cbn [next_match]. destruct before as [|n0 before].
  - cbn [app] in Hbf. injection Hbf as <- _.
    destruct (Hb (world st)) as [w' Hr].
    exists (after st w' [EHttp (group_request self (tree_id t)) (Some r)]),
      [EHttp (group_request self (tree_id t)) (Some r)].
    split; [|split; [reflexivity|]].
    + apply bind_Raise. now apply resume_refused with (q := q).
    + constructor; [now exists r | constructor].
  - cbn [app] in Hbf. injection Hbf as <- Hbf.
    inversion Hpre as [|? ? [Hname Hserved] Hpre']; subst.
    destruct (Hserved (world st)) as (r' & g' & w' & Hr & Hn & Hkids).
    rewrite (bind_Ok _ _ _ _ _ (resume_cons self g t q st r' g' w' Ha Hg Hr)).
    rewrite Hn. cbn [lift ok]. unfold bind at 1. cbn [ret eq_str].
    unfold named in Hname. rewrite Hname.
    destruct (IH (q ++ cs) {| curr := ids q; yielded := Some g' |}
                (after st w' [EHttp (group_request self (tree_id t)) (Some r')])
                fuel before b rest r Ha)
      as (st' & evs & Hrun & Hlog & Hev); trivial.
    + rewrite sizeF_app. lia.
    + lia.
    + exists q, cs. repeat split. exact Hkids.
    + exists st', (EHttp (group_request self (tree_id t)) (Some r') :: evs).
      split; [exact Hrun|]. split.
      * rewrite Hlog. cbn [after log]. now rewrite <- app_assoc.
      * cbn [app]. constructor; [now exists r' | exact Hev].
Qed.

(** X16.  A fetch that the server refuses ends the search, with the error
    of the fetch: the groups that come before the refused one in
    breadth-first order have been fetched, none of them has the target
    name, and the groups after it are not fetched. *)
Theorem refused_fetch_ends_the_search
  (self : NifiClient) (t : tree) (target : string) (st : state)
  (fuel : nat) (before rest : list tree) (b : tree) (r : response) :
  authenticated self = true ->
  (size t < fuel)%nat ->
  breadth_first t = before ++ b :: rest ->
  Forall (fun n => tree_name n <> target /\
                   forall w, exists r' g' w',
                     replies (group_request self (tree_id n)) w r' g' w' /\
                     snapshot g' n) before ->
  (forall w, exists w', refuses (group_request self (tree_id b)) w r w') ->
  exists st' evs,
    next_match fuel self target
      (traverse_process_groups (JStr (tree_id t))) st
    = (Raise (NifiError ("Get Process Group: " +++ resp_text r)), st') /\
    log st' = log st ++ evs /\
    Forall2 (fetch_of self) evs (before ++ [b]).
Proof.
  intros Ha Hfuel Hbf Hpre Hb.
  apply (next_match_refused self target (size t) [t] _ st fuel before b rest r);
    trivial.
  - unfold sizeF. cbn. lia.
  - reflexivity.
  - now rewrite <- breadth_first_forest.
  - eapply Forall_impl; [|exact Hpre]. intros n [Hn Hs]. split; [|exact Hs].
    now apply named_false.
Qed.
End Running.

(* ------------------------------------------------------------------ *)
(** ** The theorems at work on the concrete environments *)

Module Examples.
Import Scenario.


(** On the canvas, the search for [nested] returns the group of depth 1
    (the right child of the root), not the one of depth 2. *)
Lemma search_example :
  exists res,
    fst (next_match (env := tree_env canvas) 5 nifi "nested"
           (traverse_process_groups (JStr (tree_id canvas)))
           (start (tree_env canvas) 0%nat)) = Ok res /\
    snapshot res right.
Proof.
  destruct (search_is_breadth_first (env := tree_env canvas) nifi canvas
              "nested" (start (tree_env canvas) 0%nat) 5)
    as (res & st' & evs & Hrun & _ & _ & Hfound & _).
  - reflexivity.
  - intros n Hn w. cbn in Hn.
    destruct Hn as [<-|[<-|[<-|[<-|[]]]]];
      (eexists _, _, _; split; [repeat split | ];
       split; [reflexivity | eexists; split; [reflexivity | repeat constructor]]).
  - cbn. lia.
  - destruct (Hfound 1%nat right) as (n' & _ & Hsnap & Huniq).
    + cbn. now right; left.
    + reflexivity.
    + intros d' m Hd Hm. assert (d' = 0%nat) by lia. subst d'.
      cbn in Hm. destruct Hm as [<-|[]]. discriminate.
    + exists res. rewrite Hrun. split; [reflexivity|].
      rewrite <- Huniq; [exact Hsnap|].
      intros m Hm Hname. cbn in Hm. destruct Hm as [<-|[<-|[]]];
        [discriminate | reflexivity].
Defined.

(** Upgrading [id-b] to version 2 against a server whose change completes
    at the third poll. *)
Lemma upgrade_example :
  update_process_group (env := upgrade_env) 3 nifi (JStr "id-b") 2 30
    (start upgrade_env 0%nat)
  = (Ok (JStr "id-b"),
     after (start upgrade_env 0%nat) 10%nat
       [EHttp (details_request nifi "id-b") (Some (success group_details));
        upgrading_line (JStr "id-b") (JNum 1) 2;
        EHttp (change_request nifi "id-b"
                 (JObj [("clientId", JStr "c-1"); ("version", JNum 7)])
                 (JObj [("groupId", JStr "id-b");
                        ("registryId", JStr "reg-1");
                        ("bucketId", JStr "bucket-1");
                        ("flowId", JStr "flow-1");
                        ("version", JNum 2);
                        ("state", JStr "STALE")]))
              (Some (success (status false 0)));
        EClock 0; starting_line;
        EHttp (status_request nifi "req-1") (Some (success (status false 10)));
        progress_line (JNum 10); EClock 0; ESleep (5 # 100);
        EHttp (status_request nifi "req-1") (Some (success (status false 55)));
        progress_line (JNum 55); EClock 0; ESleep (5 # 100);
        EHttp (status_request nifi "req-1") (Some (success (status true 100)));
        done_line]).
Proof.
  apply (upgrade_reports_progress_then_done (env := upgrade_env) 3 nifi
           "id-b" 2 (start upgrade_env 0%nat)
           (success group_details) (success (status false 0))
           (success (status false 10)) (success (status false 55))
           (success (status true 100))
           group_details (JStr "id-b") (JNum 1)
           (JObj [("clientId", JStr "c-1"); ("version", JNum 7)])
           (status false 0)
           [("groupId", JStr "id-b"); ("registryId", JStr "reg-1");
            ("bucketId", JStr "bucket-1"); ("flowId", JStr "flow-1");
            ("version", JNum 1); ("state", JStr "STALE")]
           "req-1" (status false 10) (status false 55) (status true 100)
           0%Q 0%Q 0%Q
           1%nat 2%nat 3%nat 4%nat 5%nat 7%nat 8%nat 10%nat);
    try reflexivity; try (repeat split; fail); try (cbn; lia);
    try discriminate.
Defined.

(** C3, as the code has it.  The change never completes and the clock has
    passed the timeout of 30 seconds at the first check of the loop: the
    driver leaves the loop with the status it fetched before the check and
    fetches no fresh one, finds that status not complete, and then fails
    with a [TypeError] raised while it builds the message of the error it
    means to raise (a text and a dict cannot be concatenated): no
    [NifiError], and no message that names the last status. *)
Theorem timed_out_driver_raises_type_error :
  update_process_group (env := stuck_env) 10 nifi (JStr "id-b") 2 30
    (start stuck_env 0%nat)
  = (Raise (TypeError "can only concatenate str to str" TDict),
     after (start stuck_env 0%nat) 5%nat
       [EHttp (details_request nifi "id-b") (Some (success group_details));
        upgrading_line (JStr "id-b") (JNum 1) 2;
        EHttp (change_request nifi "id-b"
                 (JObj [("clientId", JStr "c-1"); ("version", JNum 7)])
                 (JObj [("groupId", JStr "id-b");
                        ("registryId", JStr "reg-1");
                        ("bucketId", JStr "bucket-1");
                        ("flowId", JStr "flow-1");
                        ("version", JNum 2);
                        ("state", JStr "STALE")]))
              (Some (success (status false 0)));
        EClock 0; starting_line;
        EHttp (status_request nifi "req-1") (Some (success (status false 10)));
        progress_line (JNum 10); EClock 31]).
Proof. vm_compute. reflexivity. Qed.

(** On the canvas, a run for the name [nested] upgrades the group
    [id-b]; the import arguments it is given play no part. *)
Lemma existing_group_example :
  do_execute (env := upgrade_env) 5 nifi registry_client
    {| process_group_name := "nested"; version := 2;
       bucket := Some "docker local test"; flow := Some "test flow";
       parent := Some "test group"; registry := Some "docker local" |}
    (start upgrade_env 0%nat)
  = bind (update_process_group (env := upgrade_env) 5 nifi (JStr "id-b") 2
            30)
      (fun _ => ret tt)
      (snd (next_match (env := upgrade_env) 5 nifi "nested"
              (traverse_process_groups (JStr "id-root"))
              (after (start upgrade_env 0%nat) 1%nat
                 [EHttp (group_request nifi "root")
                    (Some (success (group_json canvas [])))]))).
Proof.
  apply (existing_group_is_upgraded (env := upgrade_env) 5 nifi "nested" 2
           (start upgrade_env 0%nat) _ (success (group_json canvas []))
           (group_json canvas []) (JStr "id-root") (group_json right [])
           (JStr "id-b") 1%nat).
  - reflexivity.
  - repeat split.
  - reflexivity.
  - reflexivity.
  - reflexivity.
  - reflexivity.
  - reflexivity.
  - reflexivity.
Defined.

(** On the canvas, a run for a name that no group has, without a bucket:
    the configuration error, after four fetches of groups. *)
Lemma missing_bucket_example :
  do_execute (env := upgrade_env) 5 nifi registry_client
    {| process_group_name := "absent"; version := 2;
       bucket := None; flow := Some "test flow";
       parent := None; registry := None |}
    (start upgrade_env 0%nat)
  = (Raise (NifiError
              "Importing Process Group needs --bucket and --flow defined"),
     snd (next_match (env := upgrade_env) 5 nifi "absent"
            (traverse_process_groups (JStr "id-root"))
            (after (start upgrade_env 0%nat) 1%nat
               [EHttp (group_request nifi "root")
                  (Some (success (group_json canvas [])))]))).
Proof.
  apply (import_needs_bucket_and_flow (env := upgrade_env) 5 nifi
           registry_client
           {| process_group_name := "absent"; version := 2;
              bucket := None; flow := Some "test flow";
              parent := None; registry := None |}
           (start upgrade_env 0%nat) _ (success (group_json canvas []))
           (group_json canvas []) (JStr "id-root") 1%nat).
  - reflexivity.
  - repeat split.
  - reflexivity.
  - reflexivity.
  - left. reflexivity.
Defined.

(** A run for the name of the root group upgrades the root group. *)
Lemma root_example :
  do_execute (env := upgrade_env) 1 nifi registry_client
    {| process_group_name := "NiFi Flow"; version := 2;
       bucket := None; flow := None; parent := None; registry := None |}
    (start upgrade_env 0%nat)
  = bind (update_process_group (env := upgrade_env) 1 nifi
            (JStr "id-root") 2 30)
      (fun _ => ret tt)
      (after (start upgrade_env 0%nat) 2%nat
         [EHttp (group_request nifi "root")
            (Some (success (group_json canvas [])));
          EHttp (group_request nifi "id-root")
            (Some (success (group_json canvas [])))]).
Proof.
  apply (root_is_a_candidate (env := upgrade_env) 1 nifi "NiFi Flow" 2
           (start upgrade_env 0%nat) (success (group_json canvas []))
           (success (group_json canvas [])) (group_json canvas [])
           (group_json canvas []) (JStr "id-root") "id-root" 1%nat 2%nat).
  - lia.
  - reflexivity.
  - repeat split.
  - reflexivity.
  - repeat split.
  - reflexivity.
  - reflexivity.
  - reflexivity.
  - reflexivity.
Defined.

(** With two registry connections, the name [staging] resolves to the id
    of the second. *)
Lemma registry_example :
  find_registry (env := clients_env) nifi import_args
    (start clients_env 0%nat)
  = (Ok (JStr "reg-2"),
     after (start clients_env 0%nat) 1%nat
       [EHttp (clients_request nifi)
          (Some (success (JObj [("registries", JArr two_connections)])))]).
Proof.
  destruct (registry_connection_is_resolved (env := clients_env) nifi
              import_args (start clients_env 0%nat)
              (success (JObj [("registries", JArr two_connections)]))
              (JObj [("registries", JArr two_connections)])
              two_connections 1%nat) as [Hgiven _].
  - reflexivity.
  - repeat split.
  - reflexivity.
  - destruct (Hgiven "staging" eq_refl) as [_ Hfound]; [discriminate|].
    destruct (Hfound [connection "reg-1" "docker local"]
                (connection "reg-2" "staging") [] (JStr "reg-2"))
      as [Hrun _].
    + reflexivity.
    + constructor; [|constructor]. eexists. split; reflexivity.
    + reflexivity.
    + reflexivity.
    + exact Hrun.
Defined.

(** An import with every default: the registry is the only connection,
    the parent is the root, the position is next to the two groups of the
    root; the group is created, then renamed. *)
Lemma import_example :
  fst (import_process_group (env := import_env) nifi "nested 123456"
         (JStr "bucket-1") (JStr "flow-1") 2 JNull JNull None
         (start import_env 0%nat))
  = Ok (JStr "id-new") /\
  mutating (log (snd (import_process_group (env := import_env) nifi
                        "nested 123456" (JStr "bucket-1") (JStr "flow-1") 2
                        JNull JNull None (start import_env 0%nat))))
  = [EHttp (create_request nifi "id-root" (JStr "reg-1") (JStr "bucket-1")
              (JStr "flow-1") 2 (JNum 430) (JNum 0))
       (Some (success created));
     EHttp (rename_request nifi "id-new" "nested 123456"
              (JObj [("version", JNum 1)]))
       (Some (success (renamed "nested 123456")))].
Proof.
  pose (st := start import_env 0%nat).
  pose (st1 := snd (default_registry_client (env := import_env) nifi JNull st)).
  pose (st2 := snd (default_parent_pgid (env := import_env) nifi JNull st1)).
  pose (st3 := snd (default_position (env := import_env) nifi
                      (JStr "id-root") None st2)).
  destruct (import_creates_then_renames (env := import_env) nifi
              "nested 123456" (JStr "bucket-1") (JStr "flow-1") 2 JNull JNull
              None st st1 st2 st3 (JStr "reg-1") (JNum 430) (JNum 0) created
              (JObj [("version", JNum 1)]) (renamed "nested 123456")
              (JStr "id-new") "id-root" "id-new" (success created)
              (success (renamed "nested 123456")) 4%nat 5%nat)
    as (pre & Hpre & Hrun & Hmut).
  - reflexivity.
  - reflexivity.
  - reflexivity.
  - reflexivity.
  - repeat split.
  - reflexivity.
  - reflexivity.
  - repeat split.
  - reflexivity.
  - fold st. rewrite Hrun. split; [reflexivity|].
    cbn [snd after log]. rewrite Hpre. exact Hmut.
Defined.

(** The two mutating calls on concrete servers: the change of version of
    [id-b] carries the revision and the binding of the details just read,
    with the version set to 2; the rename of [id-new] carries the revision
    that its creation returned. *)
Lemma revision_example :
  (exists rs rest,
      log (snd (update_process_group (env := upgrade_env) 3 nifi
                  (JStr "id-b") 2 30 (start upgrade_env 0%nat)))
      = [EHttp (details_request nifi "id-b") (Some (success group_details));
         upgrading_line (JStr "id-b") (JNum 1) 2;
         EHttp (change_request nifi "id-b"
                  (JObj [("clientId", JStr "c-1"); ("version", JNum 7)])
                  (JObj [("groupId", JStr "id-b");
                         ("registryId", JStr "reg-1");
                         ("bucketId", JStr "bucket-1");
                         ("flowId", JStr "flow-1");
                         ("version", JNum 2);
                         ("state", JStr "STALE")])) rs]
        ++ rest /\
      Forall is_read rest) /\
  (exists rs,
      http_events
        (log (snd (import_process_group (env := import_env) nifi
                     "nested 123456" (JStr "bucket-1") (JStr "flow-1") 2
                     (JStr "id-a") (JStr "reg-1")
                     (Some (JNum 10, JNum 20)) (start import_env 0%nat))))
      = [EHttp (create_request nifi "id-a" (JStr "reg-1") (JStr "bucket-1")
                  (JStr "flow-1") 2 (JNum 10) (JNum 20))
           (Some (success created));
         EHttp (rename_request nifi "id-new" "nested 123456"
                  (JObj [("version", JNum 1)])) rs]).
Proof.
  split.
  - destruct (proj1 (mutations_carry_latest_revision (env := upgrade_env))
                3%nat nifi "id-b" 2 30%Q
                (start upgrade_env 0%nat) (success group_details)
                group_details (JStr "id-b") (JNum 1)
                (JObj [("clientId", JStr "c-1"); ("version", JNum 7)])
                [("groupId", JStr "id-b"); ("registryId", JStr "reg-1");
                 ("bucketId", JStr "bucket-1"); ("flowId", JStr "flow-1");
                 ("version", JNum 1); ("state", JStr "STALE")] 1%nat)
      as [H _]; try reflexivity; [repeat split|].
    exact H.
  - pose (st := start import_env 0%nat).
    destruct (proj2 (mutations_carry_latest_revision (env := import_env))
                nifi "nested 123456" (JStr "bucket-1")
                (JStr "flow-1") 2 (JStr "id-a") (JStr "reg-1")
                (Some (JNum 10, JNum 20)) st st st st (JStr "reg-1")
                (JNum 10) (JNum 20) created (JObj [("version", JNum 1)])
                "id-a" "id-new" (success created) 1%nat)
      as [rs Hlog]; try reflexivity; [repeat split|].
    exists rs. fold st. rewrite Hlog. reflexivity.
Defined.

(** Without credentials, a run ends before its first request. *)
Lemma locked_example :
  do_execute (env := down_env) 5 locked registry_client upgrade_args
    (start down_env 0%nat)
  = (Raise (needs_authentication "NifiClient" "NifiClient.get_process_group"),
     start down_env 0%nat).
Proof.
  apply (nifi_methods_require_authentication (env := down_env) locked
           (start down_env 0%nat)); reflexivity.
Defined.

(** A server that is down: the fetch of the root reports its answer. *)
Lemma refusal_example :
  get_process_group (env := down_env) nifi (JStr "root")
    (start down_env 0%nat)
  = (Raise (NifiError "Get Process Group: 503 Service Unavailable"),
     after (start down_env 0%nat) 1%nat
       [EHttp (group_request nifi "root") (Some unavailable)]).
Proof.
  apply (nifi_methods_report_refusals (env := down_env) nifi
           (start down_env 0%nat) unavailable 1%nat eq_refl).
  split; reflexivity.
Defined.

Lemma registry_refusal_example :
  get_buckets (env := down_env) locked_registry (start down_env 0%nat)
  = (Raise (needs_authentication "RegistryClient"
              "RegistryClient.get_buckets"), start down_env 0%nat) /\
  get_buckets (env := down_env) registry_client (start down_env 0%nat)
  = (Raise (NifiError "Get Buckets: 503 Service Unavailable"),
     after (start down_env 0%nat) 1%nat
       [EHttp (buckets_request registry_client) (Some unavailable)]).
Proof.
  split.
  - apply (proj1 (registry_methods_guard_and_report (env := down_env)
                    locked_registry (start down_env 0%nat)));
      reflexivity.
  - apply (proj2 (registry_methods_guard_and_report (env := down_env)
                    registry_client (start down_env 0%nat)) eq_refl
             unavailable 1%nat).
    split; reflexivity.
Defined.

(** With the timeout of 30 seconds, 602 rounds are enough on a clock that
    runs: the driver ends. *)
Lemma ticking_example :
  fst (update_process_group (env := timed_env) 602 nifi (JStr "id-b") 2 30
         (start timed_env 0%Q))
  <> Diverge.
Proof.
  apply (driver_ends_on_a_ticking_clock (env := timed_env) (fun t => t)
           601 602 nifi (JStr "id-b") 2 30 (start timed_env 0%Q)).
  - repeat split; cbn; intros; lra.
  - reflexivity.
  - lia.
Defined.

(** A group that lists itself: the search for another name never ends. *)
Lemma endless_example :
  fst (next_match (env := loop_env) 25 nifi "nested"
         (traverse_process_groups (JStr "id-x")) (start loop_env 0%nat))
  = Diverge.
Proof.
  apply (search_never_ends_in_an_endless_region (env := loop_env) nifi
           "nested" (fun c => c = "id-x") "id-x" 25 (start loop_env 0%nat)).
  - reflexivity.
  - intros p -> w.
    exists (success (group_json looping [])), (group_json looping []),
      (S w), [component "id-x" 0 0].
    split; [repeat split|]. split; [eexists; split; reflexivity|].
    split; [reflexivity|]. split; [discriminate|].
    constructor; [|constructor]. now exists "id-x".
  - reflexivity.
Defined.

(** The bucket and the flow of the run that [main] shows. *)
Lemma bucket_example :
  find_bucket (env := registry_env) registry_client import_args
    (start registry_env 0%nat)
  = (Ok (entry "bucket-1" "docker local test"),
     after (start registry_env 0%nat) 1%nat
       [EHttp (buckets_request registry_client)
          (Some (success (JArr bucket_list)))]).
Proof.
  apply (proj2 (bucket_is_resolved_by_name (env := registry_env)
                  registry_client import_args "docker local test"
                  (start registry_env 0%nat) (success (JArr bucket_list))
                  bucket_list 1%nat eq_refl eq_refl
                  (conj eq_refl (conj eq_refl eq_refl)))
           [entry "bucket-0" "sandbox"] (entry "bucket-1" "docker local test")
           []).
  - reflexivity.
  - constructor; [|constructor]. eexists. split; reflexivity.
  - reflexivity.
Defined.

Lemma flow_example :
  find_flow (env := registry_env) registry_client import_args
    (entry "bucket-1" "docker local test") (start registry_env 0%nat)
  = (Ok (entry "flow-1" "test flow"),
     after (start registry_env 0%nat) 1%nat
       [EHttp (flows_request registry_client "bucket-1")
          (Some (success (JArr flow_list)))]).
Proof.
  apply (proj2 (flow_is_resolved_in_the_bucket (env := registry_env)
                  registry_client import_args "test flow" "bucket-1"
                  (entry "bucket-1" "docker local test")
                  (start registry_env 0%nat) (success (JArr flow_list))
                  flow_list 1%nat eq_refl eq_refl eq_refl
                  (conj eq_refl (conj eq_refl eq_refl)))
           [entry "flow-0" "draft flow"] (entry "flow-1" "test flow") []).
  - reflexivity.
  - constructor; [|constructor]. eexists. split; reflexivity.
  - reflexivity.
Defined.

(** On the canvas, the parent [ingest] is the left child of the root. *)
Lemma parent_example :
  exists res st' evs,
    log st' = log (start (tree_env canvas) 0%nat) ++ evs /\
    Forall2 (fetch_of nifi) evs [canvas; left] /\
    snapshot res left /\
    find_parent (env := tree_env canvas) 5 nifi
      {| process_group_name := "nested 123456"; version := 2;
         bucket := Some "docker local test"; flow := Some "test flow";
         parent := Some "ingest"; registry := None |}
      (JStr (tree_id canvas)) (start (tree_env canvas) 0%nat)
    = lift (getpath res ["processGroupFlow"; "id"]) st'.
Proof.
  destruct (parent_is_resolved_by_search (env := tree_env canvas) 5 nifi
              {| process_group_name := "nested 123456"; version := 2;
                 bucket := Some "docker local test";
                 flow := Some "test flow";
                 parent := Some "ingest"; registry := None |}
              canvas (start (tree_env canvas) 0%nat))
    as [Hnamed _].
  - reflexivity.
  - intros n Hn w. cbn in Hn.
    destruct Hn as [<-|[<-|[<-|[<-|[]]]]];
      (eexists _, _, _; split; [repeat split | ];
       split; [reflexivity | eexists; split; [reflexivity | repeat constructor]]).
  - cbn. lia.
  - destruct (Hnamed "ingest" eq_refl) as (res & st' & evs & Hl & Hev & Hres);
      [discriminate|].
    exists res, st', evs. cbn in Hev, Hres. destruct Hres as [Hs Hrun].
    repeat split; try assumption; apply Hs.
Defined.

(** A component without a position: the planner ends with a [KeyError]. *)
Lemma unplaced_example :
  get_suggested_process_group_position (env := unplaced_env) nifi
    (JStr "id-p") (start unplaced_env 0%nat)
  = (Raise (KeyError "position"),
     after (start unplaced_env 0%nat) 1%nat
       [EHttp (group_request nifi "id-p") (Some (success unplaced))]).
Proof.
  apply (position_is_required_of_every_component (env := unplaced_env) nifi
           "id-p" (start unplaced_env 0%nat) (success unplaced) unplaced
           (JObj [("processGroups", JArr []);
                  ("remoteProcessGroups", JArr []);
                  ("processors",
                   JArr [component "p1" 10 5; JObj [("id", JStr "c1")];
                         component "p3" 50 2]);
                  ("inputPorts", JArr []);
                  ("outputPorts", JArr []);
                  ("connections", JArr []);
                  ("labels", JArr []);
                  ("funnels", JArr [])])
           [[]; []; [component "p1" 10 5; JObj [("id", JStr "c1")];
                     component "p3" 50 2]; []; []; []; []; []]
           1%nat [component "p1" 10 5] [component "p3" 50 2]
           (JObj [("id", JStr "c1")]) [(10, 5)]).
  - reflexivity.
  - repeat split.
  - reflexivity.
  - repeat constructor.
  - reflexivity.
  - repeat constructor.
  - reflexivity.
Defined.

(** A change that is complete at the first poll, with a timeout of zero. *)
Lemma done_example :
  update_process_group (env := done_env) 1 nifi (JStr "id-b") 2 0
    (start done_env 0%nat)
  = (Ok (JStr "id-b"),
     after (start done_env 0%nat) 4%nat
       [EHttp (details_request nifi "id-b") (Some (success group_details));
        upgrading_line (JStr "id-b") (JNum 1) 2;
        EHttp (change_request nifi "id-b"
                 (JObj [("clientId", JStr "c-1"); ("version", JNum 7)])
                 (JObj [("groupId", JStr "id-b");
                        ("registryId", JStr "reg-1");
                        ("bucketId", JStr "bucket-1");
                        ("flowId", JStr "flow-1");
                        ("version", JNum 2);
                        ("state", JStr "STALE")]))
              (Some (success (status false 0)));
        EClock 0; starting_line;
        EHttp (status_request nifi "req-1")
          (Some (success (status true 100)));
        done_line]).
Proof.
  apply (complete_status_ends_the_driver (env := done_env) 1 nifi "id-b" 2
           0%Q (start done_env 0%nat) (success group_details)
           (success (status false 0)) (success (status true 100))
           group_details (JStr "id-b") (JNum 1)
           (JObj [("clientId", JStr "c-1"); ("version", JNum 7)])
           (status false 0)
           [("groupId", JStr "id-b"); ("registryId", JStr "reg-1");
            ("bucketId", JStr "bucket-1"); ("flowId", JStr "flow-1");
            ("version", JNum 1); ("state", JStr "STALE")]
           "req-1" (status true 100) (JBool true) 0%Q
           1%nat 2%nat 3%nat 4%nat);
    try reflexivity; try (repeat split; fail); lia.
Defined.

(** The server creates the group and refuses to rename it. *)
Lemma refused_rename_example :
  import_process_group (env := refusing_env PUT) nifi "nested 123456"
    (JStr "bucket-1") (JStr "flow-1") 2 (JStr "id-a") (JStr "reg-1")
    (Some (JNum 10, JNum 20)) (start (refusing_env PUT) 0%nat)
  = (Raise (NifiError
              "Change Process Group Name: 503 Service Unavailable"),
     after (start (refusing_env PUT) 0%nat) 2%nat
       [importing_line "nested 123456" 2 (JStr "bucket-1") (JStr "flow-1")
          (JStr "reg-1") (JStr "id-a");
        EHttp (create_request nifi "id-a" (JStr "reg-1") (JStr "bucket-1")
                 (JStr "flow-1") 2 (JNum 10) (JNum 20))
          (Some (success created));
        imported_line;
        EHttp (rename_request nifi "id-new" "nested 123456"
                 (JObj [("version", JNum 1)])) (Some unavailable)]).
Proof.
  pose (st := start (refusing_env PUT) 0%nat).
  assert (H := failed_import_is_not_undone (env := refusing_env PUT) nifi
              "nested 123456" (JStr "bucket-1") (JStr "flow-1") 2
              (JStr "id-a") (JStr "reg-1") (Some (JNum 10, JNum 20))
              st st st st (JStr "reg-1") (JNum 10) (JNum 20) "id-a"
              eq_refl eq_refl eq_refl eq_refl).
  cbv zeta in H. destruct H as [_ Hrename].
  exact (proj1 (Hrename (success created) created 1%nat "id-new"
                  (JObj [("version", JNum 1)]) unavailable 2%nat
                  (conj eq_refl (conj eq_refl eq_refl)) eq_refl eq_refl
                  (conj eq_refl eq_refl))).
Defined.

(** The details of a group that is not under version control. *)
Lemma unversioned_example :
  update_process_group (env := unversioned_env) 5 nifi (JStr "id-a") 2 30
    (start unversioned_env 0%nat)
  = (Raise (KeyError "versionControlInformation"),
     after (start unversioned_env 0%nat) 1%nat
       [EHttp (details_request nifi "id-a")
          (Some (success unversioned_details))]).
Proof.
  apply (unversioned_group_is_not_upgraded (env := unversioned_env) 5 nifi
           "id-a" 2 30%Q (start unversioned_env 0%nat)
           (success unversioned_details) unversioned_details (JStr "id-a")
           (JObj [("id", JStr "id-a"); ("name", JStr "ingest")]) 1%nat);
    try reflexivity. repeat split.
Defined.

(** On the canvas without [id-b], a search for a name that no group has:
    the root and the left child are fetched, the fetch of [id-b] fails. *)
Lemma broken_example :
  exists st' evs,
    next_match (env := broken_env) 5 nifi "absent"
      (traverse_process_groups (JStr (tree_id canvas)))
      (start broken_env 0%nat)
    = (Raise (NifiError "Get Process Group: 503 Service Unavailable"), st') /\
    log st' = log (start broken_env 0%nat) ++ evs /\
    Forall2 (fetch_of nifi) evs [canvas; left; right].
Proof.
  apply (refused_fetch_ends_the_search (env := broken_env) nifi canvas
           "absent" (start broken_env 0%nat) 5 [canvas; left] [deep] right
           unavailable).
  - reflexivity.
  - cbn. lia.
  - reflexivity.
  - repeat constructor; try discriminate;
      (intros w; eexists _, _, _; split; [repeat split|];
       split; [reflexivity | eexists; split; [reflexivity | repeat constructor]]).
  - intros w. exists (S w). split; reflexivity.
Defined.

End Examples.
